(** * Tooth-boundary picking and annotation geometry: a verified model

    Shallow embedding of the geometric core of the mesh viewer
    ([src/utils/ToothPicker.ts], the sleeve builder of the annotation
    overlay, and the display-number editing of the viewer page).

    Numbers.  A JavaScript [number] is idealised as a real number: the
    geometry is proved for what the code computes in exact arithmetic.
    The non-finite values [NaN] and [Infinity] have no counterpart in
    [R].  They are made explicit at the two places where the code meets
    them on finite input: the running minimum of [distanceToPolygon2D]
    starts at [Infinity], and [applyMatrix4] divides by zero when the
    frame of a degenerate loop is singular.  In both places [None]
    stands for the non-finite value.

    Rounding.  The plane fitter is the one place where rounding changes
    the outcome in kind and not only in the last digits: the terms of
    the Newell sum of a nearly collinear loop cancel, and what is left
    is rounding error.  The fitter is therefore given a second time,
    over an arbitrary arithmetic ([Floating.newellPlane]), and studied
    in the arithmetic that rounds every operation and in IEEE binary64,
    the arithmetic of JavaScript numbers.

    Objects.  JavaScript objects have identity.  Where the code edits
    documents, the document objects, their [centers] tables and the tooth
    records live in a store and refer to each other by address; the
    geometry only reads a document and takes it as a value. *)

From Stdlib Require Import Reals Lra Psatz List String Ascii ZArith Bool.
From Stdlib Require Import Sorting.Permutation Sorting.Sorted.
From stdpp Require Import gmap strings.
From Stdlib Require Floats.PrimFloat.
From Stdlib Require Import FunctionalExtensionality.

(** ** JavaScript number primitives used by the code *)

Module JS.
Local Open Scope R_scope.

(** [a < b], [a <= b], [a > b] as booleans *)
Definition lt (a b : R) : bool := if Rlt_dec a b then true else false.
Definition le (a b : R) : bool := if Rle_dec a b then true else false.
Definition gt (a b : R) : bool := lt b a.

(** [a || d] on numbers: [d] when [a] is falsy, i.e. zero *)
Definition or_default (a d : R) : R := if Req_dec_T a 0 then d else a.

(** [Math.hypot(dx, dy)] *)
Definition hypot (dx dy : R) : R := sqrt (dx * dx + dy * dy).

(** [a !== b] on booleans *)
Definition bool_neq (a b : bool) : bool := xorb a b.
End JS.

(** ** The part of three.js the code calls

    These definitions follow the three.js implementations of the methods
    used by the repository (Vector2, Vector3, Matrix4, Plane, Ray); the
    library itself is not part of the repository. *)

Module Vector2.
Local Open Scope R_scope.
Record t : Type := mk { x : R; y : R }.

Definition subVectors (a b : t) : t := mk (x a - x b) (y a - y b).
Definition add (a b : t) : t := mk (x a + x b) (y a + y b).
Definition multiplyScalar (a : t) (s : R) : t := mk (x a * s) (y a * s).
Definition length (a : t) : R := sqrt (x a * x a + y a * y a).
End Vector2.

Module Vector3.
Local Open Scope R_scope.
Record t : Type := mk { x : R; y : R; z : R }.

Definition zero : t := mk 0 0 0.
Definition dot (a b : t) : R := x a * x b + y a * y b + z a * z b.
Definition lengthSq (a : t) : R := x a * x a + y a * y a + z a * z a.
Definition length (a : t) : R := sqrt (lengthSq a).
Definition multiplyScalar (a : t) (s : R) : t := mk (x a * s) (y a * s) (z a * s).
Definition divideScalar (a : t) (s : R) : t := multiplyScalar a (1 / s).
(** [normalize()] is [divideScalar(length() || 1)] *)
Definition normalize (a : t) : t := divideScalar a (JS.or_default (length a) 1).
Definition add (a b : t) : t := mk (x a + x b) (y a + y b) (z a + z b).
Definition sub (a b : t) : t := mk (x a - x b) (y a - y b) (z a - z b).
Definition negate (a : t) : t := mk (- x a) (- y a) (- z a).
Definition crossVectors (a b : t) : t :=
  mk (y a * z b - z a * y b) (z a * x b - x a * z b) (x a * y b - y a * x b).
Definition distanceToSquared (a b : t) : R :=
  let dx := x a - x b in let dy := y a - y b in let dz := z a - z b in
  dx * dx + dy * dy + dz * dz.
Definition distanceTo (a b : t) : R := sqrt (distanceToSquared a b).
End Vector3.

Module Matrix4.
Local Open Scope R_scope.

(** [elements], column-major as in three.js *)
Record t : Type := mk {
  e0 : R; e1 : R; e2 : R; e3 : R;
  e4 : R; e5 : R; e6 : R; e7 : R;
  e8 : R; e9 : R; e10 : R; e11 : R;
  e12 : R; e13 : R; e14 : R; e15 : R }.

(** [set(n11, n12, ..., n44)] takes its arguments row by row *)
Definition set (n11 n12 n13 n14 n21 n22 n23 n24
                n31 n32 n33 n34 n41 n42 n43 n44 : R) : t :=
  mk n11 n21 n31 n41 n12 n22 n32 n42 n13 n23 n33 n43 n14 n24 n34 n44.

Definition identity : t := set 1 0 0 0  0 1 0 0  0 0 1 0  0 0 0 1.

Definition makeBasis (xAxis yAxis zAxis : Vector3.t) : t :=
  set (Vector3.x xAxis) (Vector3.x yAxis) (Vector3.x zAxis) 0
      (Vector3.y xAxis) (Vector3.y yAxis) (Vector3.y zAxis) 0
      (Vector3.z xAxis) (Vector3.z yAxis) (Vector3.z zAxis) 0
      0 0 0 1.

Definition setPosition (m : t) (v : Vector3.t) : t :=
  mk (e0 m) (e1 m) (e2 m) (e3 m) (e4 m) (e5 m) (e6 m) (e7 m)
     (e8 m) (e9 m) (e10 m) (e11 m) (Vector3.x v) (Vector3.y v) (Vector3.z v) (e15 m).

(** The four cofactors along the first column and the determinant, as
    [invert()] computes them *)
Definition t11 (m : t) : R :=
  let n12 := e4 m in let n22 := e5 m in let n32 := e6 m in let n42 := e7 m in
  let n13 := e8 m in let n23 := e9 m in let n33 := e10 m in let n43 := e11 m in
  let n14 := e12 m in let n24 := e13 m in let n34 := e14 m in let n44 := e15 m in
  n23 * n34 * n42 - n24 * n33 * n42 + n24 * n32 * n43
  - n22 * n34 * n43 - n23 * n32 * n44 + n22 * n33 * n44.
Definition t12 (m : t) : R :=
  let n12 := e4 m in let n22 := e5 m in let n32 := e6 m in let n42 := e7 m in
  let n13 := e8 m in let n23 := e9 m in let n33 := e10 m in let n43 := e11 m in
  let n14 := e12 m in let n24 := e13 m in let n34 := e14 m in let n44 := e15 m in
  n14 * n33 * n42 - n13 * n34 * n42 - n14 * n32 * n43
  + n12 * n34 * n43 + n13 * n32 * n44 - n12 * n33 * n44.
Definition t13 (m : t) : R :=
  let n12 := e4 m in let n22 := e5 m in let n32 := e6 m in let n42 := e7 m in
  let n13 := e8 m in let n23 := e9 m in let n33 := e10 m in let n43 := e11 m in
  let n14 := e12 m in let n24 := e13 m in let n34 := e14 m in let n44 := e15 m in
  n13 * n24 * n42 - n14 * n23 * n42 + n14 * n22 * n43
  - n12 * n24 * n43 - n13 * n22 * n44 + n12 * n23 * n44.
Definition t14 (m : t) : R :=
  let n12 := e4 m in let n22 := e5 m in let n32 := e6 m in let n42 := e7 m in
  let n13 := e8 m in let n23 := e9 m in let n33 := e10 m in let n43 := e11 m in
  let n14 := e12 m in let n24 := e13 m in let n34 := e14 m in let n44 := e15 m in
  n14 * n23 * n32 - n13 * n24 * n32 - n14 * n22 * n33
  + n12 * n24 * n33 + n13 * n22 * n34 - n12 * n23 * n34.

Definition det (m : t) : R :=
  e0 m * t11 m + e1 m * t12 m + e2 m * t13 m + e3 m * t14 m.

(** [invert()]: cofactor expansion; a singular matrix becomes the zero
    matrix *)
Definition invert (m : t) : t :=
  let n11 := e0 m in let n21 := e1 m in let n31 := e2 m in let n41 := e3 m in
  let n12 := e4 m in let n22 := e5 m in let n32 := e6 m in let n42 := e7 m in
  let n13 := e8 m in let n23 := e9 m in let n33 := e10 m in let n43 := e11 m in
  let n14 := e12 m in let n24 := e13 m in let n34 := e14 m in let n44 := e15 m in
  if Req_dec_T (det m) 0 then set 0 0 0 0  0 0 0 0  0 0 0 0  0 0 0 0 else
  let detInv := 1 / det m in
  mk (t11 m * detInv)
     ((n24 * n33 * n41 - n23 * n34 * n41 - n24 * n31 * n43
       + n21 * n34 * n43 + n23 * n31 * n44 - n21 * n33 * n44) * detInv)
     ((n22 * n34 * n41 - n24 * n32 * n41 + n24 * n31 * n42
       - n21 * n34 * n42 - n22 * n31 * n44 + n21 * n32 * n44) * detInv)
     ((n23 * n32 * n41 - n22 * n33 * n41 - n23 * n31 * n42
       + n21 * n33 * n42 + n22 * n31 * n43 - n21 * n32 * n43) * detInv)
     (t12 m * detInv)
     ((n13 * n34 * n41 - n14 * n33 * n41 + n14 * n31 * n43
       - n11 * n34 * n43 - n13 * n31 * n44 + n11 * n33 * n44) * detInv)
     ((n14 * n32 * n41 - n12 * n34 * n41 - n14 * n31 * n42
       + n11 * n34 * n42 + n12 * n31 * n44 - n11 * n32 * n44) * detInv)
     ((n12 * n33 * n41 - n13 * n32 * n41 + n13 * n31 * n42
       - n11 * n33 * n42 - n12 * n31 * n43 + n11 * n32 * n43) * detInv)
     (t13 m * detInv)
     ((n14 * n23 * n41 - n13 * n24 * n41 - n14 * n21 * n43
       + n11 * n24 * n43 + n13 * n21 * n44 - n11 * n23 * n44) * detInv)
     ((n12 * n24 * n41 - n14 * n22 * n41 + n14 * n21 * n42
       - n11 * n24 * n42 - n12 * n21 * n44 + n11 * n22 * n44) * detInv)
     ((n13 * n22 * n41 - n12 * n23 * n41 - n13 * n21 * n42
       + n11 * n23 * n42 + n12 * n21 * n43 - n11 * n22 * n43) * detInv)
     (t14 m * detInv)
     ((n13 * n24 * n31 - n14 * n23 * n31 + n14 * n21 * n33
       - n11 * n24 * n33 - n13 * n21 * n34 + n11 * n23 * n34) * detInv)
     ((n14 * n22 * n31 - n12 * n24 * n31 - n14 * n21 * n32
       + n11 * n24 * n32 + n12 * n21 * n34 - n11 * n22 * n34) * detInv)
     ((n12 * n23 * n31 - n13 * n22 * n31 + n13 * n21 * n32
       - n11 * n23 * n32 - n12 * n21 * n33 + n11 * n22 * n33) * detInv).

(** [Vector3.applyMatrix4]: affine map followed by the perspective
    divide.  When the divisor is zero, [w] is [1 / 0 = Infinity] and
    every coordinate of the result is [NaN] (zero times [Infinity]) or
    infinite: the result is [None], a point without a finite
    coordinate. *)
Definition applyTo (m : t) (v : Vector3.t) : option Vector3.t :=
  let x := Vector3.x v in let y := Vector3.y v in let z := Vector3.z v in
  let d := e3 m * x + e7 m * y + e11 m * z + e15 m in
  if Req_dec_T d 0 then None else
  let w := 1 / d in
  Some (Vector3.mk ((e0 m * x + e4 m * y + e8 m * z + e12 m) * w)
                   ((e1 m * x + e5 m * y + e9 m * z + e13 m) * w)
                   ((e2 m * x + e6 m * y + e10 m * z + e14 m) * w)).
End Matrix4.

(** [v.clone().applyMatrix4(m)] *)
Definition applyMatrix4 (v : Vector3.t) (m : Matrix4.t) : option Vector3.t :=
  Matrix4.applyTo m v.

Module Plane.
Local Open Scope R_scope.
Record t : Type := mk { normal : Vector3.t; constant : R }.

Definition setFromNormalAndCoplanarPoint (normal point : Vector3.t) : t :=
  mk normal (- Vector3.dot point normal).
Definition distanceToPoint (p : t) (point : Vector3.t) : R :=
  Vector3.dot (normal p) point + constant p.
End Plane.

Module Ray.
Local Open Scope R_scope.
Record t : Type := mk { origin : Vector3.t; direction : Vector3.t }.

Definition at_ (r : t) (d : R) : Vector3.t :=
  Vector3.add (origin r) (Vector3.multiplyScalar (direction r) d).

(** [distanceToPlane]: [null] for a ray parallel to and off the plane
    and for a plane behind the ray; [0] for a ray lying in the plane *)
Definition distanceToPlane (r : t) (plane : Plane.t) : option R :=
  let denominator := Vector3.dot (Plane.normal plane) (direction r) in
  if Req_dec_T denominator 0 then
    if Req_dec_T (Plane.distanceToPoint plane (origin r)) 0 then Some 0 else None
  else
    let d := - (Vector3.dot (origin r) (Plane.normal plane) + Plane.constant plane)
             / denominator in
    if Rge_dec d 0 then Some d else None.

Definition intersectPlane (r : t) (plane : Plane.t) : option Vector3.t :=
  match distanceToPlane r plane with
  | None => None
  | Some d => Some (at_ r d)
  end.
End Ray.

Module Raycaster.
Record t : Type := mk { ray : Ray.t; near : R; far : R }.
End Raycaster.

(** ** Loops over consecutive pairs

    [for (let i = 0, j = a.length - 1; i < a.length; j = i++)] visits the
    pairs [(a[i], a[j])] with [j] the cyclic predecessor of [i]. *)

Fixpoint loop_from {A : Type} (prev : A) (l : list A) : list (A * A) :=
  match l with
  | [] => []
  | p :: r => (p, prev) :: loop_from p r
  end.

Definition loop_pairs {A : Type} (l : list A) : list (A * A) :=
  match l with
  | [] => []
  | p :: _ => loop_from (List.last l p) l
  end.

(** ** Plane fitter: [newellPlane] *)

Module Newell.
Local Open Scope R_scope.
Import Vector3.

Record acc : Type := mkAcc { n : Vector3.t; cx : R; cy : R; cz : R }.

Definition init : acc := mkAcc Vector3.zero 0 0 0.

Definition step (a : acc) (pij : Vector3.t * Vector3.t) : acc :=
  let '(pi, pj) := pij in
  mkAcc (mk (x (n a) + (y pj - y pi) * (z pj + z pi))
            (y (n a) + (z pj - z pi) * (x pj + x pi))
            (z (n a) + (x pj - x pi) * (y pj + y pi)))
        (cx a + x pi) (cy a + y pi) (cz a + z pi).

Definition run (points : list Vector3.t) : acc :=
  fold_left step (loop_pairs points) init.

Record plane : Type := mkPlane { normal : Vector3.t; origin : Vector3.t }.
End Newell.

(** The fitter in exact arithmetic ([Floating.newellPlane] is the fitter
    over an arbitrary arithmetic, of which this is an instance).  For an
    empty list the centroid is [0 / 0]; the callers pass at least three
    points, and nothing below depends on that value. *)
Definition newellPlane (points : list Vector3.t) : Newell.plane :=
  let a := Newell.run points in
  let len := INR (List.length points) in
  let origin := Vector3.mk (Newell.cx a / len) (Newell.cy a / len) (Newell.cz a / len) in
  Newell.mkPlane (Vector3.normalize (Newell.n a)) origin.

(** ** Local frame builder: [buildBasis] *)

Module Basis.
Record t : Type := mk {
  u : Vector3.t; v : Vector3.t; n : Vector3.t; origin : Vector3.t;
  toWorld : Matrix4.t; toLocal : Matrix4.t }.
End Basis.

Definition buildBasis (normal origin : Vector3.t) : Basis.t :=
  let n := Vector3.normalize normal in
  let t := if JS.lt (Rabs (Vector3.y n)) (9 / 10)
           then Vector3.mk 0 1 0 else Vector3.mk 1 0 0 in
  let u := Vector3.normalize (Vector3.crossVectors n t) in
  let v := Vector3.normalize (Vector3.crossVectors n u) in
  let toWorld := Matrix4.setPosition (Matrix4.makeBasis u v n) origin in
  let toLocal := Matrix4.invert toWorld in
  Basis.mk u v n origin toWorld toLocal.

(** ** Point-in-region classifier *)

Section Classifier.
Local Open Scope R_scope.
Import Vector2.

(** One edge of the ray-crossing test, on finite points; [&&] evaluates
    its right operand only when the left one holds. *)
Definition crossing (p a b : Vector2.t) : bool :=
  if JS.bool_neq (JS.gt (y a) (y p)) (JS.gt (y b) (y p))
  then JS.lt (x p) ((x b - x a) * (y p - y a) / (y b - y a) + x a)
  else false.

(** With a non-finite query point both comparisons of the guard have the
    same outcome; with a non-finite end of the edge the crossing abscissa
    is [NaN] and [p.x < NaN] is false. *)
Definition crossingAt (p a b : option Vector2.t) : bool :=
  match p, a, b with
  | Some p, Some a, Some b => crossing p a b
  | _, _, _ => false
  end.

Definition pointInPolygon2D (p : option Vector2.t) (poly : list (option Vector2.t))
  : bool :=
  fold_left (fun inside '(a, b) => if crossingAt p a b then negb inside else inside)
            (loop_pairs poly) false.

Definition pointToSegmentDistance2D (p a b : Vector2.t) : R :=
  let abx := x b - x a in let aby := y b - y a in
  let apx := x p - x a in let apy := y p - y a in
  let abLen2 := JS.or_default (abx * abx + aby * aby) (1 / 100000000) in
  let t := (apx * abx + apy * aby) / abLen2 in
  let t := Rmax 0 (Rmin 1 t) in
  let cx := x a + t * abx in let cy := y a + t * aby in
  let dx := x p - cx in let dy := y p - cy in
  JS.hypot dx dy.

(** With a non-finite operand the distance is [NaN] or [Infinity]:
    [None]. *)
Definition segmentDistanceAt (p a b : option Vector2.t) : option R :=
  match p, a, b with
  | Some p, Some a, Some b => Some (pointToSegmentDistance2D p a b)
  | _, _, _ => None
  end.

(** The running minimum starts at [Infinity], written [None]: every
    real distance is below it, and [d < min] is false for a [d] that is
    not finite. *)
Definition min_step (p : option Vector2.t) (min : option R)
    (ij : option Vector2.t * option Vector2.t) : option R :=
  let '(pi, pj) := ij in
  match segmentDistanceAt p pj pi with
  | None => min
  | Some d =>
    match min with
    | None => Some d
    | Some m => if JS.lt d m then Some d else Some m
    end
  end.

Definition distanceToPolygon2D (p : option Vector2.t) (poly : list (option Vector2.t))
  : option R :=
  fold_left (min_step p) (loop_pairs poly) None.

(** [edgeDist <= edgeBuffer]; [Infinity] is above every real buffer *)
Definition within (edgeDist : option R) (edgeBuffer : R) : bool :=
  match edgeDist with
  | None => false
  | Some d => JS.le d edgeBuffer
  end.
End Classifier.

(** ** Annotation documents ([types.ts]) *)

Abbreviation Point3 := (R * R * R)%type.

(** [spline] is optional here because the code tests [!t.spline]. *)
Record ToothCenter : Type := mkToothCenter {
  prep : Z;
  num : R;
  center : Point3;
  spline : option (list Point3) }.

(** A document as the readers see it: the entries of [centers] in the
    order [Object.entries] lists them; [centers] may be absent
    ([json.centers || {}]). *)
Record MeshJSON : Type := mkMeshJSON {
  is_lower : bool;
  centers : option (list (string * ToothCenter)) }.

(** ** Pickable boundary region: [ToothPicker] *)

Record UserData : Type := mkUserData {
  ud_toothNum : R;
  toothId : option string }.

(** The inherited [name] label is left out: it is never read and formats
    a number as text. *)
Record ToothPicker : Type := mkToothPicker {
  toothNum : R;
  plane : Plane.t;
  poly2 : list (option Vector2.t);
  toWorld : Matrix4.t;
  toLocal : Matrix4.t;
  edgeBuffer : R;
  userData : UserData }.

(** [new THREE.Vector2(lp.x, lp.y)] for [lp = p.clone().applyMatrix4(toLocal)] *)
Definition project2 (toLocal : Matrix4.t) (p : Vector3.t) : option Vector2.t :=
  match applyMatrix4 p toLocal with
  | Some lp => Some (Vector2.mk (Vector3.x lp) (Vector3.y lp))
  | None => None
  end.

(** [new ToothPicker(toothNum, polyWorld3, edgeBuffer)] *)
Definition new_ToothPicker (toothNum : R) (polyWorld3 : list Vector3.t)
    (edgeBuffer : R) : ToothPicker :=
  let np := newellPlane polyWorld3 in
  let b := buildBasis (Newell.normal np) (Newell.origin np) in
  mkToothPicker toothNum
    (Plane.setFromNormalAndCoplanarPoint (Newell.normal np) (Newell.origin np))
    (List.map (project2 (Basis.toLocal b)) polyWorld3)
    (Basis.toWorld b) (Basis.toLocal b) edgeBuffer
    (mkUserData toothNum None).

(** [face] is always [null] and is left out. *)
Record Intersection : Type := mkIntersection {
  object : ToothPicker;
  distance : R;
  point : Vector3.t;
  faceIndex : Z;
  uv : Vector2.t }.

(** [raycast(raycaster, intersects)]: the result is the [intersects]
    array after the call. *)
Definition raycast (this : ToothPicker) (raycaster : Raycaster.t)
    (intersects : list Intersection) : list Intersection :=
  match Ray.intersectPlane (Raycaster.ray raycaster) (plane this) with
  | None => intersects
  | Some hit =>
    let dist := Vector3.distanceTo (Ray.origin (Raycaster.ray raycaster)) hit in
    if JS.lt dist (Raycaster.near raycaster) || JS.gt dist (Raycaster.far raycaster)
    then intersects
    else
      let p2 := project2 (toLocal this) hit in
      let inside := pointInPolygon2D p2 (poly2 this) in
      let edgeDist := distanceToPolygon2D p2 (poly2 this) in
      if negb (inside || within edgeDist (edgeBuffer this)) then intersects
      else intersects ++ [mkIntersection this dist hit 0%Z (Vector2.mk 0 0)]
  end.

(** ** Picker registry: [buildToothPickersById] *)

Definition toVector3 (transformPoint : option (Point3 -> Point3)) (pt : Point3)
  : Vector3.t :=
  let '(a, b, c) := match transformPoint with Some f => f pt | None => pt end in
  Vector3.mk a b c.

Definition setToothId (picker : ToothPicker) (id : string) (n : R) : ToothPicker :=
  mkToothPicker (toothNum picker) (plane picker) (poly2 picker)
    (toWorld picker) (toLocal picker) (edgeBuffer picker)
    (mkUserData n (Some id)).

(** One iteration of the [for (const [id, t] of entries)] loop *)
Definition pickerById_step (transformPoint : option (Point3 -> Point3))
    (edgeBuffer : R) (pickers : list ToothPicker) (e : string * ToothCenter)
  : list ToothPicker :=
  let '(id, t) := e in
  if negb (prep t =? 1)%Z then pickers else
  match spline t with
  | None => pickers
  | Some s =>
    if (List.length s <? 3)%nat then pickers else
    let pts3 := List.map (toVector3 transformPoint) s in
    let picker := new_ToothPicker (num t) pts3 edgeBuffer in
    pickers ++ [setToothId picker id (num t)]
  end.

Definition buildToothPickersById (json : MeshJSON)
    (transformPoint : option (Point3 -> Point3)) (edgeBuffer : R)
  : list ToothPicker :=
  let entries := match centers json with Some c => c | None => [] end in
  fold_left (pickerById_step transformPoint edgeBuffer) entries [].

(** ** Sleeve geometry builder: [HollowSleeveOnSpline] *)

Module Sleeve.
Local Open Scope R_scope.

(** [Math.atan2(y, x)] *)
Definition atan2 (y x : R) : R :=
  if Rlt_dec 0 x then atan (y / x)
  else if Rlt_dec x 0 then
    (if Rle_dec 0 y then atan (y / x) + PI else atan (y / x) - PI)
  else if Rlt_dec 0 y then PI / 2
  else if Rlt_dec y 0 then - (PI / 2)
  else 0.

(** [Array.prototype.sort] with a numeric comparator: a stable sort;
    [x] moves past the elements that compare strictly below it. *)
Fixpoint insert_by {A : Type} (cmp : A -> A -> R) (x : A) (l : list A) : list A :=
  match l with
  | [] => [x]
  | y :: r => if JS.lt (cmp y x) 0 then y :: insert_by cmp x r else x :: y :: r
  end.

Definition sort_by {A : Type} (cmp : A -> A -> R) (l : list A) : list A :=
  fold_right (insert_by cmp) [] l.

(** The argument of [THREE.Shape] with its hole, and the extrusion;
    the shape is [None] when its points are not finite. *)
Record Shape : Type := mkShape { outline : list Vector2.t; holes : list (list Vector2.t) }.
Record ExtrudeGeometry : Type := mkExtrude { shape : option Shape; depth : R }.

(** The points of a list when all of them are finite *)
Fixpoint allFinite {A : Type} (l : list (option A)) : option (list A) :=
  match l with
  | [] => Some []
  | None :: _ => None
  | Some a :: r =>
    match allFinite r with
    | Some r' => Some (a :: r')
    | None => None
    end
  end.

Definition centroid2 (pts2 : list Vector2.t) : Vector2.t :=
  let n := INR (List.length pts2) in
  Vector2.mk (fold_left (fun s p => s + Vector2.x p) pts2 0 / n)
             (fold_left (fun s p => s + Vector2.y p) pts2 0 / n).

(** order outer loop *)
Definition outerLoop (c2 : Vector2.t) (pts2 : list Vector2.t) : list Vector2.t :=
  List.map fst
    (sort_by (fun A B => snd A - snd B)
       (List.map (fun p => (p, atan2 (Vector2.y p - Vector2.y c2)
                                    (Vector2.x p - Vector2.x c2))) pts2)).

(** inner loop (approx inward offset), one point *)
Definition innerPoint (c2 : Vector2.t) (wall : R) (p : Vector2.t) : Vector2.t :=
  let dir := Vector2.subVectors p c2 in
  let len := JS.or_default (Vector2.length dir) (1 / 100000000) in
  Vector2.add c2 (Vector2.multiplyScalar dir (Rmax 0 (1 - wall / len))).

Record loops : Type := mkLoops {
  c2 : Vector2.t; outer : list Vector2.t; inner : list Vector2.t }.

(** The planar part of the memo, on finite projected points *)
Definition planarLoops (wall : R) (pts2 : list Vector2.t) : loops :=
  let c2 := centroid2 pts2 in
  let outer := outerLoop c2 pts2 in
  let inner := List.map (innerPoint c2 wall) outer in
  mkLoops c2 outer inner.

(** The body of the memo past the length test: the placement matrix and
    the loops.  When a projected point is not finite, the centroid is
    [NaN] and with it every point derived from it: no loops. *)
Definition buildLoops (pts3 : list Vector3.t) (wall : R) : option loops * Matrix4.t :=
  let a := Newell.run pts3 in
  let n := Vector3.normalize (Newell.n a) in
  let len := INR (List.length pts3) in
  let centroid := Vector3.mk (Newell.cx a / len) (Newell.cy a / len) (Newell.cz a / len) in
  let t := if JS.lt (Rabs (Vector3.y n)) (9 / 10)
           then Vector3.mk 0 1 0 else Vector3.mk 1 0 0 in
  let u := Vector3.normalize (Vector3.crossVectors n t) in
  let v := Vector3.normalize (Vector3.crossVectors n u) in
  let toWorld := Matrix4.setPosition (Matrix4.makeBasis u v n) centroid in
  let toLocal := Matrix4.invert toWorld in
  let pts2 := List.map (project2 toLocal) pts3 in
  (match allFinite pts2 with
   | Some pts2 => Some (planarLoops wall pts2)
   | None => None
   end, toWorld).

(** The [useMemo] callback: [{ geom, matrix }] *)
Definition memo (spline : list Point3) (wall height : R)
  : option ExtrudeGeometry * Matrix4.t :=
  let pts3 := List.map (fun '(x, y, z) => Vector3.mk x y z) spline in
  if (List.length pts3 <? 3)%nat then (None, Matrix4.identity) else
  let '(l, toWorld) := buildLoops pts3 wall in
  let shape := match l with
               | Some l => Some (mkShape (outer l) [List.rev (inner l)])
               | None => None
               end in
  (Some (mkExtrude shape height), toWorld).

(** What the component renders: nothing, or the mesh element *)
Record MeshElement : Type := mkMeshElement {
  geometry : ExtrudeGeometry;
  elementMatrix : Matrix4.t;
  renderOrder : Z;
  materialOpacity : R;
  emissiveIntensity : R }.

Definition HollowSleeveOnSpline (spline : list Point3) (wall height opacity : R)
    (hovered : bool) : option MeshElement :=
  let '(geom, matrix) := memo spline wall height in
  match geom with
  | None => None
  | Some g =>
    Some (mkMeshElement g matrix 998%Z
            (if hovered then Rmin 1 (opacity + 15 / 100) else opacity)
            (if hovered then 1 / 2 else 0))
  end.
End Sleeve.

(** ** Documents as objects: the viewer page's editable copies

    JavaScript objects have identity.  A document object refers to its
    [centers] table, and the table refers to the tooth records, by
    address; spreading ([{...o}]) allocates a new object with the same
    fields, hence the same references. *)

Module Heap.
Abbreviation addr := positive.

Inductive obj : Type :=
| Doc (is_lower : bool) (centers : option addr)
| Table (entries : list (string * addr))
| Tooth (t : ToothCenter).

Definition alloc (h : gmap addr obj) (o : obj) : addr * gmap addr obj :=
  let a := fresh (dom h) in (a, <[a := o]> h).

(** [table[id]] *)
Fixpoint lookup_id (id : string) (entries : list (string * addr)) : option addr :=
  match entries with
  | [] => None
  | (k, a) :: r => if String.eqb k id then Some a else lookup_id id r
  end.

(** [t.num = newNum] *)
Definition setNum (newNum : R) (o : obj) : obj :=
  match o with
  | Tooth t => Tooth (mkToothCenter (prep t) newNum (center t) (spline t))
  | _ => o
  end.

Definition readTooth (h : gmap addr obj) (a : addr) : option ToothCenter :=
  match h !! a with
  | Some (Tooth t) => Some t
  | _ => None
  end.

Fixpoint readEntries (h : gmap addr obj) (entries : list (string * addr))
  : list (string * ToothCenter) :=
  match entries with
  | [] => []
  | (k, a) :: r =>
    match readTooth h a with
    | Some t => (k, t) :: readEntries h r
    | None => readEntries h r
    end
  end.

(** The document a reader sees behind a reference *)
Definition readDoc (h : gmap addr obj) (d : addr) : option MeshJSON :=
  match h !! d with
  | Some (Doc lower None) => Some (mkMeshJSON lower None)
  | Some (Doc lower (Some tb)) =>
    match h !! tb with
    | Some (Table entries) => Some (mkMeshJSON lower (Some (readEntries h entries)))
    | _ => None
    end
  | _ => None
  end.

(** The record of tooth [id] in the document at [d]: its address and
    contents *)
Definition toothOf (h : gmap addr obj) (d : addr) (id : string)
  : option (addr * ToothCenter) :=
  match h !! d with
  | Some (Doc _ (Some tb)) =>
    match h !! tb with
    | Some (Table entries) =>
      match lookup_id id entries with
      | Some a => match readTooth h a with Some t => Some (a, t) | None => None end
      | None => None
      end
    | _ => None
    end
  | _ => None
  end.
End Heap.

Module Viewer.
Import Heap.

(** The state updater of [changeNumA] and [changeNumB], applied to the
    current value [prev] of the state variable *)
Definition changeNumUpdater (id : string) (newNum : R)
    (h : gmap addr obj) (prev : option addr) : gmap addr obj * option addr :=
  match prev with
  | None => (h, prev)
  | Some d =>
    match h !! d with
    | Some (Doc lower (Some tb)) =>
      match h !! tb with
      | Some (Table entries) =>
        let '(tb', h1) := alloc h (Table entries) in
        let '(d', h2) := alloc h1 (Doc lower (Some tb')) in
        let h3 := match lookup_id id entries with
                  | Some a => alter (setNum newNum) a h2
                  | None => h2
                  end in
        (h3, Some d')
      | _ => (h, prev)
      end
    | _ => (h, prev)
    end
  end.

Record Page : Type := mkPage {
  heap : gmap addr obj;
  mesh1Local : option addr;
  mesh2Local : option addr }.

Definition changeNumA (id : string) (newNum : R) (s : Page) : Page :=
  let '(h, m) := changeNumUpdater id newNum (heap s) (mesh1Local s) in
  mkPage h m (mesh2Local s).

Definition changeNumB (id : string) (newNum : R) (s : Page) : Page :=
  let '(h, m) := changeNumUpdater id newNum (heap s) (mesh2Local s) in
  mkPage h (mesh1Local s) m.

(** State of one [ToothAccordion] *)
Record Accordion : Type := mkAccordion {
  drafts : gmap string string;
  errors : gmap string (option string) }.

Definition isDigit (c : ascii) : bool :=
  let n := nat_of_ascii c in (48 <=? n)%nat && (n <=? 57)%nat.

Fixpoint allDigits (s : string) : bool :=
  match s with
  | EmptyString => true
  | String c r => isDigit c && allDigits r
  end.

(** [/^[0-9]+$/.test(val)] *)
Definition digitsOnly (val : string) : bool :=
  match val with
  | EmptyString => false
  | _ => allDigits val
  end.

Definition handleChange (id val : string) (a : Accordion) : Accordion :=
  if String.eqb val "" || digitsOnly val
  then mkAccordion (<[id := val]> (drafts a)) (<[id := None]> (errors a))
  else a.

Definition setError (id msg : string) (a : Accordion) : Accordion :=
  mkAccordion (drafts a) (<[id := Some msg]> (errors a)).

Section Blur.
(** [String.prototype.trim] and [Number(...)] are built in; [Number]
    yields [None] for a result that [Number.isFinite] rejects. *)
Variable trim : string -> string.
Variable Number : string -> option R.
(** the [onChangeNumForId] prop *)
Variable onChangeNumForId : string -> R -> Page -> Page.

Definition handleBlur (id : string) (selected : bool) (currentNum : R)
    (s : Accordion * Page) : Accordion * Page :=
  let '(a, page) := s in
  if negb selected then s else
  let raw := match drafts a !! id with Some r => r | None => "" end in
  if String.eqb (trim raw) "" then (setError id "Required (1–16)" a, page) else
  match Number raw with
  | None => (setError id "Must be 1–16" a, page)
  | Some n =>
    if JS.lt n 1 || JS.gt n 16 then (setError id "Must be 1–16" a, page)
    else if Req_dec_T n currentNum then s
    else (a, onChangeNumForId id n page)
  end.
End Blur.
End Viewer.

(** ** Loop ordering and the unkeyed registry ([sortLoop], [buildToothPickers]) *)

(** [sortLoop(points)]: the points ordered by their angle, in the x-y
    plane, around their centroid *)
Definition sortLoop (points : list Vector3.t) : list Vector3.t :=
  let c := Vector3.multiplyScalar (fold_left Vector3.add points Vector3.zero)
             (1 / INR (List.length points))%R in
  List.map fst
    (Sleeve.sort_by (fun a b => (snd a - snd b)%R)
       (List.map (fun p => (p, Sleeve.atan2 (Vector3.y p - Vector3.y c)%R
                                           (Vector3.x p - Vector3.x c)%R)) points)).

(** One iteration of the [for (const t of list)] loop of
    [buildToothPickers] *)
Definition picker_step (transformPoint : option (Point3 -> Point3)) (edgeBuffer : R)
    (arr : list ToothPicker) (t : ToothCenter) : list ToothPicker :=
  if negb (prep t =? 1)%Z then arr else
  match spline t with
  | None => arr
  | Some s =>
    if (List.length s <? 3)%nat then arr else
    arr ++ [new_ToothPicker (num t) (List.map (toVector3 transformPoint) s) edgeBuffer]
  end.

(** [buildToothPickers]: [Object.values(json.centers)] raises a
    [TypeError] when [centers] is absent; [None] stands for the raise. *)
Definition buildToothPickers (json : MeshJSON)
    (transformPoint : option (Point3 -> Point3)) (edgeBuffer : R)
  : option (list ToothPicker) :=
  match centers json with
  | None => None
  | Some c => Some (fold_left (picker_step transformPoint edgeBuffer) (List.map snd c) [])
  end.

(** [centers[id]] on the entries of a document.  A key that the table
    does not hold reads as [undefined], or as a member of
    [Object.prototype], which has neither [prep] nor [num]: the readers
    below treat both as a missing tooth. *)
Fixpoint center_at (id : string) (c : list (string * ToothCenter)) : option ToothCenter :=
  match c with
  | [] => None
  | (k, t) :: r => if String.eqb k id then Some t else center_at id r
  end.

(** ** Review page: markup of the selected teeth ([ReviewPage.tsx]) *)

Module Review.
Local Open Scope R_scope.

Definition toVec3Array (pts : list Point3) : list Vector3.t :=
  List.map (fun '(x, y, z) => Vector3.mk x y z) pts.

Record NormalAndCentroid : Type := mkNormalAndCentroid {
  normal : Vector3.t; centroid : Vector3.t }.

(** The loop is the loop of [newellPlane], statement for statement;
    like [newellPlane] it is taken in exact arithmetic here, and
    [Floating.newellPlane] is the same loop over other arithmetics. *)
Definition newellNormalAndCentroid (points : list Vector3.t) : NormalAndCentroid :=
  let len := INR (List.length points) in
  let a := Newell.run points in
  mkNormalAndCentroid (Vector3.normalize (Newell.n a))
    (Vector3.mk (Newell.cx a / len) (Newell.cy a / len) (Newell.cz a / len)).

Definition toTriple (p : Vector3.t) : Point3 :=
  (Vector3.x p, Vector3.y p, Vector3.z p).

(** The [useMemo] callback of [SplineLine]: the points of the line *)
Definition splinePoints (spline : list Point3) (lift : R) : list Point3 :=
  let v3 := toVec3Array spline in
  if (List.length v3 <? 2)%nat then List.map toTriple v3 else
  let normal := normal (newellNormalAndCentroid v3) in
  let lifted :=
    List.map (fun p => Vector3.add p (Vector3.multiplyScalar normal lift)) v3 in
  List.map toTriple lifted.

Record LineElement : Type := mkLineElement {
  points : list Point3; lineWidth : R; lineColor : string; lineRenderOrder : Z }.

Definition SplineLine (spline : list Point3) (color : string) (width lift : R)
  : LineElement :=
  mkLineElement (splinePoints spline lift) width color 999%Z.

(** One [<group>] of [MarkupForSelection]: the sleeve, which may render
    nothing, and the lifted line *)
Record MarkupGroup : Type := mkMarkupGroup {
  key : string; sleeve : option Sleeve.MeshElement; line : LineElement }.

(** The filter of [items]: the tooth exists, is flagged and has a loop of
    at least three points *)
Definition keeps (item : string * option ToothCenter) : bool :=
  match snd item with
  | None => false
  | Some t =>
    (prep t =? 1)%Z &&
    match spline t with
    | Some s => (3 <=? List.length s)%nat
    | None => false
    end
  end.

Definition splineOf (t : option ToothCenter) : list Point3 :=
  match t with
  | Some t => match spline t with Some s => s | None => [] end
  | None => []
  end.

(** What [MarkupForSelection] renders: nothing ([None]), or one group per
    kept item.  The key is [`${prefix}:${id}`]. *)
Definition MarkupForSelection (meshJson : option MeshJSON) (selectedIds : list string)
    (prefix : string) (hoveredKey : option string)
    (sleeveColor splineColor : string) (wall height splineWidth : R)
  : option (list MarkupGroup) :=
  match meshJson with
  | None => None
  | Some m =>
    match centers m with
    | None => None
    | Some c =>
      match selectedIds with
      | [] => None
      | _ =>
        let items :=
          List.filter keeps (List.map (fun id => (id, center_at id c)) selectedIds) in
        Some (List.map
                (fun item =>
                   let spline := splineOf (snd item) in
                   let key := (prefix ++ ":" ++ fst item)%string in
                   let isHovered := match hoveredKey with
                                    | Some k => String.eqb k key
                                    | None => false
                                    end in
                   mkMarkupGroup key
                     (Sleeve.HollowSleeveOnSpline spline wall height (7 / 10) isHovered)
                     (SplineLine spline splineColor splineWidth (12 / 100)))
                items)
      end
    end
  end.
End Review.

(** ** Viewer page: tooth list, selection and clicks ([ViewerPage.tsx]) *)

Module ViewerPage.
Local Open Scope R_scope.

Definition entriesOf (mesh : option MeshJSON) : list (string * ToothCenter) :=
  match mesh with
  | None => []
  | Some m => match centers m with Some c => c | None => [] end
  end.

(** [typeof t.num === "number"] holds of every record of the document
    type. *)
Definition activeNumsFromIds (mesh : option MeshJSON) (activeIds : list string)
  : list R :=
  match mesh with
  | None => []
  | Some m =>
    match centers m with
    | None => []
    | Some c =>
      fold_left (fun nums id =>
                   match center_at id c with
                   | Some t => nums ++ [num t]
                   | None => nums
                   end) activeIds []
    end
  end.

(** The comparator of the tooth list:
    [(b[1].prep - a[1].prep) || (a[1].num - b[1].num)] *)
Definition compareTeeth (a b : string * ToothCenter) : R :=
  JS.or_default (IZR (prep (snd b)) - IZR (prep (snd a))) (num (snd a) - num (snd b)).

(** The [teeth] memo of [ToothAccordion] *)
Definition teeth (mesh : option MeshJSON) : list (string * ToothCenter) :=
  Sleeve.sort_by compareTeeth (List.filter (fun _ => true) (entriesOf mesh)).

(** [prev.includes(id)] *)
Definition includes (id : string) (prev : list string) : bool :=
  existsb (String.eqb id) prev.

(** The state updater of [toggleIdA], [toggleIdB] and of the click
    handlers:
    [prev.includes(id) ? prev.filter((x) => x !== id) : [...prev, id]] *)
Definition toggle (id : string) (prev : list string) : list string :=
  if includes id prev
  then List.filter (fun x => negb (String.eqb x id)) prev
  else prev ++ [id].

(** three.js [Raycaster.intersectObjects(objects, false)]: every object
    adds its hits in turn, then the hits are sorted by distance. *)
Definition intersectObjects (rc : Raycaster.t) (objects : list ToothPicker)
  : list Intersection :=
  Sleeve.sort_by (fun a b => distance a - distance b)
    (fold_left (fun intersects o => raycast o rc intersects) objects []).

(** [handleMeshClickA] and [handleMeshClickB], as a function from the
    selection before the click to the selection after it.  [pickers] is
    [None] while the group of pickers is not mounted; [ray], [near] and
    [far] are [e.ray], [e.camera.near] and [e.camera.far]; an identifier
    that is missing or empty is falsy. *)
Definition handleMeshClick (pickers : option (list ToothPicker))
    (ray : Ray.t) (near far : R) (prev : list string) : list string :=
  match pickers with
  | None => prev
  | Some children =>
    let rc := Raycaster.mk ray near far in
    match intersectObjects rc children with
    | [] => prev
    | hit :: _ =>
      match toothId (userData (object hit)) with
      | None => prev
      | Some id => if String.eqb id "" then prev else toggle id prev
      end
    end
  end.

(** The [onClick] of a row's button in [ToothAccordion] and of a marker
    in [Annotations]: only a flagged tooth is toggled. *)
Definition rowClick (id : string) (t : ToothCenter) (prev : list string) : list string :=
  if (prep t =? 1)%Z then toggle id prev else prev.

(** The children of the picker group once the build effect has run for
    the current document: the effect returns early, leaving the group
    empty, while there is no document. *)
Definition pickerChildren (mesh : option MeshJSON) : list ToothPicker :=
  match mesh with
  | None => []
  | Some m => buildToothPickersById m None 1
  end.
End ViewerPage.

(** ** Camera fitting ([FitOnce], [STLObject]) *)

(** three.js [Box3] on finite bounds.  The box of [makeEmpty()], whose
    bounds are infinite, is written [None] where it can occur. *)
Module Box3.
Local Open Scope R_scope.
Record t : Type := mk { min : Vector3.t; max : Vector3.t }.

Definition isEmpty (b : t) : bool :=
  JS.lt (Vector3.x (max b)) (Vector3.x (min b))
  || JS.lt (Vector3.y (max b)) (Vector3.y (min b))
  || JS.lt (Vector3.z (max b)) (Vector3.z (min b)).

Definition union (a b : t) : t :=
  mk (Vector3.mk (Rmin (Vector3.x (min a)) (Vector3.x (min b)))
                 (Rmin (Vector3.y (min a)) (Vector3.y (min b)))
                 (Rmin (Vector3.z (min a)) (Vector3.z (min b))))
     (Vector3.mk (Rmax (Vector3.x (max a)) (Vector3.x (max b)))
                 (Rmax (Vector3.y (max a)) (Vector3.y (max b)))
                 (Rmax (Vector3.z (max a)) (Vector3.z (max b)))).

Definition getSize (b : t) : Vector3.t :=
  if isEmpty b then Vector3.zero else Vector3.sub (max b) (min b).

Definition getCenter (b : t) : Vector3.t :=
  if isEmpty b then Vector3.zero
  else Vector3.multiplyScalar (Vector3.add (min b) (max b)) (1 / 2).
End Box3.

Module Fit.
Local Open Scope R_scope.

(** The fields of the camera that the fitting code writes; [lookedAt] is
    the argument of the last [camera.lookAt]. *)
Record Camera : Type := mkCamera {
  isPerspective : bool;
  fov : R; aspect : R;
  position : Vector3.t;
  near : R; far : R;
  lookedAt : option Vector3.t }.

(** [controlsTarget] is [controls.target], [None] while there are no
    controls; what [controls.update()] does inside the library is not
    modelled. *)
Record State : Type := mkState {
  camera : Camera;
  controlsTarget : option Vector3.t;
  did : bool }.

(** One iteration of the loop over [targets]: [r] is [None] for a
    reference that holds no object, and otherwise the box that
    [setFromObject] computes.  The accumulated [box] is [None] until
    [hasAny] is set. *)
Definition accumulate (box : option Box3.t) (r : option (option Box3.t))
  : option Box3.t :=
  match r with
  | None => box
  | Some None => box
  | Some (Some tmp) =>
    if Box3.isEmpty tmp then box else
    match box with
    | None => Some tmp
    | Some b => Some (Box3.union b tmp)
    end
  end.

(** [Math.max(a, b, c)] *)
Definition max3 (a b c : R) : R := Rmax (Rmax a b) c.

(** The effect of [FitOnce] *)
Definition FitOnce (targets : list (option (option Box3.t))) (margin width height : R)
    (s : State) : State :=
  if did s then s else
  match fold_left accumulate targets None with
  | None => s
  | Some box =>
    let sizeV := Box3.getSize box in
    let center := Box3.getCenter box in
    if isPerspective (camera s) then
      let maxDim := max3 (Vector3.x sizeV) (Vector3.y sizeV) (Vector3.z sizeV) in
      let dist := maxDim * margin / (2 * tan (fov (camera s) * PI / 360)) in
      let dir := Vector3.normalize (Vector3.mk 1 1 1) in
      mkState
        (mkCamera true (fov (camera s)) (width / height)
           (Vector3.add center (Vector3.multiplyScalar dir dist))
           (dist / 100) (dist * 100)
           (match controlsTarget s with
            | Some _ => lookedAt (camera s)
            | None => Some center
            end))
        (match controlsTarget s with Some _ => Some center | None => None end)
        true
    else mkState (camera s) (controlsTarget s) true
  end.

(** The state of one [STLObject]: [didFit] is the address last fitted. *)
Record ObjectState : Type := mkObjectState {
  objCamera : Camera;
  objControls : option Vector3.t;
  didFit : option string }.

(** The effect of [STLObject].  [geometry] is [None] while nothing is
    loaded; the bounding box is [None] when it is [null], [Some None]
    when it is the box of [makeEmpty()]. *)
Definition fitObject (url : string) (geometry : option (option (option Box3.t)))
    (width height : R) (s : ObjectState) : ObjectState :=
  match geometry with
  | None => s
  | Some boundingBox =>
    if match didFit s with Some u => String.eqb u url | None => false end then s else
    match boundingBox with
    | None => s
    | Some box =>
      let sizeVec := match box with Some b => Box3.getSize b | None => Vector3.zero end in
      let center := match box with Some b => Box3.getCenter b | None => Vector3.zero end in
      let cam := objCamera s in
      if isPerspective cam then
        let aspect := width / height in
        let maxDim := max3 (Vector3.x sizeVec) (Vector3.y sizeVec) (Vector3.z sizeVec) in
        let fitHeightDistance := maxDim / (2 * tan (fov cam * PI / 360)) in
        let fitWidthDistance := fitHeightDistance / aspect in
        let distance := Rmax fitHeightDistance fitWidthDistance in
        let dir := Vector3.normalize (Vector3.mk 1 1 1) in
        mkObjectState
          (mkCamera true (fov cam) aspect
             (Vector3.add center (Vector3.multiplyScalar dir (distance * (12 / 10))))
             (distance / 100) (distance * 100)
             (match objControls s with
              | Some _ => lookedAt cam
              | None => Some center
              end))
          (match objControls s with Some _ => Some center | None => None end)
          (Some url)
      else
        mkObjectState
          (mkCamera false (fov cam) (aspect cam)
             (Vector3.mk (Vector3.x center + 1) (Vector3.y center + 1) (Vector3.z center + 1))
             (near cam) (far cam) (Some center))
          (objControls s) (Some url)
    end
  end.
End Fit.

(** ** The plane fitter over an arbitrary arithmetic *)

Module Arith.

(** The operations on numbers that [newellPlane] and
    [Vector3.normalize] use.  [falsy] tells the numbers that [a || d]
    replaces by [d], and [ofNat] converts an array length. *)
Record t (T : Type) : Type := mk {
  zero : T; one : T;
  add : T -> T -> T; sub : T -> T -> T; mul : T -> T -> T; div : T -> T -> T;
  sqrt : T -> T;
  falsy : T -> bool;
  ofNat : nat -> T }.
Arguments zero {T}.
Arguments one {T}.
Arguments add {T}.
Arguments sub {T}.
Arguments mul {T}.
Arguments div {T}.
Arguments sqrt {T}.
Arguments falsy {T}.
Arguments ofNat {T}.

(** Real numbers on which the result of every operation is rounded by
    [rnd].  The literals 0 and 1 and the array lengths are integers,
    which a floating-point format holds exactly. *)
Definition rounded (rnd : R -> R) : t R :=
  mk R 0%R 1%R
     (fun a b => rnd (a + b)%R) (fun a b => rnd (a - b)%R)
     (fun a b => rnd (a * b)%R) (fun a b => rnd (a / b)%R)
     (fun a => rnd (R_sqrt.sqrt a))
     (fun a => if Req_dec_T a 0 then true else false)
     INR.

(** Exact arithmetic: nothing is rounded. *)
Definition exact : t R := rounded (fun a => a).

(** Array lengths in binary64 *)
Fixpoint count (n : nat) : PrimFloat.float :=
  match n with
  | O => PrimFloat.zero
  | S k => PrimFloat.add (count k) PrimFloat.one
  end.

(** IEEE binary64, the arithmetic of JavaScript numbers: the kernel's
    primitive floats.  Zero of either sign and [NaN] are falsy. *)
Definition binary64 : t PrimFloat.float :=
  mk PrimFloat.float PrimFloat.zero PrimFloat.one
     PrimFloat.add PrimFloat.sub PrimFloat.mul PrimFloat.div PrimFloat.sqrt
     (fun a => PrimFloat.eqb a PrimFloat.zero || PrimFloat.is_nan a)
     count.
End Arith.

Module Floating.

Record vec (T : Type) : Type := mkVec { x : T; y : T; z : T }.
Arguments mkVec {T}.
Arguments x {T}.
Arguments y {T}.
Arguments z {T}.

Record acc (T : Type) : Type := mkAcc { n : vec T; cx : T; cy : T; cz : T }.
Arguments mkAcc {T}.
Arguments n {T}.
Arguments cx {T}.
Arguments cy {T}.
Arguments cz {T}.

Record plane (T : Type) : Type := mkPlane { normal : vec T; origin : vec T }.
Arguments mkPlane {T}.
Arguments normal {T}.
Arguments origin {T}.

Section Fitter.
Context {T : Type} (A : Arith.t T).

Local Notation "a + b" := (Arith.add A a b).
Local Notation "a - b" := (Arith.sub A a b).
Local Notation "a * b" := (Arith.mul A a b).
Local Notation "a / b" := (Arith.div A a b).

(** [new THREE.Vector3()] and [let cx = 0, cy = 0, cz = 0] *)
Definition init : acc T :=
  mkAcc (mkVec (Arith.zero A) (Arith.zero A) (Arith.zero A))
        (Arith.zero A) (Arith.zero A) (Arith.zero A).

(** The body of the loop of [newellPlane], for [pi = points[i]] and
    [pj = points[j]] *)
Definition step (a : acc T) (pij : vec T * vec T) : acc T :=
  let '(pi, pj) := pij in
  mkAcc (mkVec (x (n a) + (y pj - y pi) * (z pj + z pi))
               (y (n a) + (z pj - z pi) * (x pj + x pi))
               (z (n a) + (x pj - x pi) * (y pj + y pi)))
        (cx a + x pi) (cy a + y pi) (cz a + z pi).

Definition run (points : list (vec T)) : acc T :=
  fold_left step (loop_pairs points) init.

(** [Vector3.length()]: [Math.sqrt(x * x + y * y + z * z)] *)
Definition length (v : vec T) : T :=
  Arith.sqrt A (x v * x v + y v * y v + z v * z v).

Definition multiplyScalar (v : vec T) (s : T) : vec T :=
  mkVec (x v * s) (y v * s) (z v * s).

(** [normalize()] is [divideScalar(length() || 1)], and
    [divideScalar(s)] is [multiplyScalar(1 / s)]. *)
Definition normalize (v : vec T) : vec T :=
  let len := length v in
  multiplyScalar v (Arith.one A / (if Arith.falsy A len then Arith.one A else len)).

Definition newellPlane (points : list (vec T)) : plane T :=
  let a := run points in
  let len := Arith.ofNat A (List.length points) in
  let origin := mkVec (cx a / len) (cy a / len) (cz a / len) in
  mkPlane (normalize (n a)) origin.
End Fitter.
End Floating.

(** ** Specification-side vocabulary *)

(** An entry the registry keeps: flagged defective, with a loop of at
    least three points. *)
Definition qualifies (t : ToothCenter) : bool :=
  (prep t =? 1)%Z &&
  match spline t with
  | Some s => (3 <=? List.length s)%nat
  | None => false
  end.

Definition entriesOf (json : MeshJSON) : list (string * ToothCenter) :=
  match centers json with Some c => c | None => [] end.

(** The ray-crossing test with a division that fails on a zero divisor:
    [None] records that some division was reached with divisor zero. *)
Definition div_checked (a b : R) : option R :=
  if Req_dec_T b 0 then None else Some (a / b)%R.

Definition crossing_checked (p a b : Vector2.t) : option bool :=
  if JS.bool_neq (JS.gt (Vector2.y a) (Vector2.y p)) (JS.gt (Vector2.y b) (Vector2.y p))
  then match div_checked ((Vector2.x b - Vector2.x a) * (Vector2.y p - Vector2.y a))
                         (Vector2.y b - Vector2.y a) with
       | Some q => Some (JS.lt (Vector2.x p) (q + Vector2.x a))
       | None => None
       end
  else Some false.

(** A divisor that is not finite is not zero. *)
Definition crossingAt_checked (p a b : option Vector2.t) : option bool :=
  match p, a, b with
  | Some p, Some a, Some b => crossing_checked p a b
  | _, _, _ => Some false
  end.

Definition pointInPolygon2D_checked (p : option Vector2.t)
    (poly : list (option Vector2.t)) : option bool :=
  fold_left (fun acc '(a, b) =>
               match acc with
               | None => None
               | Some inside =>
                 match crossingAt_checked p a b with
                 | Some c => Some (if c then negb inside else inside)
                 | None => None
                 end
               end)
            (loop_pairs poly) (Some false).

(** ** Specification-side geometry *)

(** The ray crosses the plane at parameter [d]: it is not parallel to
    the plane, and the point [origin + d * direction], which is not
    behind the origin, is a point of the plane. *)
Definition crosses_plane (r : Ray.t) (pl : Plane.t) (d : R) : Prop :=
  Vector3.dot (Plane.normal pl) (Ray.direction r) <> 0%R /\ (0 <= d)%R /\
  Plane.distanceToPoint pl (Ray.at_ r d) = 0%R.

(** The ray lies in the plane: it is parallel to the plane and starts
    on it. *)
Definition lies_in_plane (r : Ray.t) (pl : Plane.t) : Prop :=
  Vector3.dot (Plane.normal pl) (Ray.direction r) = 0%R /\
  Plane.distanceToPoint pl (Ray.origin r) = 0%R.

(** The ray is parallel to the plane and off it. *)
Definition parallel_off_plane (r : Ray.t) (pl : Plane.t) : Prop :=
  Vector3.dot (Plane.normal pl) (Ray.direction r) = 0%R /\
  Plane.distanceToPoint pl (Ray.origin r) <> 0%R.

(** The ray meets the plane at parameter [d]: it crosses the plane
    there, or it lies in the plane, in which case it is taken to meet
    the plane at its own origin. *)
Definition meets (r : Ray.t) (pl : Plane.t) (d : R) : Prop :=
  crosses_plane r pl d \/ (lies_in_plane r pl /\ d = 0%R).

(** [q] lies on the segment from [a] to [b]. *)
Definition on_segment (a b q : Vector2.t) : Prop :=
  exists s : R, (0 <= s <= 1)%R /\
    q = Vector2.add a (Vector2.multiplyScalar (Vector2.subVectors b a) s).

Definition dist2 (p q : Vector2.t) : R :=
  Vector2.length (Vector2.subVectors p q).

(** [p] is within [buf] of some point of the closed polygon's boundary,
    which consists of the edges between finite vertices. *)
Definition near_boundary (p : Vector2.t) (poly : list (option Vector2.t)) (buf : R)
  : Prop :=
  exists pi pj q, In (Some pi, Some pj) (loop_pairs poly) /\ on_segment pj pi q /\
    (dist2 p q <= buf)%R.

(** Entry in row [i], column [j] of a matrix, and of a product *)
Definition entry (m : Matrix4.t) (i j : nat) : R :=
  match j, i with
  | 0%nat, 0%nat => Matrix4.e0 m | 0%nat, 1%nat => Matrix4.e1 m
  | 0%nat, 2%nat => Matrix4.e2 m | 0%nat, 3%nat => Matrix4.e3 m
  | 1%nat, 0%nat => Matrix4.e4 m | 1%nat, 1%nat => Matrix4.e5 m
  | 1%nat, 2%nat => Matrix4.e6 m | 1%nat, 3%nat => Matrix4.e7 m
  | 2%nat, 0%nat => Matrix4.e8 m | 2%nat, 1%nat => Matrix4.e9 m
  | 2%nat, 2%nat => Matrix4.e10 m | 2%nat, 3%nat => Matrix4.e11 m
  | 3%nat, 0%nat => Matrix4.e12 m | 3%nat, 1%nat => Matrix4.e13 m
  | 3%nat, 2%nat => Matrix4.e14 m | 3%nat, 3%nat => Matrix4.e15 m
  | _, _ => 0%R
  end.

Definition productEntry (a b : Matrix4.t) (i j : nat) : R :=
  (entry a i 0 * entry b 0 j + entry a i 1 * entry b 1 j
   + entry a i 2 * entry b 2 j + entry a i 3 * entry b 3 j)%R.

(** The image of a point under the affine part of a matrix *)
Definition affineImage (m : Matrix4.t) (p : Vector3.t) : Vector3.t :=
  Vector3.mk
    (Matrix4.e0 m * Vector3.x p + Matrix4.e4 m * Vector3.y p
     + Matrix4.e8 m * Vector3.z p + Matrix4.e12 m)%R
    (Matrix4.e1 m * Vector3.x p + Matrix4.e5 m * Vector3.y p
     + Matrix4.e9 m * Vector3.z p + Matrix4.e13 m)%R
    (Matrix4.e2 m * Vector3.x p + Matrix4.e6 m * Vector3.y p
     + Matrix4.e10 m * Vector3.z p + Matrix4.e14 m)%R.

(** A matrix whose last row is [(0, 0, 0, 1)] *)
Definition affine (m : Matrix4.t) : Prop :=
  Matrix4.e3 m = 0%R /\ Matrix4.e7 m = 0%R /\ Matrix4.e11 m = 0%R /\ Matrix4.e15 m = 1%R.

(** The clamped projection parameter of [pointToSegmentDistance2D] *)
Definition clampT (p a b : Vector2.t) : R :=
  let abx := (Vector2.x b - Vector2.x a)%R in let aby := (Vector2.y b - Vector2.y a)%R in
  let apx := (Vector2.x p - Vector2.x a)%R in let apy := (Vector2.y p - Vector2.y a)%R in
  Rmax 0 (Rmin 1 ((apx * abx + apy * aby) /
                  JS.or_default (abx * abx + aby * aby) (1 / 100000000)))%R.

(** The edge between [a] and [b] crosses the half-line that leaves [p]
    in the direction of increasing [x]: one end of the edge is strictly
    above the horizontal line through [p], the other end is on that line
    or below it, and the edge meets the line strictly to the right of
    [p]. *)
Definition crosses_right (p a b : Vector2.t) : Prop :=
  ((Vector2.y p < Vector2.y a /\ Vector2.y b <= Vector2.y p) \/
   (Vector2.y p < Vector2.y b /\ Vector2.y a <= Vector2.y p))%R /\
  exists q, on_segment a b q /\ Vector2.y q = Vector2.y p /\
            (Vector2.x p < Vector2.x q)%R.

(** [crossed p edges k]: exactly [k] of the edges cross the half-line
    from [p]; an edge with an end that is not finite crosses nothing. *)
Inductive crossed (p : Vector2.t)
  : list (option Vector2.t * option Vector2.t) -> nat -> Prop :=
| crossed_nil : crossed p [] 0
| crossed_yes a b r k :
    crosses_right p a b -> crossed p r k -> crossed p ((Some a, Some b) :: r) (S k)
| crossed_no a b r k :
    ~ crosses_right p a b -> crossed p r k -> crossed p ((Some a, Some b) :: r) k
| crossed_open e r k :
    fst e = None \/ snd e = None -> crossed p r k -> crossed p (e :: r) k.

(** The even-odd rule: [p] is inside the closed polygon when the
    half-line from [p] crosses an odd number of its edges. *)
Definition inside_polygon (p : Vector2.t) (poly : list (option Vector2.t)) : Prop :=
  exists k, crossed p (loop_pairs poly) k /\ Nat.Odd k.

(** Twice the signed area of the triangle [a b p]: positive when [p]
    lies to the left of the line from [a] to [b]. *)
Definition orient (a b p : Vector2.t) : R :=
  ((Vector2.x b - Vector2.x a) * (Vector2.y p - Vector2.y a)
   - (Vector2.y b - Vector2.y a) * (Vector2.x p - Vector2.x a))%R.

(** [p] is in the interior of the triangle [a b c]: strictly on the
    same side of its three edges. *)
Definition in_triangle (a b c p : Vector2.t) : Prop :=
  (0 < orient a b p /\ 0 < orient b c p /\ 0 < orient c a p)%R \/
  (orient a b p < 0 /\ orient b c p < 0 /\ orient c a p < 0)%R.

(** [p] is in the exterior of the triangle [a b c]: strictly on the
    outer side of one of its edges. *)
Definition off_triangle (a b c p : Vector2.t) : Prop :=
  (0 < orient a b c /\ (orient a b p < 0 \/ orient b c p < 0 \/ orient c a p < 0))%R \/
  (orient a b c < 0 /\ (0 < orient a b p \/ 0 < orient b c p \/ 0 < orient c a p))%R.

(** A world point is in the region of the picker: its projection into
    the local frame is a finite point, inside the polygon or within the
    buffer of the polygon's boundary. *)
Definition accepted (this : ToothPicker) (hit : Vector3.t) : Prop :=
  exists p2, project2 (toLocal this) hit = Some p2 /\
    (inside_polygon p2 (poly2 this) \/
     near_boundary p2 (poly2 this) (edgeBuffer this)).

(** ** Sums used to state what the Newell loop accumulates *)

Fixpoint Rsum (l : list R) : R :=
  match l with
  | [] => 0%R
  | a :: r => (a + Rsum r)%R
  end.

(** Sum of [f b a] over the consecutive pairs [a, b] of a list *)
Fixpoint chain {A : Type} (f : A -> A -> R) (l : list A) : R :=
  match l with
  | [] => 0%R
  | a :: r =>
    match r with
    | [] => 0%R
    | b :: _ => (f b a + chain f r)%R
    end
  end.

(** The three contributions of the pair [(pi, pj)] to the normal *)
Definition termX (pi pj : Vector3.t) : R :=
  ((Vector3.y pj - Vector3.y pi) * (Vector3.z pj + Vector3.z pi))%R.
Definition termY (pi pj : Vector3.t) : R :=
  ((Vector3.z pj - Vector3.z pi) * (Vector3.x pj + Vector3.x pi))%R.
Definition termZ (pi pj : Vector3.t) : R :=
  ((Vector3.x pj - Vector3.x pi) * (Vector3.y pj + Vector3.y pi))%R.

(** Sum of [f pi pj] over the pairs a loop visits *)
Definition loopSum {A : Type} (f : A -> A -> R) (l : list A) : R :=
  Rsum (List.map (fun ij => f (fst ij) (snd ij)) (loop_pairs l)).

(** Points on one line: [a + s * d] for the parameters [s] of [ss] *)
Definition onLine (a d : Vector3.t) (s : R) : Vector3.t :=
  Vector3.add a (Vector3.multiplyScalar d s).

(** The region the registry builds for an entry it keeps *)
Definition pickerOf (tp : option (Point3 -> Point3)) (eb : R)
    (e : string * ToothCenter) : ToothPicker :=
  let s := match spline (snd e) with Some s => s | None => [] end in
  setToothId (new_ToothPicker (num (snd e)) (List.map (toVector3 tp) s) eb)
             (fst e) (num (snd e)).

(** A loop whose points all lie on one line *)
Definition collinear (s : list Point3) : Prop :=
  exists a d ss, List.map (toVector3 None) s = List.map (onLine a d) ss.

(** ** Sample data *)

Definition collinearLoop : list Point3 := [(0, 0, 0); (1, 0, 0); (2, 0, 0)]%R.

Definition triangleLoop : list Vector3.t :=
  [Vector3.mk 0 0 0; Vector3.mk 1 0 0; Vector3.mk 0 1 0].

Definition collinearDoc : MeshJSON :=
  mkMeshJSON false
    (Some [("11"%string, mkToothCenter 1 11 (1, 0, 0)%R (Some collinearLoop))]).

(** A defective tooth whose loop has only two points *)
Definition twoPointDoc : MeshJSON :=
  mkMeshJSON true
    (Some [("21"%string, mkToothCenter 1 5 (0, 0, 0)%R (Some [(0, 0, 0); (1, 0, 0)]%R))]).

(** A page whose editable copy of mesh A is still the uploaded document:
    the document object at address 1, its table at 2, two tooth records
    at 3 and 4. *)
Definition toothA : ToothCenter :=
  mkToothCenter 1 3 (0, 0, 0)%R (Some [(0, 0, 0); (1, 0, 0); (0, 1, 0)]%R).
Definition toothB : ToothCenter := mkToothCenter 0 4 (1, 0, 0)%R (Some []).

(** [toothA] with display number 9 *)
Definition toothA9 : ToothCenter :=
  mkToothCenter 1 9 (0, 0, 0)%R (Some [(0, 0, 0); (1, 0, 0); (0, 1, 0)]%R).

Definition heap0 : gmap Heap.addr Heap.obj :=
  <[1%positive := Heap.Doc false (Some 2%positive)]>
  (<[2%positive := Heap.Table [("a"%string, 3%positive); ("b"%string, 4%positive)]]>
  (<[3%positive := Heap.Tooth toothA]>
  (<[4%positive := Heap.Tooth toothB]> ∅))).

Definition page0 : Viewer.Page := Viewer.mkPage heap0 (Some 1%positive) None.

(** Stand-ins for the built-ins on the inputs of the examples:
    [trim] for ASCII white space, and [Number] on the drafts that
    [handleChange] lets through, which are digit strings. *)
Definition isSpace (c : ascii) : bool :=
  let n := nat_of_ascii c in (n =? 32)%nat || ((9 <=? n)%nat && (n <=? 13)%nat).

Fixpoint trimStart (s : string) : string :=
  match s with
  | EmptyString => EmptyString
  | String c r => if isSpace c then trimStart r else s
  end.

Fixpoint revOnto (acc s : string) : string :=
  match s with
  | EmptyString => acc
  | String c r => revOnto (String c acc) r
  end.

Definition trimAscii (s : string) : string :=
  revOnto EmptyString (trimStart (revOnto EmptyString (trimStart s))).

Fixpoint digitsValue (acc : Z) (s : string) : Z :=
  match s with
  | EmptyString => acc
  | String c r => digitsValue (10 * acc + (Z.of_nat (nat_of_ascii c) - 48)) r
  end.

Definition NumberOfDigits (s : string) : option R :=
  if Viewer.digitsOnly s then Some (IZR (digitsValue 0 s)) else None.

(** The accordion of mesh A after the user typed [val] for tooth "a" *)
Definition typed (val : string) : Viewer.Accordion :=
  Viewer.handleChange "a" val (Viewer.mkAccordion ∅ ∅).

(** The square of the acceptance scenario and a ray from above through
    the world point [(x, y, 0)] *)
Definition squareLoop : list Vector3.t :=
  [Vector3.mk 0 0 0; Vector3.mk 2 0 0; Vector3.mk 2 2 0; Vector3.mk 0 2 0].

Definition squarePicker : ToothPicker := new_ToothPicker 7 squareLoop (1 / 10).

Definition rayDown (x y : R) : Raycaster.t :=
  Raycaster.mk (Ray.mk (Vector3.mk x y 5) (Vector3.mk 0 0 (-1))) (1 / 10) 100.

(** A ray that lies in the plane of the square: it starts at the
    centre and runs along the x-axis. *)
Definition rayAlong : Raycaster.t :=
  Raycaster.mk (Ray.mk (Vector3.mk 1 1 0) (Vector3.mk 1 0 0)) 0 100.

(** An edge and a query point of the ray-crossing example *)
Definition edgeTop : Vector2.t := Vector2.mk 1 1.
Definition edgeBottom : Vector2.t := Vector2.mk 1 (-1).
Definition originPoint : Vector2.t := Vector2.mk 0 0.

(** ** Vocabulary for the registries, the tooth list and the selection *)

(** A picker of the unkeyed registry and the picker that the keyed
    registry builds from the same entry: the same region, tagged with
    the entry's identifier. *)
Definition tagged (p q : ToothPicker) : Prop :=
  (exists id, q = setToothId p id (toothNum p)) /\
  userData p = mkUserData (toothNum p) None.


(** The order of the tooth list: flagged teeth first, then by display
    number. *)
Definition listedBefore (a b : string * ToothCenter) : Prop :=
  (prep (snd b) < prep (snd a))%Z \/
  (prep (snd a) = prep (snd b) /\ (num (snd a) <= num (snd b))%R).

(** Every selected identifier names a flagged tooth of the document,
    and none is selected twice. *)
Definition selectionOk (mesh : option MeshJSON) (ids : list string) : Prop :=
  List.NoDup ids /\
  forall id, In id ids ->
    exists t, In (id, t) (ViewerPage.entriesOf mesh) /\ prep t = 1%Z.

(** The handlers that change the selection of one mesh, each with the
    data it is called on: the button of a row of the tooth list, a
    marker of the annotation overlay (both over entries of the
    document), a click on the mesh group, whose picker group may or may
    not be mounted, and the effect that clears the selection when the
    mesh is hidden. *)
Inductive selects (mesh : option MeshJSON) (prev : list string) : list string -> Prop :=
| selects_row id t :
    In (id, t) (ViewerPage.teeth mesh) -> selects mesh prev (ViewerPage.rowClick id t prev)
| selects_marker id t :
    In (id, t) (ViewerPage.entriesOf mesh) -> selects mesh prev (ViewerPage.rowClick id t prev)
| selects_mesh (mounted : bool) ray near far :
    selects mesh prev
      (ViewerPage.handleMeshClick
         (if mounted then Some (ViewerPage.pickerChildren mesh) else None)
         ray near far prev)
| selects_hide : selects mesh prev [].

(** Two pickers for the same region: they differ at most in the display
    number they carry. *)
Definition sameRegion (p q : ToothPicker) : Prop :=
  plane p = plane q /\ poly2 p = poly2 q /\ toLocal p = toLocal q /\
  toWorld p = toWorld q /\ edgeBuffer p = edgeBuffer q /\
  toothId (userData p) = toothId (userData q).

(** Entry [e'] is entry [e], possibly with the display number [n]. *)
Definition renumbered (n : R) (e e' : string * ToothCenter) : Prop :=
  fst e' = fst e /\ prep (snd e') = prep (snd e) /\ center (snd e') = center (snd e) /\
  spline (snd e') = spline (snd e) /\ (num (snd e') = num (snd e) \/ num (snd e') = n).

(** Box [a] encloses box [b]. *)
Definition encloses (a b : Box3.t) : Prop :=
  (Vector3.x (Box3.min a) <= Vector3.x (Box3.min b) /\
   Vector3.y (Box3.min a) <= Vector3.y (Box3.min b) /\
   Vector3.z (Box3.min a) <= Vector3.z (Box3.min b) /\
   Vector3.x (Box3.max b) <= Vector3.x (Box3.max a) /\
   Vector3.y (Box3.max b) <= Vector3.y (Box3.max a) /\
   Vector3.z (Box3.max b) <= Vector3.z (Box3.max a))%R.

(** The boxes among the targets of [FitOnce] that count: those of
    mounted objects with non-empty finite bounds *)
Definition counted (r : option (option Box3.t)) : option Box3.t :=
  match r with
  | Some (Some b) => if Box3.isEmpty b then None else Some b
  | _ => None
  end.

(** ** Sample data for the camera *)

(** A cube of side 2 at the origin, and a page that has not fitted its
    perspective camera yet *)
Definition cubeBox : Box3.t := Box3.mk (Vector3.mk 0 0 0) (Vector3.mk 2 2 2).

Definition camera0 : Fit.Camera :=
  Fit.mkCamera true 50 1 (Vector3.mk 3 3 5) (1 / 10) 1000 None.

Definition fit0 : Fit.State := Fit.mkState camera0 None false.

Definition object0 : Fit.ObjectState := Fit.mkObjectState camera0 None None.

(** The document behind [d] is well formed: it has a table, and every
    entry of the table refers to a tooth record. *)
Definition wellFormedDoc (h : gmap Heap.addr Heap.obj) (d : Heap.addr) : Prop :=
  exists lower tb entries,
    h !! d = Some (Heap.Doc lower (Some tb)) /\ h !! tb = Some (Heap.Table entries) /\
    Forall (fun e => exists t, Heap.readTooth h (snd e) = Some t) entries.

(** ** Vocabulary for the fitter in rounded arithmetic *)

(** A point of the exact model as a vector of real coordinates *)
Definition toVec (p : Vector3.t) : Floating.vec R :=
  Floating.mkVec (Vector3.x p) (Vector3.y p) (Vector3.z p).

Definition ofVec (v : Floating.vec R) : Vector3.t :=
  Vector3.mk (Floating.x v) (Floating.y v) (Floating.z v).

(** The share of a value that [k] roundings of relative error at most
    [u] can add to it or take from it *)
Definition drift (u : R) (k : nat) : R := ((1 + u) ^ k - 1)%R.

(** The magnitudes of the three contributions of a pair to the normal *)
Definition magX (pi pj : Vector3.t) : R := Rabs (termX pi pj).
Definition magY (pi pj : Vector3.t) : R := Rabs (termY pi pj).
Definition magZ (pi pj : Vector3.t) : R := Rabs (termZ pi pj).

(** The mean magnitude of a coordinate over a loop *)
Definition meanAbs (f : Vector3.t -> R) (l : list Vector3.t) : R :=
  (Rsum (List.map (fun p => Rabs (f p)) l) / INR (List.length l))%R.

(** A sum taken from left to right with every addition rounded *)
Definition fsum (rnd : R -> R) (ts : list R) (s0 : R) : R :=
  fold_left (fun s t => rnd (s + t)%R) ts s0.

(** The three contributions of the pair [(pi, pj)] to the normal, as
    the rounded arithmetic computes them *)
Definition ftermX (rnd : R -> R) (pi pj : Vector3.t) : R :=
  rnd (rnd (Vector3.y pj - Vector3.y pi) * rnd (Vector3.z pj + Vector3.z pi))%R.
Definition ftermY (rnd : R -> R) (pi pj : Vector3.t) : R :=
  rnd (rnd (Vector3.z pj - Vector3.z pi) * rnd (Vector3.x pj + Vector3.x pi))%R.
Definition ftermZ (rnd : R -> R) (pi pj : Vector3.t) : R :=
  rnd (rnd (Vector3.x pj - Vector3.x pi) * rnd (Vector3.y pj + Vector3.y pi))%R.

(** [a'] is within the share [drift u k] of the magnitude [B] from [a]. *)
Definition within_drift (u : R) (k : nat) (a' a B : R) : Prop :=
  (Rabs (a' - a) <= drift u k * B)%R.

(** The model of floating-point arithmetic without overflow and
    underflow: rounding changes a number by at most the fraction [u] of
    its magnitude.  For binary64 with rounding to nearest, [u] is
    [2 ^ -53]. *)
Definition rounds (rnd : R -> R) (u : R) : Prop :=
  (0 <= u < 1)%R /\ forall a : R, (Rabs (rnd a - a) <= u * Rabs a)%R.

(** ** Sample loops in binary64 *)

Module Samples64.
Import PrimFloat.
#[local] Set Warnings "-inexact-float".

(** Three points of the x-axis *)
Definition onAxis : list (Floating.vec float) :=
  [Floating.mkVec 0 0 0; Floating.mkVec 1 0 0; Floating.mkVec 2 0 0]%float.

(** Three points close to the line through the origin with direction
    [(1, 2, 3)]: the decimal literals are read as the nearest binary64
    numbers, as a JSON parser reads them. *)
Definition nearLine : list (Floating.vec float) :=
  [Floating.mkVec 0.1 0.2 0.3; Floating.mkVec 0.2 0.4 0.6; Floating.mkVec 0.3 0.6 0.9]%float.

(** Three points of one line: the second and the third are the first
    doubled and quadrupled, which binary64 does exactly. *)
Definition doubled : list (Floating.vec float) :=
  [Floating.mkVec 0.1 0.2 0.3; Floating.mkVec 0.2 0.4 0.6; Floating.mkVec 0.4 0.8 1.2]%float.
End Samples64.
(** * Comparisons and the ray-crossing test *)

Section Order.
Local Open Scope R_scope.

Lemma lt_true a b : JS.lt a b = true <-> a < b.
Proof. unfold JS.lt. destruct (Rlt_dec a b); split; intros; try lra; congruence. Qed.

Lemma lt_false a b : JS.lt a b = false <-> b <= a.
Proof. unfold JS.lt. destruct (Rlt_dec a b); split; intros; try lra; congruence. Qed.

Lemma le_true a b : JS.le a b = true <-> a <= b.
Proof. unfold JS.le. destruct (Rle_dec a b); split; intros; try lra; congruence. Qed.

Lemma gt_true a b : JS.gt a b = true <-> b < a.
Proof. apply lt_true. Qed.

Lemma gt_false a b : JS.gt a b = false <-> a <= b.
Proof. apply lt_false. Qed.

Lemma or_default_zero d : JS.or_default 0 d = d.
Proof. unfold JS.or_default. destruct (Req_dec_T 0 0); [reflexivity|contradiction]. Qed.

Lemma or_default_nonzero a d : a <> 0 -> JS.or_default a d = a.
Proof. intros H. unfold JS.or_default. destruct (Req_dec_T a 0); [contradiction|reflexivity]. Qed.

(** The guard of the crossing test separates the ordinates. *)
Lemma straddle_divisor p a b :
  JS.bool_neq (JS.gt (Vector2.y a) (Vector2.y p)) (JS.gt (Vector2.y b) (Vector2.y p)) = true ->
  Vector2.y b - Vector2.y a <> 0.
Proof.
  unfold JS.bool_neq.
  destruct (JS.gt (Vector2.y a) (Vector2.y p)) eqn:Ha;
  destruct (JS.gt (Vector2.y b) (Vector2.y p)) eqn:Hb; cbn; try discriminate; intros _.
  - apply gt_true in Ha. apply gt_false in Hb. lra.
  - apply gt_false in Ha. apply gt_true in Hb. lra.
Qed.

Lemma crossing_checked_total p a b :
  crossing_checked p a b = Some (crossing p a b).
Proof.
  unfold crossing_checked, crossing.
  destruct (JS.bool_neq _ _) eqn:Hg; [|reflexivity].
  apply straddle_divisor in Hg. unfold div_checked.
  destruct (Req_dec_T _ 0) as [E|_]; [contradiction|reflexivity].
Qed.

Lemma crossingAt_checked_total p a b :
  crossingAt_checked p a b = Some (crossingAt p a b).
Proof.
  unfold crossingAt_checked, crossingAt.
  destruct p as [p|], a as [a|], b as [b|]; try reflexivity.
  apply crossing_checked_total.
Qed.

(** C10.  In the ray-crossing test the division by [b.y - a.y] is reached
    only behind the guard [(a.y > p.y) !== (b.y > p.y)], under which the
    divisor is not zero: the evaluation that fails on a zero divisor
    never fails and returns what the test returns, for every polygon. *)
Theorem pointInPolygon2D_division_guarded :
  (forall p a b,
     JS.bool_neq (JS.gt (Vector2.y a) (Vector2.y p)) (JS.gt (Vector2.y b) (Vector2.y p)) = true ->
     Vector2.y b - Vector2.y a <> 0) /\
  (forall p poly, pointInPolygon2D_checked p poly = Some (pointInPolygon2D p poly)).
Proof.
  split; [exact straddle_divisor|].
  intros p poly. unfold pointInPolygon2D_checked, pointInPolygon2D.
  generalize (loop_pairs poly) false. intros l.
  induction l as [|[a b] r IH]; intros inside; cbn [fold_left]; [reflexivity|].
  rewrite crossingAt_checked_total. apply IH.
Qed.
End Order.

Section Crossing.
Local Open Scope R_scope.
Import Vector2.

Lemma ratio_in_unit n d :
  (0 < d /\ 0 <= n <= d) \/ (d < 0 /\ d <= n <= 0) -> 0 <= n / d <= 1.
Proof.
  assert (Hpos : forall n d, 0 < d -> 0 <= n <= d -> 0 <= n / d <= 1).
  { intros n' d' Hd Hn. split.
    - apply Rmult_le_pos; [lra|]. left. now apply Rinv_0_lt_compat.
    - apply (Rmult_le_reg_r d'); [exact Hd|].
      replace (n' / d' * d') with n' by (field; lra). lra. }
  intros [[Hd Hn]|[Hd Hn]]; [now apply Hpos|].
  replace (n / d) with ((- n) / (- d)) by (field; lra). apply Hpos; lra.
Qed.

(** What one step of the test decides: the edge has one end strictly
    above the horizontal line through [p] and the other end on or below
    it, and the edge meets that line strictly to the right of [p]. *)
Lemma crossing_geometric p a b :
  crossing p a b = true <->
  ((y p < y a /\ y b <= y p) \/ (y p < y b /\ y a <= y p)) /\
  exists q, on_segment a b q /\ y q = y p /\ x p < x q.
Proof.
  unfold crossing, JS.bool_neq.
  destruct (JS.gt (y a) (y p)) eqn:Ha; destruct (JS.gt (y b) (y p)) eqn:Hb; cbn [xorb];
    try apply gt_true in Ha; try apply gt_false in Ha;
    try apply gt_true in Hb; try apply gt_false in Hb.
  - split; [discriminate|]. intros [[[_ H]|[_ H]] _]; lra.
  - assert (Hne : y b - y a <> 0) by lra.
    rewrite lt_true. split.
    + intros Hx. split; [left; lra|].
      exists (add a (multiplyScalar (subVectors b a) ((y p - y a) / (y b - y a)))).
      split; [exists ((y p - y a) / (y b - y a)); split; [|reflexivity]|].
      * apply ratio_in_unit. lra.
      * unfold add, multiplyScalar, subVectors; cbn. split; [field; exact Hne|].
        replace (x a + (x b - x a) * ((y p - y a) / (y b - y a)))
          with ((x b - x a) * (y p - y a) / (y b - y a) + x a) by (field; exact Hne).
        exact Hx.
    + intros [_ (q & (s & _ & ->) & Hy & Hx)].
      unfold add, multiplyScalar, subVectors in Hy, Hx; cbn in Hy, Hx.
      assert (Es : s = (y p - y a) / (y b - y a)).
      { apply (Rmult_eq_reg_r (y b - y a)); [|exact Hne].
        replace ((y p - y a) / (y b - y a) * (y b - y a)) with (y p - y a)
          by (field; exact Hne). lra. }
      rewrite Es in Hx.
      replace ((x b - x a) * (y p - y a) / (y b - y a) + x a)
        with (x a + (x b - x a) * ((y p - y a) / (y b - y a))) by (field; exact Hne).
      exact Hx.
  - assert (Hne : y b - y a <> 0) by lra.
    rewrite lt_true. split.
    + intros Hx. split; [right; lra|].
      exists (add a (multiplyScalar (subVectors b a) ((y p - y a) / (y b - y a)))).
      split; [exists ((y p - y a) / (y b - y a)); split; [|reflexivity]|].
      * apply ratio_in_unit. lra.
      * unfold add, multiplyScalar, subVectors; cbn. split; [field; exact Hne|].
        replace (x a + (x b - x a) * ((y p - y a) / (y b - y a)))
          with ((x b - x a) * (y p - y a) / (y b - y a) + x a) by (field; exact Hne).
        exact Hx.
    + intros [_ (q & (s & _ & ->) & Hy & Hx)].
      unfold add, multiplyScalar, subVectors in Hy, Hx; cbn in Hy, Hx.
      assert (Es : s = (y p - y a) / (y b - y a)).
      { apply (Rmult_eq_reg_r (y b - y a)); [|exact Hne].
        replace ((y p - y a) / (y b - y a) * (y b - y a)) with (y p - y a)
          by (field; exact Hne). lra. }
      rewrite Es in Hx.
      replace ((x b - x a) * (y p - y a) / (y b - y a) + x a)
        with (x a + (x b - x a) * ((y p - y a) / (y b - y a))) by (field; exact Hne).
      exact Hx.
  - split; [discriminate|]. intros [[[H _]|[H _]] _]; lra.
Qed.

(** The test returns the parity of the number of edges crossed. *)
Lemma pointInPolygon2D_parity p poly :
  pointInPolygon2D p poly =
  Nat.odd (List.length (List.filter (fun ab => crossingAt p (fst ab) (snd ab)) (loop_pairs poly))).
Proof.
  unfold pointInPolygon2D.
  assert (H : forall l inside,
    fold_left (fun inside '(a, b) => if crossingAt p a b then negb inside else inside) l inside
    = xorb inside (Nat.odd (List.length
        (List.filter (fun ab => crossingAt p (fst ab) (snd ab)) l)))).
  { induction l as [|[a b] r IH]; intros inside; cbn [fold_left List.filter fst snd].
    - cbn. now rewrite xorb_false_r.
    - rewrite IH. destruct (crossingAt p a b); [|reflexivity].
      cbn [List.length]. rewrite Nat.odd_succ, <- Nat.negb_odd.
      destruct inside, (Nat.odd _); reflexivity. }
  rewrite H. reflexivity.
Qed.

(** The edges that the test counts are the edges that cross the
    half-line. *)
Lemma crossed_count p l :
  crossed p l
    (List.length (List.filter (fun ab => crossingAt (Some p) (fst ab) (snd ab)) l)).
Proof.
  induction l as [|[[a|] [b|]] r IH]; cbn [List.filter fst snd crossingAt].
  - constructor.
  - destruct (crossing p a b) eqn:E.
    + cbn [List.length]. apply crossed_yes; [now apply crossing_geometric|exact IH].
    + apply crossed_no; [|exact IH]. intros H. apply crossing_geometric in H. congruence.
  - apply crossed_open; [now right|exact IH].
  - apply crossed_open; [now left|exact IH].
  - apply crossed_open; [now left|exact IH].
Qed.

Lemma crossed_functional p l k1 k2 : crossed p l k1 -> crossed p l k2 -> k1 = k2.
Proof.
  intros H1. revert k2.
  induction H1 as [|a b r k Hc _ IH|a b r k Hc _ IH|e r k He _ IH]; intros k2 H2.
  - now inversion H2.
  - inversion H2 as [|a' b' r' k' Hc' H'|a' b' r' k' Hc' H'|e' r' k' He' H']; subst.
    + f_equal. now apply IH.
    + contradiction.
    + destruct He' as [E|E]; discriminate.
  - inversion H2 as [|a' b' r' k' Hc' H'|a' b' r' k' Hc' H'|e' r' k' He' H']; subst.
    + contradiction.
    + now apply IH.
    + destruct He' as [E|E]; discriminate.
  - inversion H2 as [|a' b' r' k' Hc' H'|a' b' r' k' Hc' H'|e' r' k' He' H']; subst.
    + destruct He as [E|E]; discriminate.
    + destruct He as [E|E]; discriminate.
    + now apply IH.
Qed.

(** The test implements the even-odd rule. *)
Lemma pointInPolygon2D_inside p poly :
  pointInPolygon2D (Some p) poly = true <-> inside_polygon p poly.
Proof.
  rewrite pointInPolygon2D_parity. unfold inside_polygon. split.
  - intros H. eexists. split; [apply crossed_count|]. now apply Nat.odd_spec.
  - intros (k & Hk & Hodd).
    rewrite (crossed_functional _ _ _ _ (crossed_count p (loop_pairs poly)) Hk).
    now apply Nat.odd_spec.
Qed.

(** One step of the test in terms of the side of the edge on which the
    point lies *)
Lemma crossing_orient p a b :
  crossing p a b =
  if JS.gt (y a) (y p)
  then (if JS.gt (y b) (y p) then false else JS.lt (orient a b p) 0)
  else (if JS.gt (y b) (y p) then JS.lt 0 (orient a b p) else false).
Proof.
  unfold crossing, JS.bool_neq, orient.
  destruct (JS.gt (y a) (y p)) eqn:Ha; destruct (JS.gt (y b) (y p)) eqn:Hb; cbn [xorb];
    try reflexivity;
    try apply gt_true in Ha; try apply gt_false in Ha;
    try apply gt_true in Hb; try apply gt_false in Hb.
  - assert (HD : y b - y a < 0) by lra.
    set (D := y b - y a) in *. set (N := (x b - x a) * (y p - y a)).
    assert (E : N / D + x a - x p = (N - D * (x p - x a)) * / D) by (field; lra).
    assert (Hinv : / D < 0) by now apply Rinv_lt_0_compat.
    destruct (JS.lt (N - D * (x p - x a)) 0) eqn:Ho.
    + apply lt_true in Ho. apply lt_true.
      assert (0 < (N - D * (x p - x a)) * / D) by nra. lra.
    + apply lt_false in Ho. apply lt_false.
      assert ((N - D * (x p - x a)) * / D <= 0) by nra. lra.
  - assert (HD : 0 < y b - y a) by lra.
    set (D := y b - y a) in *. set (N := (x b - x a) * (y p - y a)).
    assert (E : N / D + x a - x p = (N - D * (x p - x a)) * / D) by (field; lra).
    assert (Hinv : 0 < / D) by now apply Rinv_0_lt_compat.
    destruct (JS.lt 0 (N - D * (x p - x a))) eqn:Ho.
    + apply lt_true in Ho. apply lt_true.
      assert (0 < (N - D * (x p - x a)) * / D) by nra. lra.
    + apply lt_false in Ho. apply lt_false.
      assert ((N - D * (x p - x a)) * / D <= 0) by nra. lra.
Qed.

Lemma triangle_test a b c p :
  pointInPolygon2D (Some p) [Some a; Some b; Some c] =
  xorb (crossing p a c) (xorb (crossing p b a) (crossing p c b)).
Proof.
  unfold pointInPolygon2D. cbn.
  destruct (crossing p a c), (crossing p b a), (crossing p c b); reflexivity.
Qed.

Ltac split_comparisons :=
  repeat match goal with
         | |- context [JS.gt ?s ?t] =>
           let E := fresh "E" in
           destruct (JS.gt s t) eqn:E; [apply gt_true in E|apply gt_false in E]
         end;
  repeat match goal with
         | |- context [JS.lt ?s ?t] =>
           let E := fresh "E" in
           destruct (JS.lt s t) eqn:E; [apply lt_true in E|apply lt_false in E]
         end.

(** For a triangle the even-odd rule gives the interior: a point
    strictly inside the triangle is inside the polygon of its three
    vertices, whatever their order, and a point strictly outside is
    not. *)
Lemma inside_polygon_triangle a b c p :
  (in_triangle a b c p -> inside_polygon p [Some a; Some b; Some c]) /\
  (off_triangle a b c p -> ~ inside_polygon p [Some a; Some b; Some c]).
Proof.
  unfold in_triangle, off_triangle.
  assert (Bary : (y a - y p) * orient b c p + (y b - y p) * orient c a p
                 + (y c - y p) * orient a b p = 0) by (unfold orient; ring).
  assert (Area : orient a b p + orient b c p + orient c a p = orient a b c)
    by (unfold orient; ring).
  assert (Flat : orient a b c = (x b - x a) * ((y c - y p) - (y a - y p))
                                - ((y b - y p) - (y a - y p)) * (x c - x a))
    by (unfold orient; ring).
  assert (Sac : orient a c p = - orient c a p) by (unfold orient; ring).
  assert (Sba : orient b a p = - orient a b p) by (unfold orient; ring).
  assert (Scb : orient c b p = - orient b c p) by (unfold orient; ring).
  assert (E : pointInPolygon2D (Some p) [Some a; Some b; Some c] =
              xorb (crossing p a c) (xorb (crossing p b a) (crossing p c b)))
    by apply triangle_test.
  rewrite !crossing_orient, Sac, Sba, Scb in E.
  set (o1 := orient b c p) in *. set (o2 := orient c a p) in *.
  set (o3 := orient a b p) in *. set (O := orient a b c) in *.
  set (da := y a - y p) in *. set (db := y b - y p) in *. set (dc := y c - y p) in *.
  assert (Ga : forall t, JS.gt (y a) (y p) = t -> JS.lt 0 da = t).
  { intros t <-. unfold JS.gt, da, JS.lt.
    destruct (Rlt_dec (y p) (y a)), (Rlt_dec 0 (y a - y p)); try reflexivity; lra. }
  assert (Gb : forall t, JS.gt (y b) (y p) = t -> JS.lt 0 db = t).
  { intros t <-. unfold JS.gt, db, JS.lt.
    destruct (Rlt_dec (y p) (y b)), (Rlt_dec 0 (y b - y p)); try reflexivity; lra. }
  assert (Gc : forall t, JS.gt (y c) (y p) = t -> JS.lt 0 dc = t).
  { intros t <-. unfold JS.gt, dc, JS.lt.
    destruct (Rlt_dec (y p) (y c)), (Rlt_dec 0 (y c - y p)); try reflexivity; lra. }
  rewrite <- (Ga _ eq_refl), <- (Gb _ eq_refl), <- (Gc _ eq_refl) in E.
  clearbody o1 o2 o3 O da db dc. clear Ga Gb Gc Sac Sba Scb.
  split.
  - intros Hin. apply pointInPolygon2D_inside. rewrite E. clear E.
    split_comparisons; cbn; try reflexivity; exfalso;
      destruct Hin as [(H1 & H2 & H3)|(H1 & H2 & H3)];
      first [ nra
            | assert (da = 0) by nra; assert (db = 0) by nra; assert (dc = 0) by nra;
              subst da db dc; nra ].
  - intros Hoff Hin. apply pointInPolygon2D_inside in Hin. rewrite E in Hin. clear E.
    revert Hin.
    split_comparisons; cbn; try discriminate; intros _;
      destruct Hoff as [(HO & [H|[H|H]])|(HO & [H|[H|H]])]; nra.
Qed.

Lemma pointInPolygon2D_division_guarded_witness :
  JS.bool_neq (JS.gt (y edgeTop) (y originPoint)) (JS.gt (y edgeBottom) (y originPoint)) = true /\
  y edgeBottom - y edgeTop <> 0.
Proof.
  assert (H : JS.bool_neq (JS.gt (y edgeTop) (y originPoint))
                          (JS.gt (y edgeBottom) (y originPoint)) = true).
  { unfold edgeTop, edgeBottom, originPoint; cbn.
    rewrite (proj2 (gt_true 1 0)) by lra. rewrite (proj2 (gt_false (-1) 0)) by lra.
    reflexivity. }
  split; [exact H|].
  exact (proj1 pointInPolygon2D_division_guarded originPoint edgeTop edgeBottom H).
Defined.
End Crossing.

(** * Vectors and loop sums *)

Section Vectors.
Local Open Scope R_scope.
Import Vector3.

Lemma vec3_eq (a b : Vector3.t) : x a = x b -> y a = y b -> z a = z b -> a = b.
Proof. destruct a, b; cbn; intros; subst; reflexivity. Qed.

Lemma lengthSq_nonneg a : 0 <= lengthSq a.
Proof. unfold lengthSq. nra. Qed.

Lemma length_zero_iff a : length a = 0 <-> a = zero.
Proof.
  split.
  - intros H. apply sqrt_eq_0 in H; [|apply lengthSq_nonneg].
    unfold lengthSq in H. apply vec3_eq; cbn; nra.
  - intros ->. unfold length, lengthSq; cbn.
    replace (0 * 0 + 0 * 0 + 0 * 0) with 0 by ring. apply sqrt_0.
Qed.

Lemma length_sqr a : length a * length a = lengthSq a.
Proof. apply sqrt_def, lengthSq_nonneg. Qed.

Lemma length_negate a : length (negate a) = length a.
Proof. unfold length, lengthSq, negate; cbn. f_equal. ring. Qed.

Lemma normalize_zero : normalize zero = zero.
Proof.
  unfold normalize. rewrite (proj2 (length_zero_iff zero) eq_refl), or_default_zero.
  unfold divideScalar, multiplyScalar; cbn. apply vec3_eq; cbn; ring.
Qed.

Lemma normalize_nonzero a :
  a <> zero -> normalize a = multiplyScalar a (1 / length a) /\ length a <> 0.
Proof.
  intros H. assert (L : length a <> 0) by (rewrite length_zero_iff; exact H).
  unfold normalize. now rewrite or_default_nonzero.
Qed.

Lemma normalize_unit a : a <> zero -> length (normalize a) = 1.
Proof.
  intros H. destruct (normalize_nonzero a H) as [-> L].
  unfold length at 1. 
  replace (lengthSq (multiplyScalar a (1 / length a))) with 1; [apply sqrt_1|].
  unfold lengthSq, multiplyScalar; cbn.
  transitivity (lengthSq a * (1 / length a) * (1 / length a)); [|unfold lengthSq; ring].
  rewrite <- length_sqr. field. exact L.
Qed.

Lemma normalize_negate a : normalize (negate a) = negate (normalize a).
Proof.
  unfold normalize. rewrite length_negate.
  unfold divideScalar, multiplyScalar, negate; cbn. apply vec3_eq; cbn; ring.
Qed.

Lemma normalize_of_unit a : length a = 1 -> normalize a = a.
Proof.
  intros H. unfold normalize. rewrite H, or_default_nonzero by lra.
  unfold divideScalar, multiplyScalar. apply vec3_eq; cbn; field.
Qed.
End Vectors.

Section Loops.
Local Open Scope R_scope.
Context {A : Type}.

Lemma loop_from_fst (prev : A) l : List.map fst (loop_from prev l) = l.
Proof. revert prev. induction l as [|p r IH]; intros prev; cbn; [|rewrite IH]; reflexivity. Qed.

Lemma loop_pairs_fst (l : list A) : List.map fst (loop_pairs l) = l.
Proof. destruct l as [|p r]; [reflexivity|]. unfold loop_pairs. apply loop_from_fst. Qed.

Lemma loop_pairs_length (l : list A) : List.length (loop_pairs l) = List.length l.
Proof. rewrite <- (loop_pairs_fst l) at 2. now rewrite List.length_map. Qed.

Lemma loop_pairs_cons (p : A) r :
  loop_pairs (p :: r) = loop_from (List.last (p :: r) p) (p :: r).
Proof. reflexivity. Qed.

Lemma Rsum_app l1 l2 : Rsum (l1 ++ l2) = Rsum l1 + Rsum l2.
Proof. induction l1 as [|a r IH]; cbn; [|rewrite IH]; ring. Qed.

Lemma Rsum_map_rev (g : A -> R) l : Rsum (List.map g (List.rev l)) = Rsum (List.map g l).
Proof.
  induction l as [|a r IH]; [reflexivity|]. cbn [List.rev List.map].
  rewrite List.map_app, Rsum_app, IH. cbn. ring.
Qed.

Variable f : A -> A -> R.

Lemma loop_from_chain prev l :
  Rsum (List.map (fun ij => f (fst ij) (snd ij)) (loop_from prev l)) = chain f (prev :: l).
Proof.
  revert prev. induction l as [|p r IH]; intros prev; [reflexivity|].
  cbn [loop_from List.map Rsum fst snd].
  rewrite IH. reflexivity.
Qed.

Lemma loopSum_chain p r : loopSum f (p :: r) = chain f (List.last (p :: r) p :: p :: r).
Proof. unfold loopSum. rewrite loop_pairs_cons. apply loop_from_chain. Qed.

Lemma last_default (c : A) r d1 d2 : List.last (c :: r) d1 = List.last (c :: r) d2.
Proof.
  revert c. induction r as [|e r IH]; intros c; [reflexivity|].
  change (List.last (e :: r) d1 = List.last (e :: r) d2). apply IH.
Qed.

Lemma chain_snoc a l b :
  chain f (a :: l ++ [b]) = chain f (a :: l) + f b (List.last (a :: l) a).
Proof.
  revert a. induction l as [|c r IH]; intros a.
  - cbn. ring.
  - change (chain f (a :: (c :: r) ++ [b])) with (f c a + chain f (c :: r ++ [b])).
    rewrite IH.
    change (chain f (a :: c :: r)) with (f c a + chain f (c :: r)).
    change (List.last (a :: c :: r) a) with (List.last (c :: r) a).
    rewrite (last_default c r a c). ring.
Qed.

Hypothesis antisym : forall a b, f a b = - f b a.

Lemma chain_rev l : chain f (List.rev l) = - chain f l.
Proof.
  induction l as [|a r IH]; [cbn; ring|].
  destruct r as [|b r]; [cbn; ring|].
  change (chain f (a :: b :: r)) with (f b a + chain f (b :: r)).
  cbn [List.rev] in *. 
  destruct (List.rev r ++ [b]) as [|h m] eqn:E.
  { destruct (List.rev r); discriminate. }
  cbn [app]. rewrite chain_snoc. rewrite IH.
  replace (List.last (h :: m) h) with b; [rewrite (antisym a b); ring|].
  rewrite <- E. now rewrite List.last_last.
Qed.

Lemma loopSum_rev l : loopSum f (List.rev l) = - loopSum f l.
Proof.
  destruct l as [|p r]; [unfold loopSum; cbn; ring|].
  rewrite loopSum_chain.
  assert (Hclosed : chain f (List.last (p :: r) p :: p :: r) = chain f (p :: r ++ [p])).
  { rewrite chain_snoc.
    change (chain f (List.last (p :: r) p :: p :: r))
      with (f p (List.last (p :: r) p) + chain f (p :: r)). ring. }
  rewrite Hclosed. rewrite <- chain_rev.
  cbn [List.rev]. rewrite List.rev_app_distr. cbn [List.rev app].
  destruct (List.rev r ++ [p]) as [|h m] eqn:E.
  { destruct (List.rev r); discriminate. }
  rewrite loopSum_chain.
  replace (List.last (h :: m) h) with p; [rewrite <- E; reflexivity|].
  rewrite <- E. now rewrite List.last_last.
Qed.
End Loops.

(** * Plane fitter *)

Section NewellPlane.
Local Open Scope R_scope.
Import Vector3.

Lemma newell_fold l a :
  fold_left Newell.step l a =
  Newell.mkAcc
    (mk (x (Newell.n a) + Rsum (List.map (fun ij => termX (fst ij) (snd ij)) l))
        (y (Newell.n a) + Rsum (List.map (fun ij => termY (fst ij) (snd ij)) l))
        (z (Newell.n a) + Rsum (List.map (fun ij => termZ (fst ij) (snd ij)) l)))
    (Newell.cx a + Rsum (List.map x (List.map fst l)))
    (Newell.cy a + Rsum (List.map y (List.map fst l)))
    (Newell.cz a + Rsum (List.map z (List.map fst l))).
Proof.
  revert a. induction l as [|[pi pj] r IH]; intros a; cbn [fold_left List.map Rsum].
  - destruct a as [[nx ny nz] cx cy cz]. cbn. f_equal; [f_equal|..]; ring.
  - rewrite IH. unfold Newell.step, termX, termY, termZ. cbn. f_equal; [f_equal|..]; ring.
Qed.

(** What the loop of [newellPlane] has accumulated when it ends *)
Lemma newell_run l :
  Newell.run l =
  Newell.mkAcc (mk (loopSum termX l) (loopSum termY l) (loopSum termZ l))
               (Rsum (List.map x l)) (Rsum (List.map y l)) (Rsum (List.map z l)).
Proof.
  unfold Newell.run. rewrite newell_fold, loop_pairs_fst. unfold loopSum. cbn.
  f_equal; [f_equal|..]; ring.
Qed.

Lemma newell_run_rev l :
  Newell.run (List.rev l) =
  Newell.mkAcc (negate (Newell.n (Newell.run l)))
    (Newell.cx (Newell.run l)) (Newell.cy (Newell.run l)) (Newell.cz (Newell.run l)).
Proof.
  rewrite !newell_run. cbn. unfold negate; cbn.
  rewrite !loopSum_rev, !Rsum_map_rev; try reflexivity.
  all: intros a b; unfold termX, termY, termZ; ring.
Qed.

Lemma newellPlane_rev l :
  newellPlane (List.rev l) =
  Newell.mkPlane (negate (Newell.normal (newellPlane l))) (Newell.origin (newellPlane l)).
Proof.
  unfold newellPlane. rewrite newell_run_rev. cbn.
  now rewrite normalize_negate, List.length_rev.
Qed.

Lemma newellPlane_unit l :
  Newell.n (Newell.run l) <> zero -> length (Newell.normal (newellPlane l)) = 1.
Proof. intros H. unfold newellPlane. cbn. now apply normalize_unit. Qed.

Lemma newellPlane_degenerate l :
  Newell.n (Newell.run l) = zero -> Newell.normal (newellPlane l) = zero.
Proof. intros H. unfold newellPlane. cbn. rewrite H. apply normalize_zero. Qed.


(** *** Collinear loops *)

Lemma chain_telescope {A} (f : A -> A -> R) (g : A -> R) :
  (forall a b, f b a = g a - g b) ->
  forall a l, chain f (a :: l) = g a - g (List.last (a :: l) a).
Proof.
  intros Hf a l. revert a. induction l as [|b r IH]; intros a.
  - cbn. ring.
  - change (chain f (a :: b :: r)) with (f b a + chain f (b :: r)).
    rewrite IH, Hf. change (List.last (a :: b :: r) a) with (List.last (b :: r) a).
    rewrite (last_default b r a b). ring.
Qed.

Lemma loopSum_telescope {A} (f : A -> A -> R) (g : A -> R) :
  (forall a b, f b a = g a - g b) -> forall l, loopSum f l = 0.
Proof.
  intros Hf [|p r]; [reflexivity|].
  rewrite loopSum_chain, (chain_telescope f g Hf).
  change (List.last (List.last (p :: r) p :: p :: r) (List.last (p :: r) p))
    with (List.last (p :: r) (List.last (p :: r) p)).
  rewrite (last_default p r (List.last (p :: r) p) p). ring.
Qed.

Lemma loop_from_map {A B} (h : A -> B) prev l :
  loop_from (h prev) (List.map h l) =
  List.map (fun ij => (h (fst ij), h (snd ij))) (loop_from prev l).
Proof.
  revert prev. induction l as [|p r IH]; intros prev; [reflexivity|].
  cbn [List.map loop_from fst snd]. now rewrite IH.
Qed.

Lemma last_map {A B} (h : A -> B) l d :
  List.last (List.map h l) (h d) = h (List.last l d).
Proof.
  induction l as [|a [|b l'] IH]; [reflexivity|reflexivity|].
  change (List.last (List.map h (b :: l')) (h d) = h (List.last (b :: l') d)). apply IH.
Qed.

Lemma loop_pairs_map {A B} (h : A -> B) l :
  loop_pairs (List.map h l) =
  List.map (fun ij => (h (fst ij), h (snd ij))) (loop_pairs l).
Proof.
  destruct l as [|p r]; [reflexivity|].
  change (List.map h (p :: r)) with (h p :: List.map h r).
  rewrite !loop_pairs_cons.
  change (h p :: List.map h r) with (List.map h (p :: r)).
  now rewrite last_map, loop_from_map.
Qed.

Lemma loopSum_map {A B} (h : A -> B) (f : B -> B -> R) l :
  loopSum f (List.map h l) = loopSum (fun a b => f (h a) (h b)) l.
Proof. unfold loopSum. now rewrite loop_pairs_map, List.map_map. Qed.

(** Points of one line have a zero Newell accumulator, whatever their
    order and number. *)
Lemma newell_collinear a d ss :
  Newell.n (Newell.run (List.map (onLine a d) ss)) = zero.
Proof.
  rewrite newell_run. cbn. rewrite !loopSum_map. unfold zero. f_equal.
  - apply (loopSum_telescope _ (fun s => 2 * z a * y d * s + y d * z d * s * s)).
    intros s1 s2. unfold termX, onLine; cbn. ring.
  - apply (loopSum_telescope _ (fun s => 2 * x a * z d * s + z d * x d * s * s)).
    intros s1 s2. unfold termY, onLine; cbn. ring.
  - apply (loopSum_telescope _ (fun s => 2 * y a * x d * s + x d * y d * s * s)).
    intros s1 s2. unfold termZ, onLine; cbn. ring.
Qed.
End NewellPlane.

(** * The plane fitter in rounded arithmetic *)

Section ReversedSums.
Local Open Scope R_scope.
Context {A : Type} (f g : A -> A -> R).
Hypothesis swapped : forall a b, g a b = f b a.

Lemma chain_rev_swapped l : chain g (List.rev l) = chain f l.
Proof.
  induction l as [|a r IH]; [reflexivity|].
  destruct r as [|b r]; [reflexivity|].
  change (chain f (a :: b :: r)) with (f b a + chain f (b :: r)).
  cbn [List.rev] in *.
  destruct (List.rev r ++ [b]) as [|h m] eqn:E.
  { destruct (List.rev r); discriminate. }
  cbn [app]. rewrite chain_snoc, IH.
  replace (List.last (h :: m) h) with b; [rewrite (swapped a b); ring|].
  rewrite <- E. now rewrite List.last_last.
Qed.

Lemma loopSum_rev_swapped l : loopSum g (List.rev l) = loopSum f l.
Proof.
  destruct l as [|p r]; [reflexivity|].
  rewrite (loopSum_chain f).
  assert (Hclosed : chain f (List.last (p :: r) p :: p :: r) = chain f (p :: r ++ [p])).
  { rewrite chain_snoc.
    change (chain f (List.last (p :: r) p :: p :: r))
      with (f p (List.last (p :: r) p) + chain f (p :: r)). ring. }
  rewrite Hclosed, <- chain_rev_swapped.
  cbn [List.rev]. rewrite List.rev_app_distr. cbn [List.rev app].
  destruct (List.rev r ++ [p]) as [|h m] eqn:E.
  { destruct (List.rev r); discriminate. }
  rewrite (loopSum_chain g).
  replace (List.last (h :: m) h) with p; [rewrite <- E; reflexivity|].
  rewrite <- E. now rewrite List.last_last.
Qed.
End ReversedSums.

Section Rounding.
Local Open Scope R_scope.
Variable rnd : R -> R.
Variable u : R.
Hypothesis Hrnd : rounds rnd u.

Lemma Rabs_bound a b : Rabs a <= b -> - b <= a <= b.
Proof. unfold Rabs. destruct (Rcase_abs a); lra. Qed.

Lemma rnd_err a : Rabs (rnd a - a) <= u * Rabs a.
Proof. exact (proj2 Hrnd a). Qed.

Lemma rnd_zero : rnd 0 = 0.
Proof.
  pose proof (rnd_err 0) as H. rewrite Rabs_R0, Rmult_0_r in H.
  apply Rabs_bound in H. lra.
Qed.

Lemma rnd_nonneg a : 0 <= a -> (1 - u) * a <= rnd a <= (1 + u) * a.
Proof.
  intros Ha. pose proof (rnd_err a) as H. rewrite (Rabs_pos_eq a Ha) in H.
  apply Rabs_bound in H. lra.
Qed.

Lemma rnd_abs a : (1 - u) * Rabs a <= Rabs (rnd a) <= (1 + u) * Rabs a.
Proof.
  pose proof (rnd_err a) as H. destruct Hrnd as [[Hu0 Hu1] _].
  unfold Rabs in *. destruct (Rcase_abs a), (Rcase_abs (rnd a)), (Rcase_abs (rnd a - a)); nra.
Qed.

Lemma drift_0 : drift u 0 = 0.
Proof. unfold drift. cbn. ring. Qed.

Lemma drift_S k : drift u (S k) = (1 + u) * drift u k + u.
Proof. unfold drift. cbn. ring. Qed.

Lemma drift_nonneg k : 0 <= drift u k.
Proof.
  destruct Hrnd as [[Hu0 _] _].
  induction k as [|k IH]; [rewrite drift_0; lra|rewrite drift_S; nra].
Qed.

Lemma drift_le j k : (j <= k)%nat -> drift u j <= drift u k.
Proof.
  destruct Hrnd as [[Hu0 _] _].
  induction 1 as [|k _ IH]; [lra|]. rewrite drift_S.
  pose proof (drift_nonneg k). nra.
Qed.

Lemma within_rnd k a' a B :
  within_drift u k a' a B -> Rabs a <= B -> within_drift u (S k) (rnd a') a B.
Proof.
  unfold within_drift. intros H Ha. rewrite drift_S.
  destruct Hrnd as [[Hu0 _] _].
  pose proof (rnd_err a') as He.
  pose proof (Rabs_triang (rnd a' - a') (a' - a)) as Ht.
  replace (rnd a' - a' + (a' - a)) with (rnd a' - a) in Ht by ring.
  pose proof (Rabs_triang (a' - a) a) as Hm.
  replace (a' - a + a) with a' in Hm by ring.
  pose proof (Rabs_pos (a' - a)). pose proof (drift_nonneg k).
  nra.
Qed.

Lemma within_add k a' a B b' b C :
  within_drift u k a' a B -> within_drift u k b' b C ->
  within_drift u k (a' + b') (a + b) (B + C).
Proof.
  unfold within_drift. intros Ha Hb.
  pose proof (Rabs_triang (a' - a) (b' - b)) as Ht.
  replace (a' - a + (b' - b)) with (a' + b' - (a + b)) in Ht by ring. lra.
Qed.

Lemma within_le j k a' a B C :
  within_drift u j a' a B -> (j <= k)%nat -> 0 <= B <= C -> within_drift u k a' a C.
Proof.
  unfold within_drift. intros H Hjk HB.
  pose proof (drift_le j k Hjk). pose proof (drift_nonneg j). nra.
Qed.

Lemma within_scale k a' a B c :
  within_drift u k a' a B -> within_drift u k (a' * c) (a * c) (B * Rabs c).
Proof.
  unfold within_drift. intros H.
  replace (a' * c - a * c) with ((a' - a) * c) by ring. rewrite Rabs_mult.
  pose proof (Rabs_pos c). nra.
Qed.

Lemma within_exact a B : 0 <= B -> within_drift u 0 a a B.
Proof.
  intros HB. unfold within_drift. rewrite drift_0.
  replace (a - a) with 0 by ring. rewrite Rabs_R0. lra.
Qed.

(** A rounded product of two rounded numbers *)
Lemma product_error s w :
  within_drift u 3 (rnd (rnd s * rnd w)) (s * w) (Rabs (s * w)).
Proof.
  apply within_rnd; [|lra].
  unfold within_drift. rewrite !drift_S, drift_0.
  destruct Hrnd as [[Hu0 _] _].
  replace (rnd s * rnd w - s * w) with ((rnd s - s) * rnd w + s * (rnd w - w)) by ring.
  pose proof (Rabs_triang ((rnd s - s) * rnd w) (s * (rnd w - w))) as Ht.
  rewrite !Rabs_mult in *.
  pose proof (rnd_err s) as Hs. pose proof (rnd_err w) as Hw.
  pose proof (proj2 (rnd_abs w)) as Hw'.
  pose proof (Rabs_pos s). pose proof (Rabs_pos w).
  pose proof (Rabs_pos (rnd s - s)). pose proof (Rabs_pos (rnd w - w)).
  pose proof (Rabs_pos (rnd w)).
  assert (Hp1 : Rabs (rnd s - s) * Rabs (rnd w) <= u * Rabs s * ((1 + u) * Rabs w)).
  { apply Rmult_le_compat; lra. }
  assert (Hp2 : Rabs s * Rabs (rnd w - w) <= Rabs s * (u * Rabs w)).
  { apply Rmult_le_compat_l; lra. }
  nra.
Qed.

Lemma fterm_error pi pj :
  within_drift u 3 (ftermX rnd pi pj) (termX pi pj) (magX pi pj) /\
  within_drift u 3 (ftermY rnd pi pj) (termY pi pj) (magY pi pj) /\
  within_drift u 3 (ftermZ rnd pi pj) (termZ pi pj) (magZ pi pj).
Proof. repeat split; apply product_error. Qed.

(** The error of a rounded sum is relative to the magnitudes of its
    summands. *)
Lemma fsum_error j ts' ts :
  Forall2 (fun t' t => within_drift u j t' t (Rabs t)) ts' ts ->
  forall k s0' s0 B0, (j <= k)%nat ->
    within_drift u k s0' s0 B0 -> Rabs s0 <= B0 ->
    within_drift u (k + List.length ts) (fsum rnd ts' s0') (s0 + Rsum ts)
      (B0 + Rsum (List.map Rabs ts)).
Proof.
  induction 1 as [|t' t r' r Ht _ IH]; intros k s0' s0 B0 Hjk H0 HB.
  - cbn. rewrite Nat.add_0_r, !Rplus_0_r. exact H0.
  - cbn [fsum fold_left List.length List.map Rsum].
    replace (k + S (List.length r))%nat with (S k + List.length r)%nat by lia.
    replace (s0 + (t + Rsum r)) with (s0 + t + Rsum r) by ring.
    replace (B0 + (Rabs t + Rsum (List.map Rabs r)))
      with (B0 + Rabs t + Rsum (List.map Rabs r)) by ring.
    pose proof (Rabs_pos s0). pose proof (Rabs_pos t).
    pose proof (Rabs_triang s0 t).
    apply IH; [lia| |lra].
    apply within_rnd; [|lra]. apply within_add; [exact H0|].
    apply (within_le j k _ _ (Rabs t)); [exact Ht|exact Hjk|lra].
Qed.

Lemma Forall2_map_pointwise {X Y Z : Type} (P : Y -> Z -> Prop) (f : X -> Y) (g : X -> Z) l :
  (forall a, P (f a) (g a)) -> Forall2 P (List.map f l) (List.map g l).
Proof. intros H. induction l; cbn; constructor; auto. Qed.

Lemma fsum_error_0 j (X : Type) (f' f : X -> R) (l : list X) :
  (forall a, within_drift u j (f' a) (f a) (Rabs (f a))) ->
  within_drift u (j + List.length l) (fsum rnd (List.map f' l) 0)
    (Rsum (List.map f l)) (Rsum (List.map (fun a => Rabs (f a)) l)).
Proof.
  intros H.
  pose proof (fsum_error j (List.map f' l) (List.map f l) (Forall2_map_pointwise _ f' f l H)
                j 0 0 0 (Nat.le_refl j)) as E.
  rewrite List.length_map, !Rplus_0_l, List.map_map in E. apply E.
  - apply within_le with (j := 0%nat) (B := 0); [apply within_exact; lra|lia|lra].
  - rewrite Rabs_R0. lra.
Qed.
End Rounding.

Section RoundedFitter.
Local Open Scope R_scope.
Variable rnd : R -> R.
Variable u : R.
Hypothesis Hrnd : rounds rnd u.

Local Abbreviation A := (Arith.rounded rnd).

(** What the loop accumulates, component by component *)
Lemma rounded_fold L a :
  fold_left (Floating.step A) (List.map (fun ij => (toVec (fst ij), toVec (snd ij))) L) a =
  Floating.mkAcc
    (Floating.mkVec
       (fsum rnd (List.map (fun ij => ftermX rnd (fst ij) (snd ij)) L)
          (Floating.x (Floating.n a)))
       (fsum rnd (List.map (fun ij => ftermY rnd (fst ij) (snd ij)) L)
          (Floating.y (Floating.n a)))
       (fsum rnd (List.map (fun ij => ftermZ rnd (fst ij) (snd ij)) L)
          (Floating.z (Floating.n a))))
    (fsum rnd (List.map Vector3.x (List.map fst L)) (Floating.cx a))
    (fsum rnd (List.map Vector3.y (List.map fst L)) (Floating.cy a))
    (fsum rnd (List.map Vector3.z (List.map fst L)) (Floating.cz a)).
Proof.
  revert a. induction L as [|[pi pj] r IH]; intros a; cbn [fold_left List.map fsum fst snd].
  - now destruct a as [[? ? ?] ? ? ?].
  - rewrite IH. reflexivity.
Qed.

Lemma rounded_run l :
  Floating.run A (List.map toVec l) =
  Floating.mkAcc
    (Floating.mkVec
       (fsum rnd (List.map (fun ij => ftermX rnd (fst ij) (snd ij)) (loop_pairs l)) 0)
       (fsum rnd (List.map (fun ij => ftermY rnd (fst ij) (snd ij)) (loop_pairs l)) 0)
       (fsum rnd (List.map (fun ij => ftermZ rnd (fst ij) (snd ij)) (loop_pairs l)) 0))
    (fsum rnd (List.map Vector3.x l) 0)
    (fsum rnd (List.map Vector3.y l) 0)
    (fsum rnd (List.map Vector3.z l) 0).
Proof.
  unfold Floating.run. rewrite loop_pairs_map, rounded_fold, loop_pairs_fst. reflexivity.
Qed.

(** The accumulated vector is the exact Newell sum up to the rounding
    of a sum of [length l] products. *)
Lemma accumulator_error l :
  let a' := Floating.n (Floating.run A (List.map toVec l)) in
  within_drift u (3 + List.length l) (Floating.x a') (loopSum termX l) (loopSum magX l) /\
  within_drift u (3 + List.length l) (Floating.y a') (loopSum termY l) (loopSum magY l) /\
  within_drift u (3 + List.length l) (Floating.z a') (loopSum termZ l) (loopSum magZ l).
Proof.
  cbn zeta. rewrite rounded_run. cbn [Floating.n Floating.x Floating.y Floating.z].
  rewrite <- (loop_pairs_length l). unfold loopSum.
  repeat split.
  - apply (fsum_error_0 rnd u Hrnd 3 _ (fun ij => ftermX rnd (fst ij) (snd ij))
             (fun ij => termX (fst ij) (snd ij))).
    intros [pi pj]. apply (fterm_error rnd u Hrnd).
  - apply (fsum_error_0 rnd u Hrnd 3 _ (fun ij => ftermY rnd (fst ij) (snd ij))
             (fun ij => termY (fst ij) (snd ij))).
    intros [pi pj]. apply (fterm_error rnd u Hrnd).
  - apply (fsum_error_0 rnd u Hrnd 3 _ (fun ij => ftermZ rnd (fst ij) (snd ij))
             (fun ij => termZ (fst ij) (snd ij))).
    intros [pi pj]. apply (fterm_error rnd u Hrnd).
Qed.

Lemma Rsum_triangle {X : Type} (f : X -> R) l :
  Rabs (Rsum (List.map f l)) <= Rsum (List.map (fun p => Rabs (f p)) l).
Proof.
  induction l as [|a r IH]; cbn [List.map Rsum]; [rewrite Rabs_R0; lra|].
  pose proof (Rabs_triang (f a) (Rsum (List.map f r))). lra.
Qed.

Lemma inv_length_nonneg (l : list Vector3.t) : 0 <= / INR (List.length l).
Proof.
  destruct l as [|p r]; [cbn; rewrite Rinv_0; lra|].
  left. apply Rinv_0_lt_compat. change (List.length (p :: r)) with (S (List.length r)).
  rewrite S_INR. pose proof (pos_INR (List.length r)). lra.
Qed.

(** A coordinate of the centroid is the exact mean up to the rounding
    of a sum of [length l] numbers and of one division. *)
Lemma centroid_error (f : Vector3.t -> R) l :
  within_drift u (S (List.length l))
    (rnd (fsum rnd (List.map f l) 0 / INR (List.length l)))
    (Rsum (List.map f l) / INR (List.length l)) (meanAbs f l).
Proof.
  pose proof (inv_length_nonneg l) as Hinv.
  pose proof (Rsum_triangle f l) as Htri.
  unfold meanAbs, Rdiv. apply (within_rnd rnd u Hrnd).
  - rewrite <- (Rabs_pos_eq _ Hinv) at 3.
    apply (within_scale u). 
    apply (fsum_error_0 rnd u Hrnd 0 _ f f). intros a.
    apply (within_exact u), Rabs_pos.
  - rewrite Rabs_mult, (Rabs_pos_eq _ Hinv). nra.
Qed.
End RoundedFitter.

Section RoundedReversal.
Local Open Scope R_scope.
Variable rnd : R -> R.
Variable u : R.
Hypothesis Hrnd : rounds rnd u.

Local Abbreviation A := (Arith.rounded rnd).

Lemma within_both k a' a b' B :
  within_drift u k a' a B -> within_drift u k b' (- a) B ->
  Rabs (b' + a') <= 2 * drift u k * B.
Proof.
  unfold within_drift. intros Ha Hb.
  pose proof (Rabs_triang (b' - - a) (a' - a)) as Ht.
  replace (b' - - a + (a' - a)) with (b' + a') in Ht by ring. lra.
Qed.

Lemma within_same k a' a b' B :
  within_drift u k a' a B -> within_drift u k b' a B ->
  Rabs (b' - a') <= 2 * drift u k * B.
Proof.
  unfold within_drift. intros Ha Hb.
  pose proof (Rabs_triang (b' - a) (- (a' - a))) as Ht.
  replace (b' - a + - (a' - a)) with (b' - a') in Ht by ring.
  rewrite Rabs_Ropp in Ht. lra.
Qed.

Lemma mag_rev l :
  loopSum magX (List.rev l) = loopSum magX l /\
  loopSum magY (List.rev l) = loopSum magY l /\
  loopSum magZ (List.rev l) = loopSum magZ l.
Proof.
  repeat split; apply loopSum_rev_swapped; intros a b;
    unfold magX, magY, magZ, termX, termY, termZ; rewrite <- Rabs_Ropp; f_equal; ring.
Qed.

Lemma term_rev l :
  loopSum termX (List.rev l) = - loopSum termX l /\
  loopSum termY (List.rev l) = - loopSum termY l /\
  loopSum termZ (List.rev l) = - loopSum termZ l.
Proof.
  repeat split; apply loopSum_rev; intros a b; unfold termX, termY, termZ; ring.
Qed.

(** On the reversed loop the accumulated vector is the negated one, up
    to the rounding of the two sums. *)
Lemma reversed_accumulator l :
  let a := Floating.n (Floating.run A (List.map toVec l)) in
  let a' := Floating.n (Floating.run A (List.map toVec (List.rev l))) in
  Rabs (Floating.x a' + Floating.x a) <= 2 * drift u (3 + List.length l) * loopSum magX l /\
  Rabs (Floating.y a' + Floating.y a) <= 2 * drift u (3 + List.length l) * loopSum magY l /\
  Rabs (Floating.z a' + Floating.z a) <= 2 * drift u (3 + List.length l) * loopSum magZ l.
Proof.
  cbn zeta.
  destruct (accumulator_error rnd u Hrnd l) as (Hx & Hy & Hz).
  destruct (accumulator_error rnd u Hrnd (List.rev l)) as (Hx' & Hy' & Hz').
  cbn zeta in *. rewrite List.length_rev in Hx', Hy', Hz'.
  destruct (mag_rev l) as (Mx & My & Mz). destruct (term_rev l) as (Tx & Ty & Tz).
  rewrite Mx, Tx in Hx'. rewrite My, Ty in Hy'. rewrite Mz, Tz in Hz'.
  repeat split; eapply within_both; eassumption.
Qed.

(** On the reversed loop the centroid is the same one, up to the
    rounding of the two sums and divisions. *)
Lemma reversed_centroid l :
  let o := Floating.origin (Floating.newellPlane A (List.map toVec l)) in
  let o' := Floating.origin (Floating.newellPlane A (List.map toVec (List.rev l))) in
  Rabs (Floating.x o' - Floating.x o)
    <= 2 * drift u (S (List.length l)) * meanAbs Vector3.x l /\
  Rabs (Floating.y o' - Floating.y o)
    <= 2 * drift u (S (List.length l)) * meanAbs Vector3.y l /\
  Rabs (Floating.z o' - Floating.z o)
    <= 2 * drift u (S (List.length l)) * meanAbs Vector3.z l.
Proof.
  cbn zeta. unfold Floating.newellPlane. cbn [Floating.origin Floating.x Floating.y Floating.z].
  rewrite !rounded_run, !List.length_map.
  cbn [Floating.cx Floating.cy Floating.cz Arith.ofNat Arith.div Arith.rounded].
  assert (H : forall f : Vector3.t -> R,
    Rabs (rnd (fsum rnd (List.map f (List.rev l)) 0 / INR (List.length (List.rev l)))
          - rnd (fsum rnd (List.map f l) 0 / INR (List.length l)))
    <= 2 * drift u (S (List.length l)) * meanAbs f l).
  { intros f. pose proof (centroid_error rnd u Hrnd f l) as H1.
    pose proof (centroid_error rnd u Hrnd f (List.rev l)) as H2.
    unfold meanAbs in H2. rewrite !Rsum_map_rev, !List.length_rev in H2.
    fold (meanAbs f l) in H2. rewrite List.length_rev.
    eapply within_same; eassumption. }
  repeat split; apply H.
Qed.
End RoundedReversal.

Section RoundedNormal.
Local Open Scope R_scope.
Variable rnd : R -> R.
Variable u : R.
Hypothesis Hrnd : rounds rnd u.

Local Abbreviation A := (Arith.rounded rnd).

Lemma ofVec_zero v : v <> toVec Vector3.zero -> ofVec v <> Vector3.zero.
Proof. intros H E. apply H. destruct v as [a b c]. now injection E as -> -> ->. Qed.

Lemma scale_down m t : 0 <= m <= 1 -> 0 <= t -> m * t <= t.
Proof. intros Hm Ht. nra. Qed.

Lemma scale_up M t : 1 <= M -> 0 <= t -> t <= M * t.
Proof. intros HM Ht. nra. Qed.

Lemma rounded_sum_squares a b c :
  let q := a * a + b * b + c * c in
  let s := rnd (rnd (rnd (a * a) + rnd (b * b)) + rnd (c * c)) in
  (1 - u) ^ 4 * q <= s <= (1 + u) ^ 4 * q.
Proof.
  cbn zeta. destruct Hrnd as [[Hu0 Hu1] _].
  pose proof (Rle_0_sqr a) as Ha. pose proof (Rle_0_sqr b) as Hb.
  pose proof (Rle_0_sqr c) as Hc. unfold Rsqr in Ha, Hb, Hc.
  pose proof (rnd_nonneg rnd u Hrnd (a * a) Ha) as Ra.
  pose proof (rnd_nonneg rnd u Hrnd (b * b) Hb) as Rb.
  pose proof (rnd_nonneg rnd u Hrnd (c * c) Hc) as Rc.
  set (a2 := a * a) in *. set (b2 := b * b) in *. set (c2 := c * c) in *.
  set (ra := rnd a2) in *. set (rb := rnd b2) in *. set (rc := rnd c2) in *.
  clearbody a2 b2 c2 ra rb rc.
  set (m := 1 - u) in *. set (M := 1 + u) in *.
  assert (Hm : 0 <= m <= 1) by (unfold m; lra).
  assert (HM : 1 <= M) by (unfold M; lra).
  assert (Hma : 0 <= m * a2) by (apply Rmult_le_pos; lra).
  assert (Hmb : 0 <= m * b2) by (apply Rmult_le_pos; lra).
  assert (Hmc : 0 <= m * c2) by (apply Rmult_le_pos; lra).
  assert (Hab : 0 <= ra + rb) by lra.
  pose proof (rnd_nonneg rnd u Hrnd (ra + rb) Hab) as Rab. fold m M in Rab.
  set (rab := rnd (ra + rb)) in *. clearbody rab.
  assert (L1 : m * (a2 + b2) <= ra + rb <= M * (a2 + b2)) by lra.
  assert (P1 : 0 <= m * (a2 + b2)) by lra.
  assert (L2 : m * (m * (a2 + b2)) <= rab <= M * (M * (a2 + b2))).
  { split.
    - apply Rle_trans with (m * (ra + rb)); [apply Rmult_le_compat_l; lra|lra].
    - apply Rle_trans with (M * (ra + rb)); [lra|apply Rmult_le_compat_l; lra]. }
  assert (L3 : m * (m * c2) <= rc <= M * (M * c2)).
  { split.
    - apply Rle_trans with (m * c2); [apply scale_down; lra|lra].
    - apply Rle_trans with (M * c2); [lra|apply scale_up; [lra|apply Rmult_le_pos; lra]]. }
  assert (P2 : 0 <= m * (m * (a2 + b2))) by (apply Rmult_le_pos; lra).
  assert (P2c : 0 <= m * (m * c2)) by (apply Rmult_le_pos; lra).
  assert (Hs : 0 <= rab + rc) by lra.
  pose proof (rnd_nonneg rnd u Hrnd (rab + rc) Hs) as Rs. fold m M in Rs.
  set (s := rnd (rab + rc)) in *. clearbody s.
  set (q := a2 + b2 + c2) in *.
  assert (Q : 0 <= q) by (unfold q; lra).
  assert (L4 : m * (m * q) <= rab + rc <= M * (M * q)) by (unfold q; lra).
  assert (P3 : 0 <= m * (m * q)) by (repeat apply Rmult_le_pos; lra).
  assert (L5 : m * (m * (m * q)) <= s <= M * (M * (M * q))).
  { split.
    - apply Rle_trans with (m * (rab + rc)); [apply Rmult_le_compat_l; lra|lra].
    - apply Rle_trans with (M * (rab + rc)); [lra|apply Rmult_le_compat_l; lra]. }
  assert (P4 : 0 <= m * (m * (m * q))) by (repeat apply Rmult_le_pos; lra).
  assert (P5 : 0 <= M * (M * (M * q))) by (repeat apply Rmult_le_pos; lra).
  split.
  - apply Rle_trans with (m * (m * (m * q))); [|lra].
    replace (m ^ 4 * q) with (m * (m * (m * (m * q)))) by ring.
    apply scale_down; lra.
  - apply Rle_trans with (M * (M * (M * q))); [lra|].
    replace (M ^ 4 * q) with (M * (M * (M * (M * q)))) by ring.
    apply scale_up; lra.
Qed.

Lemma sqrt_scaled k q : 0 <= k -> 0 <= q -> sqrt (k ^ 4 * q) = k * k * sqrt q.
Proof.
  intros Hk Hq. replace (k ^ 4 * q) with ((k * k) * (k * k) * q) by ring.
  rewrite sqrt_mult_alt by nra. rewrite sqrt_square by nra. reflexivity.
Qed.

(** The computed length of a vector is its length up to three
    roundings. *)
Lemma rounded_length v :
  (1 - u) ^ 3 * Vector3.length (ofVec v) <= Floating.length A v
    <= (1 + u) ^ 3 * Vector3.length (ofVec v).
Proof.
  destruct v as [a b c]. unfold Floating.length, Vector3.length, Vector3.lengthSq, ofVec.
  cbn [Floating.x Floating.y Floating.z Vector3.x Vector3.y Vector3.z
       Arith.sqrt Arith.add Arith.mul Arith.rounded].
  destruct Hrnd as [[Hu0 Hu1] _].
  pose proof (rounded_sum_squares a b c) as Hs. cbn zeta in Hs.
  set (q := a * a + b * b + c * c) in *.
  set (s := rnd (rnd (rnd (a * a) + rnd (b * b)) + rnd (c * c))) in *.
  assert (Hq : 0 <= q).
  { unfold q. pose proof (Rle_0_sqr a). pose proof (Rle_0_sqr b). pose proof (Rle_0_sqr c).
    unfold Rsqr in *. lra. }
  assert (Hlo : (1 - u) * (1 - u) * sqrt q <= sqrt s).
  { rewrite <- sqrt_scaled by lra. apply sqrt_le_1_alt. lra. }
  assert (Hhi : sqrt s <= (1 + u) * (1 + u) * sqrt q).
  { rewrite <- sqrt_scaled by lra. apply sqrt_le_1_alt. lra. }
  pose proof (sqrt_pos q) as Hsq. pose proof (sqrt_pos s) as Hss.
  pose proof (rnd_nonneg rnd u Hrnd (sqrt s) Hss) as Hr.
  split.
  - apply Rle_trans with ((1 - u) * sqrt s); [|lra].
    replace ((1 - u) ^ 3 * sqrt q) with ((1 - u) * ((1 - u) * (1 - u) * sqrt q)) by ring.
    apply Rmult_le_compat_l; lra.
  - apply Rle_trans with ((1 + u) * sqrt s); [lra|].
    replace ((1 + u) ^ 3 * sqrt q) with ((1 + u) * ((1 + u) * (1 + u) * sqrt q)) by ring.
    apply Rmult_le_compat_l; lra.
Qed.

Lemma rounded_normalize_zero :
  Floating.normalize A (toVec Vector3.zero) = toVec Vector3.zero.
Proof.
  unfold Floating.normalize, Floating.multiplyScalar, Floating.length, toVec, Vector3.zero.
  cbn [Floating.x Floating.y Floating.z Vector3.x Vector3.y Vector3.z
       Arith.sqrt Arith.add Arith.mul Arith.div Arith.one Arith.falsy Arith.rounded].
  rewrite !Rmult_0_l, !(rnd_zero rnd u Hrnd). reflexivity.
Qed.

Lemma length_scaled_bounds (a b c ra rb rc k K : R) :
  0 <= k -> 0 <= K ->
  k * Rabs a <= Rabs ra <= K * Rabs a ->
  k * Rabs b <= Rabs rb <= K * Rabs b ->
  k * Rabs c <= Rabs rc <= K * Rabs c ->
  k * sqrt (a * a + b * b + c * c) <= sqrt (ra * ra + rb * rb + rc * rc)
    <= K * sqrt (a * a + b * b + c * c).
Proof.
  intros Hk HK Ha Hb Hc.
  assert (Sq : forall t, t * t = Rabs t * Rabs t).
  { intros t. unfold Rabs. destruct (Rcase_abs t); ring. }
  rewrite (Sq a), (Sq b), (Sq c), (Sq ra), (Sq rb), (Sq rc).
  pose proof (Rabs_pos a). pose proof (Rabs_pos b). pose proof (Rabs_pos c).
  pose proof (Rabs_pos ra). pose proof (Rabs_pos rb). pose proof (Rabs_pos rc).
  set (q := Rabs a * Rabs a + Rabs b * Rabs b + Rabs c * Rabs c).
  assert (Hq : 0 <= q) by (unfold q; nra).
  assert (Ek : k * sqrt q = sqrt (k * k * q)).
  { rewrite sqrt_mult_alt by nra. now rewrite sqrt_square. }
  assert (EK : K * sqrt q = sqrt (K * K * q)).
  { rewrite sqrt_mult_alt by nra. now rewrite sqrt_square. }
  assert (Mono : forall p r, 0 <= p <= r -> p * p <= r * r) by (intros p r Hpr; nra).
  assert (Pos : forall c t, 0 <= c -> 0 <= t -> 0 <= c * t)
    by (intros; now apply Rmult_le_pos).
  pose proof (Mono (k * Rabs a) (Rabs ra) (conj (Pos _ _ Hk H) (proj1 Ha))).
  pose proof (Mono (k * Rabs b) (Rabs rb) (conj (Pos _ _ Hk H0) (proj1 Hb))).
  pose proof (Mono (k * Rabs c) (Rabs rc) (conj (Pos _ _ Hk H1) (proj1 Hc))).
  pose proof (Mono (Rabs ra) (K * Rabs a) (conj H2 (proj2 Ha))).
  pose proof (Mono (Rabs rb) (K * Rabs b) (conj H3 (proj2 Hb))).
  pose proof (Mono (Rabs rc) (K * Rabs c) (conj H4 (proj2 Hc))).
  rewrite Ek, EK. unfold q. split; apply sqrt_le_1_alt; lra.
Qed.

(** The normal of a vector that is not zero has unit length up to the
    rounding of its computation. *)
Lemma rounded_normalize_unit v :
  v <> toVec Vector3.zero ->
  (1 - u) ^ 2 / (1 + u) ^ 3 <= Vector3.length (ofVec (Floating.normalize A v))
    <= (1 + u) ^ 2 / (1 - u) ^ 3.
Proof.
  intros Hv. destruct Hrnd as [[Hu0 Hu1] _].
  pose proof (rounded_length v) as Hlen.
  assert (HL : 0 < Vector3.length (ofVec v)).
  { pose proof (sqrt_pos (Vector3.lengthSq (ofVec v))) as Hp. fold (Vector3.length (ofVec v)) in Hp.
    destruct Hp as [Hp|Hp]; [exact Hp|]. symmetry in Hp. apply length_zero_iff in Hp.
    now apply ofVec_zero in Hv. }
  set (m := 1 - u) in *. set (M := 1 + u) in *.
  assert (Hm : 0 < m) by (unfold m; lra). assert (HM : 0 < M) by (unfold M; lra).
  assert (Hm3 : 0 < m ^ 3) by (apply pow_lt; exact Hm).
  assert (HM3 : 0 < M ^ 3) by (apply pow_lt; exact HM).
  set (L := Vector3.length (ofVec v)) in *.
  set (len := Floating.length A v) in *.
  assert (Hpos : 0 < len).
  { apply Rlt_le_trans with (m ^ 3 * L); [apply Rmult_lt_0_compat; assumption|lra]. }
  unfold Floating.normalize. fold len.
  cbn [Arith.falsy Arith.one Arith.div Arith.rounded].
  destruct (Req_dec_T len 0) as [E|_]; [lra|].
  set (inv := rnd (1 / len)).
  assert (Hinv : m / len <= inv <= M / len).
  { assert (H1 : 0 <= 1 / len) by (apply Rlt_le, Rdiv_lt_0_compat; lra).
    pose proof (rnd_nonneg rnd u Hrnd (1 / len) H1) as H. fold inv m M in H.
    unfold Rdiv in *. lra. }
  assert (Hil : m <= inv * len <= M).
  { split.
    - replace m with (m / len * len) by (field; lra). apply Rmult_le_compat_r; lra.
    - replace M with (M / len * len) by (field; lra). apply Rmult_le_compat_r; lra. }
  assert (Hi0 : 0 < inv).
  { apply Rlt_le_trans with (m / len); [apply Rdiv_lt_0_compat; lra|lra]. }
  destruct v as [a b c]. unfold Floating.multiplyScalar, ofVec.
  cbn [Floating.x Floating.y Floating.z Vector3.x Vector3.y Vector3.z
       Arith.mul Arith.rounded].
  unfold Vector3.length at 1 2, Vector3.lengthSq. cbn [Vector3.x Vector3.y Vector3.z].
  assert (Hc : forall t, m * inv * Rabs t <= Rabs (rnd (t * inv)) <= M * inv * Rabs t).
  { intros t. pose proof (rnd_abs rnd u Hrnd (t * inv)) as H. fold m M in H.
    rewrite Rabs_mult, (Rabs_pos_eq inv) in H by lra. lra. }
  pose proof (length_scaled_bounds a b c (rnd (a * inv)) (rnd (b * inv)) (rnd (c * inv))
                (m * inv) (M * inv)) as Hb.
  assert (EL : sqrt (a * a + b * b + c * c) = L) by reflexivity.
  rewrite EL in Hb.
  destruct Hb as [Hlo Hhi]; [nra|nra|apply Hc|apply Hc|apply Hc|].
  set (N' := sqrt _) in *.
  set (M3 := M ^ 3) in *. set (m3 := m ^ 3) in *.
  clearbody N' M3 m3 inv len L m M.
  split.
  - apply (Rmult_le_reg_r M3); [exact HM3|].
    replace (m ^ 2 / M3 * M3) with (m * m) by (field; lra).
    apply Rle_trans with (m * (inv * len)); [apply Rmult_le_compat_l; lra|].
    apply Rle_trans with (m * (inv * (M3 * L))).
    + apply Rmult_le_compat_l; [lra|]. apply Rmult_le_compat_l; lra.
    + replace (m * (inv * (M3 * L))) with (m * inv * L * M3) by ring.
      apply Rmult_le_compat_r; lra.
  - apply (Rmult_le_reg_r m3); [exact Hm3|].
    replace (M ^ 2 / m3 * m3) with (M * M) by (field; lra).
    apply Rle_trans with (M * inv * L * m3); [apply Rmult_le_compat_r; lra|].
    replace (M * inv * L * m3) with (M * (inv * (m3 * L))) by ring.
    apply Rmult_le_compat_l; [lra|].
    apply Rle_trans with (inv * len); [apply Rmult_le_compat_l; lra|lra].
Qed.
End RoundedNormal.

Section ExactFitter.
Local Open Scope R_scope.

Lemma fsum_exact ts s0 : fsum (fun a => a) ts s0 = s0 + Rsum ts.
Proof.
  revert s0. induction ts as [|t r IH]; intros s0; cbn [Rsum]; [unfold fsum; cbn; ring|].
  change (fsum (fun a => a) (t :: r) s0) with (fsum (fun a => a) r (s0 + t)).
  rewrite IH. ring.
Qed.

Lemma exact_run l :
  Floating.run Arith.exact (List.map toVec l) =
  Floating.mkAcc (toVec (Newell.n (Newell.run l)))
    (Newell.cx (Newell.run l)) (Newell.cy (Newell.run l)) (Newell.cz (Newell.run l)).
Proof.
  unfold Arith.exact. rewrite rounded_run, newell_run, !fsum_exact, !Rplus_0_l.
  reflexivity.
Qed.

Lemma exact_normalize v :
  Floating.normalize Arith.exact (toVec v) = toVec (Vector3.normalize v).
Proof.
  destruct v as [a b c].
  unfold Floating.normalize, Floating.multiplyScalar, Floating.length,
    Vector3.normalize, Vector3.divideScalar, Vector3.multiplyScalar, Vector3.length,
    Vector3.lengthSq, JS.or_default, toVec.
  cbn [Floating.x Floating.y Floating.z Vector3.x Vector3.y Vector3.z
       Arith.sqrt Arith.add Arith.mul Arith.div Arith.one Arith.falsy
       Arith.exact Arith.rounded].
  now destruct (Req_dec_T _ 0).
Qed.

(** The exact model of the fitter is the fitter in exact arithmetic. *)
Lemma exact_newellPlane l :
  Floating.newellPlane Arith.exact (List.map toVec l) =
  Floating.mkPlane (toVec (Newell.normal (newellPlane l)))
                   (toVec (Newell.origin (newellPlane l))).
Proof.
  unfold Floating.newellPlane, newellPlane. rewrite exact_run, List.length_map.
  cbn [Floating.n Floating.cx Floating.cy Floating.cz Newell.normal Newell.origin].
  now rewrite exact_normalize.
Qed.

(** Rounding without error is no rounding. *)
Lemma rounds_exact rnd : rounds rnd 0 -> rnd = (fun a => a).
Proof.
  intros [_ H]. apply functional_extensionality. intros a.
  specialize (H a). rewrite Rmult_0_l in H. apply Rabs_bound in H. lra.
Qed.
End ExactFitter.

Section PlaneClaims.
Local Open Scope R_scope.

(** C3, as amended.  The fitter is taken in an arithmetic that rounds
    every operation with a relative error of at most [u], which is
    floating-point arithmetic as long as nothing overflows or
    underflows.  The normal it returns is the zero vector when the
    accumulated vector is zero, and otherwise has unit length within
    the tolerance of five roundings.  On the reversed loop the centroid
    is the same and the accumulated vector is the negated one, each up
    to the rounding error of the sums, which is bounded by a share of
    the magnitudes of the summands: of the mean magnitude of the
    coordinate, and of the sum of the magnitudes of the Newell terms.
    In exact arithmetic, the case [u = 0], the fitter is the exact
    model [newellPlane], the reversed loop has the same centroid and
    the negated normal, and the normal has length 1 unless the
    accumulated vector is zero. *)
Theorem newellPlane_unit_normal_and_reversal rnd u l :
  rounds rnd u ->
  let fit := fun pts => Floating.newellPlane (Arith.rounded rnd) (List.map toVec pts) in
  let acc := fun pts => Floating.n (Floating.run (Arith.rounded rnd) (List.map toVec pts)) in
  let N := List.length l in
  (acc l = toVec Vector3.zero -> Floating.normal (fit l) = toVec Vector3.zero) /\
  (acc l <> toVec Vector3.zero ->
   (1 - u) ^ 2 / (1 + u) ^ 3 <= Vector3.length (ofVec (Floating.normal (fit l)))
     <= (1 + u) ^ 2 / (1 - u) ^ 3) /\
  (Rabs (Floating.x (Floating.origin (fit (List.rev l))) - Floating.x (Floating.origin (fit l)))
     <= 2 * drift u (N + 1) * meanAbs Vector3.x l /\
   Rabs (Floating.y (Floating.origin (fit (List.rev l))) - Floating.y (Floating.origin (fit l)))
     <= 2 * drift u (N + 1) * meanAbs Vector3.y l /\
   Rabs (Floating.z (Floating.origin (fit (List.rev l))) - Floating.z (Floating.origin (fit l)))
     <= 2 * drift u (N + 1) * meanAbs Vector3.z l) /\
  (Rabs (Floating.x (acc (List.rev l)) + Floating.x (acc l))
     <= 2 * drift u (N + 3) * loopSum magX l /\
   Rabs (Floating.y (acc (List.rev l)) + Floating.y (acc l))
     <= 2 * drift u (N + 3) * loopSum magY l /\
   Rabs (Floating.z (acc (List.rev l)) + Floating.z (acc l))
     <= 2 * drift u (N + 3) * loopSum magZ l) /\
  (u = 0 ->
   fit l = Floating.mkPlane (toVec (Newell.normal (newellPlane l)))
                            (toVec (Newell.origin (newellPlane l))) /\
   fit (List.rev l) =
     Floating.mkPlane (toVec (Vector3.negate (Newell.normal (newellPlane l))))
                      (toVec (Newell.origin (newellPlane l))) /\
   (Newell.n (Newell.run l) = Vector3.zero ->
    Newell.normal (newellPlane l) = Vector3.zero) /\
   (Newell.n (Newell.run l) <> Vector3.zero ->
    Vector3.length (Newell.normal (newellPlane l)) = 1)).
Proof.
  intros H. cbn zeta. split; [|split; [|split; [|split]]].
  - intros E. unfold Floating.newellPlane. cbn [Floating.normal]. rewrite E.
    apply (rounded_normalize_zero rnd u H).
  - intros NE. unfold Floating.newellPlane. cbn [Floating.normal].
    apply (rounded_normalize_unit rnd u H), NE.
  - rewrite Nat.add_1_r. apply (reversed_centroid rnd u H).
  - rewrite (Nat.add_comm (List.length l) 3). apply (reversed_accumulator rnd u H).
  - intros ->. rewrite (rounds_exact rnd H). fold Arith.exact.
    rewrite !exact_newellPlane, newellPlane_rev.
    cbn [Newell.normal Newell.origin].
    repeat split; [apply newellPlane_degenerate|apply newellPlane_unit].
Qed.

Lemma triangle_accumulator : Newell.n (Newell.run triangleLoop) = Vector3.mk 0 0 1.
Proof.
  rewrite newell_run. unfold loopSum, termX, termY, termZ. cbn. f_equal; ring.
Qed.

Lemma newellPlane_unit_normal_and_reversal_witness :
  rounds (fun a => a) 0 /\
  Floating.n (Floating.run Arith.exact (List.map toVec triangleLoop)) <> toVec Vector3.zero /\
  (1 - 0) ^ 2 / (1 + 0) ^ 3
    <= Vector3.length (ofVec (Floating.normal
         (Floating.newellPlane Arith.exact (List.map toVec triangleLoop))))
    <= (1 + 0) ^ 2 / (1 - 0) ^ 3.
Proof.
  assert (Hr : rounds (fun a => a) 0).
  { split; [lra|]. intros a. replace (a - a) with 0 by ring. rewrite Rabs_R0. lra. }
  assert (Hacc : Floating.n (Floating.run Arith.exact (List.map toVec triangleLoop))
                 <> toVec Vector3.zero).
  { rewrite exact_run, triangle_accumulator. cbn. intros E. injection E as E. lra. }
  split; [exact Hr|]. split; [exact Hacc|].
  exact (proj1 (proj2 (newellPlane_unit_normal_and_reversal (fun a => a) 0 triangleLoop Hr))
           Hacc).
Defined.

Lemma collinearLoop_on_line :
  List.map (toVector3 None) collinearLoop =
  List.map (onLine (Vector3.mk 0 0 0) (Vector3.mk 1 0 0)) [0; 1; 2].
Proof.
  unfold collinearLoop, onLine, Vector3.add, Vector3.multiplyScalar. cbn.
  repeat (f_equal; try ring).
Qed.
End PlaneClaims.

Section Binary64.
Import PrimFloat.
Local Open Scope float_scope.
#[local] Set Warnings "-inexact-float".

(** The claim of C3 fails in binary64, the arithmetic of the code.  For
    three points of the x-axis the fitter returns the zero vector, whose
    length is 0.  For three points close to a line the fitter returns
    the normal [(0, 0, 1)], and for the same points in reversed order a
    normal in another direction, which is neither that vector nor its
    negation; the two centroids differ in the last digits. *)
Lemma newellPlane_binary64_counterexample :
  Floating.newellPlane Arith.binary64 Samples64.onAxis
  = Floating.mkPlane (Floating.mkVec 0 0 0) (Floating.mkVec 1 0 0) /\
  Floating.newellPlane Arith.binary64 Samples64.nearLine
  = Floating.mkPlane (Floating.mkVec 0 0 1)
      (Floating.mkVec 0.20000000000000004 0.40000000000000008 0.59999999999999998) /\
  Floating.newellPlane Arith.binary64 (List.rev Samples64.nearLine)
  = Floating.mkPlane (Floating.mkVec 0 (-0.70710678118654746) (-0.70710678118654746))
      (Floating.mkVec 0.19999999999999998 0.39999999999999997 0.59999999999999998).
Proof. vm_compute. repeat split. Qed.

(** Three points that lie on one line exactly: rounding leaves an
    accumulated vector that is not zero, and the fitter returns a unit
    vector instead of the zero vector of the exact model. *)
Lemma newellPlane_binary64_collinear :
  Floating.n (Floating.run Arith.binary64 Samples64.doubled)
  = Floating.mkVec 2.2204460492503131e-16 (-1.1102230246251565e-16) 0 /\
  Floating.normal (Floating.newellPlane Arith.binary64 Samples64.doubled)
  = Floating.mkVec 0.89442719099991586 (-0.44721359549995793) 0.
Proof. vm_compute. split; reflexivity. Qed.
End Binary64.

(** * Local plane frames *)

Section Frames.
Local Open Scope R_scope.
Import Vector3.

(** [invert()] returns the inverse of every matrix with a non-zero
    determinant. *)
Lemma invert_is_inverse m :
  Matrix4.det m <> 0 ->
  forall i j, (i < 4)%nat -> (j < 4)%nat ->
    productEntry (Matrix4.invert m) m i j = (if Nat.eqb i j then 1 else 0).
Proof.
  intros Hd i j Hi Hj. unfold Matrix4.invert.
  destruct (Req_dec_T (Matrix4.det m) 0) as [E|_]; [contradiction|].
  unfold Matrix4.det, Matrix4.t11, Matrix4.t12, Matrix4.t13, Matrix4.t14 in *.
  destruct m. cbn in Hd.
  destruct i as [|[|[|[|i]]]]; try lia;
    destruct j as [|[|[|[|j]]]]; try lia;
    unfold productEntry, entry; cbn; field; exact Hd.
Qed.

Lemma applyTo_affine m p :
  affine m -> Matrix4.applyTo m p = Some (affineImage m p).
Proof.
  intros (H3 & H7 & H11 & H15). unfold Matrix4.applyTo, affineImage.
  rewrite H3, H7, H11, H15.
  destruct (Req_dec_T (0 * x p + 0 * y p + 0 * z p + 1) 0) as [E|_]; [lra|].
  f_equal. apply vec3_eq; cbn; field.
Qed.

(** The zero matrix sends every point to a point that is not finite. *)
Lemma applyTo_singular m p :
  Matrix4.det m = 0 -> Matrix4.applyTo (Matrix4.invert m) p = None.
Proof.
  intros Hd. unfold Matrix4.invert.
  destruct (Req_dec_T (Matrix4.det m) 0) as [_|NE]; [|contradiction].
  unfold Matrix4.applyTo; cbn.
  destruct (Req_dec_T (0 * x p + 0 * y p + 0 * z p + 0) 0) as [_|NE]; [reflexivity|].
  exfalso. apply NE. ring.
Qed.

Lemma invert_affine m : affine m -> Matrix4.det m <> 0 -> affine (Matrix4.invert m).
Proof.
  intros (H3 & H7 & H11 & H15) Hd. unfold Matrix4.invert.
  destruct (Req_dec_T (Matrix4.det m) 0) as [E|_]; [contradiction|].
  unfold affine, Matrix4.det, Matrix4.t11, Matrix4.t12, Matrix4.t13, Matrix4.t14 in *.
  destruct m; cbn in *. subst.
  repeat split; field; contradict Hd; lra.
Qed.

Lemma invert_left m p :
  affine m -> Matrix4.det m <> 0 ->
  affineImage (Matrix4.invert m) (affineImage m p) = p.
Proof.
  intros (H3 & H7 & H11 & H15) Hd. unfold affineImage, Matrix4.invert.
  destruct (Req_dec_T (Matrix4.det m) 0) as [E|_]; [contradiction|].
  unfold Matrix4.det, Matrix4.t11, Matrix4.t12, Matrix4.t13, Matrix4.t14 in *.
  destruct m, p; cbn in *. subst.
  apply vec3_eq; cbn; field; contradict Hd; lra.
Qed.

Lemma invert_right m p :
  affine m -> Matrix4.det m <> 0 ->
  affineImage m (affineImage (Matrix4.invert m) p) = p.
Proof.
  intros (H3 & H7 & H11 & H15) Hd. unfold affineImage, Matrix4.invert.
  destruct (Req_dec_T (Matrix4.det m) 0) as [E|_]; [contradiction|].
  unfold Matrix4.det, Matrix4.t11, Matrix4.t12, Matrix4.t13, Matrix4.t14 in *.
  destruct m, p; cbn in *. subst.
  apply vec3_eq; cbn; field; contradict Hd; lra.
Qed.
End Frames.

Section Basis.
Local Open Scope R_scope.
Import Vector3.

Lemma cross_dot_left a b : dot a (crossVectors a b) = 0.
Proof. unfold dot, crossVectors; cbn. ring. Qed.

Lemma lagrange a b :
  lengthSq (crossVectors a b) = lengthSq a * lengthSq b - dot a b * dot a b.
Proof. unfold lengthSq, dot, crossVectors; cbn. ring. Qed.

Lemma lengthSq_of_unit a : length a = 1 -> lengthSq a = 1.
Proof. intros H. rewrite <- length_sqr, H. ring. Qed.

Lemma unit_of_lengthSq a : lengthSq a = 1 -> length a = 1.
Proof. intros H. unfold length. rewrite H. apply sqrt_1. Qed.

Lemma dot_multiplyScalar a b s : dot a (multiplyScalar b s) = dot a b * s.
Proof. unfold dot, multiplyScalar; cbn. ring. Qed.

Lemma makeBasis_affine u v n o :
  affine (Matrix4.setPosition (Matrix4.makeBasis u v n) o).
Proof. unfold affine; cbn. repeat split; reflexivity. Qed.

Lemma det_makeBasis u n o :
  Matrix4.det (Matrix4.setPosition (Matrix4.makeBasis u (crossVectors n u) n) o) =
  lengthSq u * lengthSq n - dot n u * dot n u.
Proof.
  unfold Matrix4.det, Matrix4.t11, Matrix4.t12, Matrix4.t13, Matrix4.t14,
    lengthSq, dot, crossVectors; cbn. ring.
Qed.

(** The reference axis is never parallel to a unit normal. *)
Lemma reference_cross_nonzero n :
  length n = 1 ->
  crossVectors n (if JS.lt (Rabs (y n)) (9 / 10) then mk 0 1 0 else mk 1 0 0) <> zero.
Proof.
  intros Hn. apply lengthSq_of_unit in Hn. unfold lengthSq in Hn.
  intros E. apply (f_equal lengthSq) in E. revert E.
  destruct (JS.lt _ _) eqn:Hlt; unfold lengthSq, crossVectors, zero; cbn; intros E.
  - apply lt_true in Hlt. 
    assert (y n * y n < 81 / 100).
    { destruct (Rcase_abs (y n)) as [Hneg|Hpos].
      - rewrite (Rabs_left _ Hneg) in Hlt. nra.
      - rewrite (Rabs_right _ Hpos) in Hlt. nra. }
    nra.
  - apply lt_false in Hlt.
    assert (81 / 100 <= y n * y n).
    { destruct (Rcase_abs (y n)) as [Hneg|Hpos].
      - rewrite (Rabs_left _ Hneg) in Hlt. nra.
      - rewrite (Rabs_right _ Hpos) in Hlt. nra. }
    nra.
Qed.

(** For a unit normal, [buildBasis] returns an orthonormal right-handed
    frame: [u] and [v] are unit vectors, [u], [v], [n] are pairwise
    orthogonal, and [toWorld] has determinant 1. *)
Lemma buildBasis_orthonormal normal origin :
  length normal = 1 ->
  let b := buildBasis normal origin in
  Basis.n b = normal /\
  length (Basis.u b) = 1 /\ length (Basis.v b) = 1 /\
  dot (Basis.n b) (Basis.u b) = 0 /\ dot (Basis.n b) (Basis.v b) = 0 /\
  dot (Basis.u b) (Basis.v b) = 0 /\
  Basis.v b = crossVectors (Basis.n b) (Basis.u b) /\
  Matrix4.det (Basis.toWorld b) = 1.
Proof.
  intros Hn. unfold buildBasis. cbn zeta. cbn [Basis.n Basis.u Basis.v Basis.toWorld].
  rewrite (normalize_of_unit normal Hn).
  set (t := if JS.lt _ _ then _ else _).
  pose proof (reference_cross_nonzero normal Hn) as Hc. fold t in Hc.
  set (c := crossVectors normal t) in *.
  pose proof (normalize_unit c Hc) as Hu.
  destruct (normalize_nonzero c Hc) as [Eu Lc].
  set (u := normalize c) in *.
  assert (Hnu : dot normal u = 0).
  { rewrite Eu, dot_multiplyScalar. unfold c. rewrite cross_dot_left. ring. }
  assert (Hw : lengthSq (crossVectors normal u) = 1).
  { rewrite lagrange, Hnu, (lengthSq_of_unit _ Hn), (lengthSq_of_unit _ Hu). ring. }
  rewrite (normalize_of_unit _ (unit_of_lengthSq _ Hw)).
  repeat split; try assumption.
  - apply unit_of_lengthSq, Hw.
  - apply cross_dot_left.
  - unfold dot, crossVectors; cbn. ring.
  - rewrite det_makeBasis, Hnu, (lengthSq_of_unit _ Hn), (lengthSq_of_unit _ Hu). ring.
Qed.

(** The local coordinates of a world point in the frame of a unit
    normal are finite. *)
Lemma buildBasis_toLocal normal origin p :
  length normal = 1 ->
  let b := buildBasis normal origin in
  applyMatrix4 p (Basis.toLocal b) = Some (affineImage (Basis.toLocal b) p) /\
  applyMatrix4 p (Basis.toWorld b) = Some (affineImage (Basis.toWorld b) p) /\
  affineImage (Basis.toWorld b) (affineImage (Basis.toLocal b) p) = p /\
  affineImage (Basis.toLocal b) (affineImage (Basis.toWorld b) p) = p.
Proof.
  intros Hn b.
  assert (Hd : Matrix4.det (Basis.toWorld b) <> 0).
  { destruct (buildBasis_orthonormal normal origin Hn) as (_ & _ & _ & _ & _ & _ & _ & Hd).
    fold b in Hd. rewrite Hd. lra. }
  assert (Ha : affine (Basis.toWorld b)) by apply makeBasis_affine.
  unfold applyMatrix4.
  change (Basis.toLocal b) with (Matrix4.invert (Basis.toWorld b)).
  repeat split.
  - apply applyTo_affine. now apply invert_affine.
  - now apply applyTo_affine.
  - now apply invert_right.
  - now apply invert_left.
Qed.

(** The frame of a zero normal is singular: no point has finite local
    coordinates. *)
Lemma buildBasis_degenerate origin p :
  applyMatrix4 p (Basis.toLocal (buildBasis zero origin)) = None.
Proof.
  unfold applyMatrix4, buildBasis. cbn [Basis.toLocal].
  apply applyTo_singular.
  rewrite normalize_zero. cbn [y zero]. rewrite Rabs_R0.
  rewrite (proj2 (lt_true 0 (9 / 10))) by lra.
  assert (Ec : crossVectors zero (mk 0 1 0) = zero).
  { unfold crossVectors, zero; cbn. apply vec3_eq; cbn; ring. }
  rewrite Ec, normalize_zero.
  assert (Ec' : crossVectors zero zero = zero).
  { unfold crossVectors, zero; cbn. apply vec3_eq; cbn; ring. }
  rewrite Ec', normalize_zero.
  unfold Matrix4.det, Matrix4.t11, Matrix4.t12, Matrix4.t13, Matrix4.t14; cbn. ring.
Qed.

Lemma normalize_idempotent a : normalize (normalize a) = normalize a.
Proof.
  destruct (length_zero_iff a) as [_ Hz].
  destruct (Req_dec_T (length a) 0) as [E|NE].
  - apply length_zero_iff in E. subst. now rewrite !normalize_zero.
  - apply normalize_of_unit, normalize_unit. intros ->. apply NE. now apply Hz.
Qed.

(** C4.  For the frame built from a unit normal and any origin, mapping
    a point with [toLocal] and the result with [toWorld] returns the
    point, and so does mapping with [toWorld] and then [toLocal]: the two
    transforms are mutual inverses (and every intermediate point is
    finite). *)
Theorem buildBasis_roundtrip normal origin p :
  length normal = 1 ->
  let b := buildBasis normal origin in
  (exists l, applyMatrix4 p (Basis.toLocal b) = Some l /\
             applyMatrix4 l (Basis.toWorld b) = Some p) /\
  (exists w, applyMatrix4 p (Basis.toWorld b) = Some w /\
             applyMatrix4 w (Basis.toLocal b) = Some p).
Proof.
  intros Hn b.
  destruct (buildBasis_toLocal normal origin p Hn) as (Hl & Hw & Hlw & Hwl).
  fold b in Hl, Hw, Hlw, Hwl. split.
  - exists (affineImage (Basis.toLocal b) p). split; [exact Hl|].
    destruct (buildBasis_toLocal normal origin (affineImage (Basis.toLocal b) p) Hn)
      as (_ & Hw' & _). fold b in Hw'. now rewrite Hw', Hlw.
  - exists (affineImage (Basis.toWorld b) p). split; [exact Hw|].
    destruct (buildBasis_toLocal normal origin (affineImage (Basis.toWorld b) p) Hn)
      as (Hl' & _). fold b in Hl'. now rewrite Hl', Hwl.
Qed.

Lemma buildBasis_roundtrip_witness :
  length (mk 0 0 1) = 1 /\
  ((exists l, applyMatrix4 (mk 4 5 6) (Basis.toLocal (buildBasis (mk 0 0 1) (mk 1 2 3))) = Some l /\
              applyMatrix4 l (Basis.toWorld (buildBasis (mk 0 0 1) (mk 1 2 3))) = Some (mk 4 5 6)) /\
   (exists w, applyMatrix4 (mk 4 5 6) (Basis.toWorld (buildBasis (mk 0 0 1) (mk 1 2 3))) = Some w /\
              applyMatrix4 w (Basis.toLocal (buildBasis (mk 0 0 1) (mk 1 2 3))) = Some (mk 4 5 6))).
Proof.
  assert (H : length (mk 0 0 1) = 1).
  { apply unit_of_lengthSq. unfold lengthSq; cbn. ring. }
  split; [exact H|]. apply (buildBasis_roundtrip (mk 0 0 1) (mk 1 2 3) (mk 4 5 6) H).
Defined.
End Basis.

(** * Distance to the polygon boundary *)

Section Segment.
Local Open Scope R_scope.
Import Vector2.

Lemma vec2_eq (a b : Vector2.t) : x a = x b -> y a = y b -> a = b.
Proof. destruct a, b; cbn; intros; subst; reflexivity. Qed.

Lemma length2_zero p : length p = 0 -> p = mk 0 0.
Proof.
  unfold length. intros H. apply sqrt_eq_0 in H; [|nra].
  apply vec2_eq; cbn; nra.
Qed.

Lemma clampT_range p a b : 0 <= clampT p a b <= 1.
Proof.
  unfold clampT. split; [apply Rmax_l|].
  apply Rmax_lub; [lra|apply Rmin_l].
Qed.

Lemma pointToSegmentDistance2D_eq p a b :
  pointToSegmentDistance2D p a b =
  dist2 p (add a (multiplyScalar (subVectors b a) (clampT p a b))).
Proof.
  unfold pointToSegmentDistance2D, dist2, JS.hypot, length, subVectors, add,
    multiplyScalar, clampT. cbn.
  f_equal. ring.
Qed.

Lemma clamp_optimal (apx apy abx aby s : R) :
  0 <= s <= 1 ->
  let t := Rmax 0 (Rmin 1 ((apx * abx + apy * aby) /
             JS.or_default (abx * abx + aby * aby) (1 / 100000000))) in
  (apx - abx * t) * (apx - abx * t) + (apy - aby * t) * (apy - aby * t) <=
  (apx - abx * s) * (apx - abx * s) + (apy - aby * s) * (apy - aby * s).
Proof.
  intros Hs. 
  destruct (Req_dec_T (abx * abx + aby * aby) 0) as [E|NE].
  - assert (abx = 0) by nra. assert (aby = 0) by nra. subst. cbn. nra.
  - rewrite (or_default_nonzero _ _ NE).
    set (D := abx * abx + aby * aby) in *.
    set (dotp := apx * abx + apy * aby).
    assert (HD : 0 < D) by (unfold D in *; nra).
    set (t0 := dotp / D).
    assert (Ht0 : t0 * D = dotp) by (unfold t0; field; lra).
    intros t.
    assert (Hdiff : (apx - abx * s) * (apx - abx * s) + (apy - aby * s) * (apy - aby * s)
                  - ((apx - abx * t) * (apx - abx * t) + (apy - aby * t) * (apy - aby * t))
                  = D * (s - t) * (s + t - 2 * t0)).
    { replace (D * (s - t) * (s + t - 2 * t0))
        with (D * (s - t) * (s + t) - 2 * (s - t) * (t0 * D)) by ring.
      rewrite Ht0. unfold D, dotp. ring. }
    assert (0 <= D * (s - t) * (s + t - 2 * t0)); [|lra].
    fold t0 in t.
    destruct (Rle_dec 1 t0) as [H1|H1].
    + assert (Et : t = 1) by (unfold t; rewrite Rmin_left, Rmax_right; lra).
      rewrite Et.
      replace (D * (s - 1) * (s + 1 - 2 * t0)) with (D * ((1 - s) * (2 * t0 - s - 1))) by ring.
      apply Rmult_le_pos; [lra|]. apply Rmult_le_pos; lra.
    + destruct (Rle_dec 0 t0) as [H0|H0].
      * assert (Et : t = t0) by (unfold t; rewrite Rmin_right, Rmax_right; lra).
        rewrite Et.
        replace (D * (s - t0) * (s + t0 - 2 * t0)) with (D * ((s - t0) * (s - t0))) by ring.
        apply Rmult_le_pos; [lra|]. apply Rle_0_sqr.
      * assert (Et : t = 0) by (unfold t; rewrite Rmin_right, Rmax_left; lra).
        rewrite Et.
        replace (D * (s - 0) * (s + 0 - 2 * t0)) with (D * (s * (s - 2 * t0))) by ring.
        apply Rmult_le_pos; [lra|]. apply Rmult_le_pos; lra.
Qed.

Lemma pointToSegmentDistance2D_least p a b q :
  on_segment a b q -> pointToSegmentDistance2D p a b <= dist2 p q.
Proof.
  intros (s & Hs & ->).
  unfold pointToSegmentDistance2D, dist2, JS.hypot, length, subVectors, add,
    multiplyScalar. cbn.
  apply sqrt_le_1_alt.
  pose proof (clamp_optimal (x p - x a) (y p - y a) (x b - x a) (y b - y a) s Hs) as H.
  cbn zeta in H. 
  match goal with |- ?l <= ?r => 
    match type of H with ?l' <= ?r' => replace l with l' by ring; replace r with r' by ring end end.
  exact H.
Qed.

Lemma pointToSegmentDistance2D_attained p a b :
  exists q, on_segment a b q /\ dist2 p q = pointToSegmentDistance2D p a b.
Proof.
  exists (add a (multiplyScalar (subVectors b a) (clampT p a b))). split.
  - exists (clampT p a b). split; [apply clampT_range|reflexivity].
  - symmetry. apply pointToSegmentDistance2D_eq.
Qed.

(** Distance to a segment, as a bound: some point of the segment is that
    close. *)
Lemma pointToSegmentDistance2D_le p a b buf :
  pointToSegmentDistance2D p a b <= buf <->
  exists q, on_segment a b q /\ dist2 p q <= buf.
Proof.
  split.
  - intros H. destruct (pointToSegmentDistance2D_attained p a b) as (q & Hq & E).
    exists q. split; [exact Hq|lra].
  - intros (q & Hq & H). pose proof (pointToSegmentDistance2D_least p a b q Hq). lra.
Qed.

Lemma min_step_within p buf acc pi pj :
  within (min_step (Some p) acc (pi, pj)) buf = true <->
  within acc buf = true \/
  exists a b, pi = Some a /\ pj = Some b /\ pointToSegmentDistance2D p b a <= buf.
Proof.
  unfold min_step, segmentDistanceAt.
  destruct pj as [b|]; [destruct pi as [a|]|].
  - destruct acc as [m|]; cbn [within].
    + destruct (JS.lt _ m) eqn:Hlt; cbn [within]; rewrite !le_true.
      * apply lt_true in Hlt. split.
        -- intros H. right. exists a, b. auto.
        -- intros [H|(a' & b' & [= <-] & [= <-] & H)]; lra.
      * apply lt_false in Hlt. split; [auto|].
        intros [H|(a' & b' & [= <-] & [= <-] & H)]; lra.
    + rewrite le_true. split.
      * intros H. right. exists a, b. auto.
      * intros [H|(a' & b' & [= <-] & [= <-] & H)]; [discriminate|exact H].
  - split; [auto|]. intros [H|(a' & b' & E & _)]; [exact H|discriminate].
  - split; [auto|]. intros [H|(a' & b' & _ & E & _)]; [exact H|discriminate].
Qed.

Lemma within_fold p buf l acc :
  within (fold_left (min_step (Some p)) l acc) buf = true <->
  within acc buf = true \/
  exists pi pj, In (Some pi, Some pj) l /\ pointToSegmentDistance2D p pj pi <= buf.
Proof.
  revert acc. induction l as [|[pi pj] r IH]; intros acc; cbn [fold_left].
  - split; [auto|]. intros [H|(pi & pj & [] & _)]. exact H.
  - rewrite IH, min_step_within. clear IH. split.
    + intros [[H|(a & b & -> & -> & H)]|(qi & qj & Hin & H)]; [left; exact H| |].
      * right. exists a, b. split; [left; reflexivity|exact H].
      * right. exists qi, qj. split; [right; exact Hin|exact H].
    + intros [H|(qi & qj & [E|Hin] & H)]; [left; left; exact H| |].
      * injection E as -> ->. left; right. exists qi, qj. auto.
      * right. exists qi, qj. split; assumption.
Qed.

Lemma within_distanceToPolygon2D p poly buf :
  within (distanceToPolygon2D (Some p) poly) buf = true <-> near_boundary p poly buf.
Proof.
  unfold distanceToPolygon2D, near_boundary. rewrite within_fold. cbn [within]. split.
  - intros [H|(pi & pj & Hin & H)]; [discriminate|].
    apply pointToSegmentDistance2D_le in H. destruct H as (q & Hq & H).
    exists pi, pj, q. auto.
  - intros (pi & pj & q & Hin & Hq & H). right. exists pi, pj. split; [exact Hin|].
    apply pointToSegmentDistance2D_le. exists q. auto.
Qed.

(** A query point that is not finite is neither inside a polygon nor at
    any distance from it. *)
Lemma nonfinite_point_rejected poly buf :
  pointInPolygon2D None poly = false /\ within (distanceToPolygon2D None poly) buf = false.
Proof.
  unfold pointInPolygon2D, distanceToPolygon2D. split.
  - generalize (loop_pairs poly). intros l.
    induction l as [|[a b] r IH]; [reflexivity|exact IH].
  - generalize (loop_pairs poly). intros l.
    induction l as [|[a b] r IH]; [reflexivity|exact IH].
Qed.
End Segment.

(** * Ray casting against a pickable region *)

Section Raycast.
Local Open Scope R_scope.

Lemma plane_distance_at r pl d :
  Plane.distanceToPoint pl (Ray.at_ r d) =
  Vector3.dot (Ray.origin r) (Plane.normal pl) + Plane.constant pl
  + d * Vector3.dot (Plane.normal pl) (Ray.direction r).
Proof.
  unfold Plane.distanceToPoint, Ray.at_, Vector3.dot, Vector3.add, Vector3.multiplyScalar.
  cbn. ring.
Qed.

(** [distanceToPlane] finds exactly the parameter at which the ray
    reaches the plane. *)
Lemma distanceToPlane_meets r pl d :
  Ray.distanceToPlane r pl = Some d <-> meets r pl d.
Proof.
  unfold Ray.distanceToPlane, meets, crosses_plane, lies_in_plane.
  rewrite plane_distance_at.
  set (den := Vector3.dot (Plane.normal pl) (Ray.direction r)).
  set (k := Vector3.dot (Ray.origin r) (Plane.normal pl) + Plane.constant pl).
  assert (Hk : Plane.distanceToPoint pl (Ray.origin r) = k).
  { unfold k, Plane.distanceToPoint, Vector3.dot. ring. }
  rewrite Hk.
  destruct (Req_dec_T den 0) as [E|NE].
  - destruct (Req_dec_T k 0) as [Ek|NEk].
    + split.
      * intros [= <-]. right. auto.
      * intros [(H & _)|(_ & ->)]; [contradiction|reflexivity].
    + split; [discriminate|]. intros [(H & _)|((_ & H) & _)]; contradiction.
  - destruct (Rge_dec (- k / den) 0) as [G|NG].
    + split.
      * intros [= <-]. left. repeat split; [exact NE|lra|field; exact NE].
      * intros [(_ & _ & H)|((H & _) & _)]; [|contradiction].
        f_equal. field_simplify_eq; [lra|exact NE].
    + split; [discriminate|]. intros [(_ & Hd & H)|((H & _) & _)]; [|contradiction].
      exfalso. apply NG. replace (- k / den) with d; [lra|].
      field_simplify_eq; [lra|exact NE].
Qed.

Lemma meets_nonneg r pl d : meets r pl d -> 0 <= d.
Proof. intros [(_ & H & _)|(_ & ->)]; lra. Qed.

Lemma intersectPlane_meets r pl hit :
  Ray.intersectPlane r pl = Some hit <-> exists d, meets r pl d /\ hit = Ray.at_ r d.
Proof.
  unfold Ray.intersectPlane. split.
  - destruct (Ray.distanceToPlane r pl) as [d|] eqn:E; [|discriminate].
    intros [= <-]. exists d. split; [now apply distanceToPlane_meets|reflexivity].
  - intros (d & Hm & ->). apply distanceToPlane_meets in Hm. now rewrite Hm.
Qed.

(** The distance from the origin to the point at parameter [d] *)
Lemma distance_along_ray r d :
  0 <= d ->
  Vector3.distanceTo (Ray.origin r) (Ray.at_ r d) = d * Vector3.length (Ray.direction r).
Proof.
  intros Hd. unfold Vector3.distanceTo, Vector3.distanceToSquared, Ray.at_,
    Vector3.length, Vector3.lengthSq, Vector3.add, Vector3.multiplyScalar. cbn.
  set (dir := Ray.direction r).
  transitivity (sqrt (Rsqr d * (Vector3.x dir * Vector3.x dir
                  + Vector3.y dir * Vector3.y dir + Vector3.z dir * Vector3.z dir))).
  - f_equal. unfold Rsqr. ring.
  - rewrite sqrt_mult_alt by apply Rle_0_sqr. now rewrite sqrt_Rsqr.
Qed.

Lemma app_one_neq {A} (l : list A) (x : A) : l ++ [x] <> l.
Proof.
  intros H. apply (f_equal (@List.length A)) in H.
  rewrite List.length_app in H. cbn in H. lia.
Qed.

Lemma bounds_check dist near far :
  JS.lt dist near || JS.gt dist far = false <-> near <= dist <= far.
Proof.
  rewrite orb_false_iff, lt_false, gt_false. reflexivity.
Qed.

Lemma classifier_accepts this hit :
  pointInPolygon2D (project2 (toLocal this) hit) (poly2 this)
  || within (distanceToPolygon2D (project2 (toLocal this) hit) (poly2 this))
       (edgeBuffer this) = true <-> accepted this hit.
Proof.
  unfold accepted. destruct (project2 (toLocal this) hit) as [p2|].
  - rewrite orb_true_iff, within_distanceToPolygon2D, pointInPolygon2D_inside. split.
    + intros H. exists p2. auto.
    + intros (p & [= <-] & H). exact H.
  - destruct (nonfinite_point_rejected (poly2 this) (edgeBuffer this)) as [-> ->].
    cbn [orb]. split; [discriminate|]. intros (p & E & _). discriminate.
Qed.

(** The outcome of [raycast], case by case *)
Lemma raycast_cases this rc ints :
  let ray := Raycaster.ray rc in
  match Ray.distanceToPlane ray (plane this) with
  | None => raycast this rc ints = ints
  | Some d =>
    let hit := Ray.at_ ray d in
    let dist := Vector3.distanceTo (Ray.origin ray) hit in
    (Raycaster.near rc <= dist <= Raycaster.far rc /\ accepted this hit /\
     raycast this rc ints = ints ++ [mkIntersection this dist hit 0%Z (Vector2.mk 0 0)])
    \/ (~ (Raycaster.near rc <= dist <= Raycaster.far rc /\ accepted this hit) /\
        raycast this rc ints = ints)
  end.
Proof.
  cbn zeta. unfold raycast, Ray.intersectPlane.
  destruct (Ray.distanceToPlane _ _) as [d|]; [|reflexivity].
  destruct (JS.lt _ _ || JS.gt _ _) eqn:Hb.
  - right. split; [|reflexivity]. intros [H _]. apply bounds_check in H. congruence.
  - apply bounds_check in Hb.
    destruct (pointInPolygon2D _ _ || within _ _) eqn:Hc; cbn [negb].
    + left. apply classifier_accepts in Hc. auto.
    + right. split; [|reflexivity]. intros [_ H]. apply classifier_accepts in H. congruence.
Qed.

Lemma raycast_hit this rc ints d :
  meets (Raycaster.ray rc) (plane this) d ->
  Raycaster.near rc <= Vector3.distanceTo (Ray.origin (Raycaster.ray rc)) (Ray.at_ (Raycaster.ray rc) d)
    <= Raycaster.far rc ->
  accepted this (Ray.at_ (Raycaster.ray rc) d) ->
  raycast this rc ints =
  ints ++ [mkIntersection this
             (Vector3.distanceTo (Ray.origin (Raycaster.ray rc)) (Ray.at_ (Raycaster.ray rc) d))
             (Ray.at_ (Raycaster.ray rc) d) 0%Z (Vector2.mk 0 0)].
Proof.
  intros Hm Hb Ha. pose proof (raycast_cases this rc ints) as Hc. cbn zeta in Hc.
  apply distanceToPlane_meets in Hm. rewrite Hm in Hc.
  destruct Hc as [(_ & _ & E)|(Hn & _)]; [exact E|]. exfalso. apply Hn. now split.
Qed.

Lemma raycast_miss this rc ints d :
  meets (Raycaster.ray rc) (plane this) d ->
  ~ accepted this (Ray.at_ (Raycaster.ray rc) d) ->
  raycast this rc ints = ints.
Proof.
  intros Hm Ha. pose proof (raycast_cases this rc ints) as Hc. cbn zeta in Hc.
  apply distanceToPlane_meets in Hm. rewrite Hm in Hc.
  destruct Hc as [(_ & Ha' & _)|(_ & E)]; [contradiction|exact E].
Qed.

(** A ray parallel to the plane is rejected unless it lies inside the
    plane and the bound [near] admits distance 0. *)
Lemma raycast_parallel_rejected this rc ints :
  Vector3.dot (Plane.normal (plane this)) (Ray.direction (Raycaster.ray rc)) = 0 ->
  Plane.distanceToPoint (plane this) (Ray.origin (Raycaster.ray rc)) <> 0
  \/ 0 < Raycaster.near rc ->
  raycast this rc ints = ints.
Proof.
  intros Hpar Hor. unfold raycast, Ray.intersectPlane, Ray.distanceToPlane.
  destruct (Req_dec_T _ 0) as [_|NE]; [|contradiction].
  destruct (Req_dec_T _ 0) as [E|NE]; [|reflexivity].
  destruct Hor as [Hoff|Hnear]; [contradiction|].
  assert (Hd : Vector3.distanceTo (Ray.origin (Raycaster.ray rc))
                 (Ray.at_ (Raycaster.ray rc) 0) = 0).
  { rewrite distance_along_ray by lra. ring. }
  rewrite Hd. rewrite (proj2 (lt_true 0 (Raycaster.near rc)) Hnear). reflexivity.
Qed.

(** The outcome of [raycast] in terms of the geometry of the ray *)
Lemma raycast_outcomes this rc ints :
  let ray := Raycaster.ray rc in
  let dist := fun d => Vector3.distanceTo (Ray.origin ray) (Ray.at_ ray d) in
  (forall h, raycast this rc ints = ints ++ [h] <->
     exists d, meets ray (plane this) d /\
       Raycaster.near rc <= dist d <= Raycaster.far rc /\
       accepted this (Ray.at_ ray d) /\
       object h = this /\ point h = Ray.at_ ray d /\
       distance h = dist d /\
       distance h = d * Vector3.length (Ray.direction ray) /\
       faceIndex h = 0%Z /\ uv h = Vector2.mk 0 0)
  /\ ((exists h, raycast this rc ints = ints ++ [h]) \/ raycast this rc ints = ints)
  /\ (parallel_off_plane ray (plane this) -> raycast this rc ints = ints)
  /\ ((forall d, ~ meets ray (plane this) d) -> raycast this rc ints = ints)
  /\ (forall d, meets ray (plane this) d ->
        ~ Raycaster.near rc <= dist d <= Raycaster.far rc \/
        ~ accepted this (Ray.at_ ray d) ->
        raycast this rc ints = ints).
Proof.
  cbn zeta. pose proof (raycast_cases this rc ints) as Hc. cbn zeta in Hc.
  destruct (Ray.distanceToPlane _ _) as [d|] eqn:Hd.
  - assert (Hm : meets (Raycaster.ray rc) (plane this) d) by now apply distanceToPlane_meets.
    assert (Hd0 : 0 <= d) by now apply (meets_nonneg _ _ _ Hm).
    assert (Hoff : parallel_off_plane (Raycaster.ray rc) (plane this) ->
                   raycast this rc ints = ints).
    { intros (Hpar & Hne). destruct Hm as [(H & _)|((_ & H) & _)]; contradiction. }
    assert (Hno : (forall d', ~ meets (Raycaster.ray rc) (plane this) d') ->
                  raycast this rc ints = ints).
    { intros H. now destruct (H d). }
    destruct Hc as [(Hb & Ha & E)|(Hn & E)]; rewrite E.
    + split; [|split; [left; eexists; reflexivity|]].
      * intros h. split.
        -- intros H. apply app_inv_head in H. injection H as <-. exists d. cbn.
           split; [exact Hm|]. split; [exact Hb|]. split; [exact Ha|].
           repeat split. apply distance_along_ray, Hd0.
        -- intros (d' & Hm' & _ & _ & Ho & Hp & Hdist & _ & Hf & Hu).
           apply distanceToPlane_meets in Hm'. rewrite Hd in Hm'. injection Hm' as <-.
           destruct h; cbn in *. subst. reflexivity.
      * rewrite <- E. split; [exact Hoff|]. split; [exact Hno|].
        intros d' Hm' Hor. apply distanceToPlane_meets in Hm'. rewrite Hd in Hm'.
        injection Hm' as <-. destruct Hor as [H|H]; contradiction.
    + split; [|split; [right; reflexivity|]].
      * intros h. split.
        -- intros H. symmetry in H. now apply app_one_neq in H.
        -- intros (d' & Hm' & Hb & Ha & _).
           apply distanceToPlane_meets in Hm'. rewrite Hd in Hm'. injection Hm' as <-.
           exfalso. apply Hn. split; assumption.
      * repeat split; reflexivity.
  - rewrite Hc. split; [|split; [right; reflexivity|repeat split; reflexivity]].
    intros h. split.
    + intros H. symmetry in H. now apply app_one_neq in H.
    + intros (d' & Hm' & _). apply distanceToPlane_meets in Hm'. congruence.
Qed.

(** C1, as amended.  [raycast] appends a hit record exactly when the ray
    meets the fitted plane at a parameter [d] whose point lies at a
    distance within [[near, far]] from the ray origin and is in the
    region: its projection into the local frame is a finite point that
    is inside the projected polygon by the even-odd rule, or within
    [edgeBuffer] of a point of its boundary.  A ray that crosses the
    plane meets it where it crosses; a ray that lies in the plane meets
    it at its own origin, at distance 0.  The record carries this
    picker, the meeting point and its distance, which is [d] times the
    length of the ray direction.  In every other case [intersects] is
    returned as it was: for a ray that is parallel to the plane and off
    it, for a ray that does not meet the plane, for a distance out of
    bounds and for a point outside the region.  The function is total.
    For a region of three vertices, the points inside the polygon are
    the interior of the triangle: a point strictly inside the triangle
    is inside, a point strictly outside is not. *)
Theorem raycast_reports_hit_iff this rc ints :
  let ray := Raycaster.ray rc in
  let dist := fun d => Vector3.distanceTo (Ray.origin ray) (Ray.at_ ray d) in
  (forall h, raycast this rc ints = ints ++ [h] <->
     exists d, meets ray (plane this) d /\
       Raycaster.near rc <= dist d <= Raycaster.far rc /\
       accepted this (Ray.at_ ray d) /\
       object h = this /\ point h = Ray.at_ ray d /\
       distance h = dist d /\
       distance h = d * Vector3.length (Ray.direction ray) /\
       faceIndex h = 0%Z /\ uv h = Vector2.mk 0 0)
  /\ ((exists h, raycast this rc ints = ints ++ [h]) \/ raycast this rc ints = ints)
  /\ (parallel_off_plane ray (plane this) -> raycast this rc ints = ints)
  /\ ((forall d, ~ meets ray (plane this) d) -> raycast this rc ints = ints)
  /\ (forall d, meets ray (plane this) d ->
        ~ Raycaster.near rc <= dist d <= Raycaster.far rc \/
        ~ accepted this (Ray.at_ ray d) ->
        raycast this rc ints = ints)
  /\ (forall a b c p2, poly2 this = [Some a; Some b; Some c] ->
        (in_triangle a b c p2 -> inside_polygon p2 (poly2 this)) /\
        (off_triangle a b c p2 -> ~ inside_polygon p2 (poly2 this))).
Proof.
  cbn zeta.
  destruct (raycast_outcomes this rc ints) as (Hiff & Htotal & Hoff & Hnone & Hrej).
  cbn zeta in Hiff, Hrej.
  split; [exact Hiff|]. split; [exact Htotal|]. split; [exact Hoff|].
  split; [exact Hnone|]. split; [exact Hrej|].
  intros a b c p2 ->. apply inside_polygon_triangle.
Qed.
(** A ray that crosses the plane of a triangular region within the
    bounds, at a point whose projection is strictly inside the
    triangle, is reported; if the projection is strictly outside the
    triangle and farther than the buffer from its edges, it is not. *)
Lemma raycast_triangle this rc ints a b c d p2 :
  poly2 this = [Some a; Some b; Some c] ->
  crosses_plane (Raycaster.ray rc) (plane this) d ->
  Raycaster.near rc
    <= Vector3.distanceTo (Ray.origin (Raycaster.ray rc)) (Ray.at_ (Raycaster.ray rc) d)
    <= Raycaster.far rc ->
  project2 (toLocal this) (Ray.at_ (Raycaster.ray rc) d) = Some p2 ->
  (in_triangle a b c p2 -> raycast this rc ints <> ints) /\
  (off_triangle a b c p2 -> ~ near_boundary p2 (poly2 this) (edgeBuffer this) ->
   raycast this rc ints = ints).
Proof.
  intros Hpoly Hc Hb Hp.
  assert (Hm : meets (Raycaster.ray rc) (plane this) d) by now left.
  destruct (inside_polygon_triangle a b c p2) as [Hin Hout]. split.
  - intros Ht. rewrite (raycast_hit this rc ints d Hm Hb).
    + apply app_one_neq.
    + exists p2. split; [exact Hp|]. left. rewrite Hpoly. now apply Hin.
  - intros Ht Hfar. apply (raycast_miss this rc ints d Hm).
    intros (q & Hq & [H|H]); rewrite Hp in Hq; injection Hq as <-.
    + rewrite Hpoly in H. now apply Hout in H.
    + contradiction.
Qed.
End Raycast.

(** * The acceptance scenario on a square loop *)

Section Scenario.
Local Open Scope R_scope.
Import Vector3.

Lemma square_run : Newell.run squareLoop = Newell.mkAcc (mk 0 0 8) 4 4 0.
Proof.
  rewrite newell_run. unfold loopSum, termX, termY, termZ. cbn.
  f_equal; [f_equal|..]; ring.
Qed.

Lemma length_axis s : 0 < s -> length (mk 0 0 s) = s.
Proof.
  intros H. unfold length, lengthSq; cbn.
  replace (0 * 0 + 0 * 0 + s * s) with (s * s) by ring. apply sqrt_square. lra.
Qed.

Lemma square_plane : newellPlane squareLoop = Newell.mkPlane (mk 0 0 1) (mk 1 1 0).
Proof.
  unfold newellPlane. rewrite square_run. cbn [Newell.n Newell.cx Newell.cy Newell.cz].
  unfold normalize. rewrite (length_axis 8) by lra. rewrite or_default_nonzero by lra.
  change (INR (List.length squareLoop)) with (INR 4).
  replace (INR 4) with 4 by (cbn; ring).
  f_equal; apply vec3_eq; cbn; field.
Qed.

Lemma square_basis :
  let b := buildBasis (mk 0 0 1) (mk 1 1 0) in
  Basis.u b = mk (-1) 0 0 /\ Basis.v b = mk 0 (-1) 0 /\ Basis.n b = mk 0 0 1.
Proof.
  assert (Hn : length (mk 0 0 1) = 1) by (apply length_axis; lra).
  destruct (buildBasis_orthonormal (mk 0 0 1) (mk 1 1 0) Hn) as (En & _ & _ & _ & _ & _ & Ev & _).
  cbn zeta in *. 
  assert (Eu : Basis.u (buildBasis (mk 0 0 1) (mk 1 1 0)) = mk (-1) 0 0).
  { unfold buildBasis. cbn [Basis.u]. rewrite (normalize_of_unit _ Hn).
    cbn [y]. rewrite Rabs_R0. rewrite (proj2 (lt_true 0 (9 / 10))) by lra.
    assert (Ec : crossVectors (mk 0 0 1) (mk 0 1 0) = mk (-1) 0 0).
    { unfold crossVectors; cbn. apply vec3_eq; cbn; ring. }
    rewrite Ec. apply normalize_of_unit. apply unit_of_lengthSq. unfold lengthSq; cbn. ring. }
  split; [exact Eu|]. split; [|exact En].
  rewrite Ev, En, Eu. unfold crossVectors; cbn. apply vec3_eq; cbn; ring.
Qed.

(** Local coordinates in the frame of the square: a half-turn about the
    normal through the centroid [(1, 1, 0)] *)
Lemma square_toLocal p :
  applyMatrix4 p (Basis.toLocal (buildBasis (mk 0 0 1) (mk 1 1 0)))
  = Some (mk (1 - x p) (1 - y p) (z p)).
Proof.
  assert (Hn : length (mk 0 0 1) = 1) by (apply length_axis; lra).
  set (b := buildBasis (mk 0 0 1) (mk 1 1 0)).
  set (q := mk (1 - x p) (1 - y p) (z p)).
  assert (Hw : affineImage (Basis.toWorld b) q = p).
  { destruct square_basis as (Eu & Ev & En). fold b in Eu, Ev, En.
    assert (Etw : Basis.toWorld b =
                  Matrix4.setPosition (Matrix4.makeBasis (Basis.u b) (Basis.v b) (Basis.n b))
                                      (mk 1 1 0)) by reflexivity.
    rewrite Etw, Eu, Ev, En. unfold affineImage, q. cbn.
    apply vec3_eq; cbn; ring. }
  destruct (buildBasis_toLocal (mk 0 0 1) (mk 1 1 0) p Hn) as (Hl & _).
  destruct (buildBasis_toLocal (mk 0 0 1) (mk 1 1 0) q Hn) as (_ & _ & _ & Hwl).
  fold b in Hl, Hwl. rewrite Hl. f_equal. rewrite <- Hw at 1. exact Hwl.
Qed.

Lemma squarePicker_fields :
  plane squarePicker = Plane.mk (mk 0 0 1) 0 /\
  poly2 squarePicker = [Some (Vector2.mk 1 1); Some (Vector2.mk (-1) 1);
                        Some (Vector2.mk (-1) (-1)); Some (Vector2.mk 1 (-1))] /\
  toLocal squarePicker = Basis.toLocal (buildBasis (mk 0 0 1) (mk 1 1 0)) /\
  edgeBuffer squarePicker = 1 / 10.
Proof.
  unfold squarePicker, new_ToothPicker. rewrite square_plane.
  cbn [plane poly2 toLocal edgeBuffer Newell.normal Newell.origin].
  repeat split.
  - unfold Plane.setFromNormalAndCoplanarPoint, dot; cbn. f_equal. ring.
  - unfold squareLoop, project2. cbn [List.map]. rewrite !square_toLocal. cbn.
    repeat (f_equal; try (apply vec2_eq; cbn; ring)).
Qed.

Lemma rayDown_meets px py :
  meets (Raycaster.ray (rayDown px py)) (plane squarePicker) 5 /\
  Ray.at_ (Raycaster.ray (rayDown px py)) 5 = mk px py 0 /\
  distanceTo (Ray.origin (Raycaster.ray (rayDown px py))) (mk px py 0) = 5.
Proof.
  destruct squarePicker_fields as (Epl & _). rewrite Epl.
  assert (Eat : Ray.at_ (Raycaster.ray (rayDown px py)) 5 = mk px py 0).
  { unfold Ray.at_, rayDown, add, multiplyScalar; cbn. apply vec3_eq; cbn; ring. }
  split; [|split; [exact Eat|]].
  - left. unfold crosses_plane. rewrite Eat. unfold Plane.distanceToPoint, dot; cbn.
    split; [intros H; lra|]. split; [lra|ring].
  - unfold distanceTo, distanceToSquared; cbn.
    replace ((px - px) * (px - px) + (py - py) * (py - py) + (5 - 0) * (5 - 0))
      with (5 * 5) by ring.
    apply sqrt_square. lra.
Qed.

Lemma square_project px py :
  project2 (toLocal squarePicker) (mk px py 0) = Some (Vector2.mk (1 - px) (1 - py)).
Proof.
  destruct squarePicker_fields as (_ & _ & Etl & _). rewrite Etl.
  unfold project2. now rewrite square_toLocal.
Qed.

Lemma square_pairs :
  loop_pairs (poly2 squarePicker) =
  [(Some (Vector2.mk 1 1), Some (Vector2.mk 1 (-1)));
   (Some (Vector2.mk (-1) 1), Some (Vector2.mk 1 1));
   (Some (Vector2.mk (-1) (-1)), Some (Vector2.mk (-1) 1));
   (Some (Vector2.mk 1 (-1)), Some (Vector2.mk (-1) (-1)))].
Proof. destruct squarePicker_fields as (_ & Ep & _). rewrite Ep. reflexivity. Qed.

Ltac js_compare :=
  unfold JS.gt;
  repeat match goal with
         | |- context [JS.lt ?a ?b] =>
           first [ rewrite (proj2 (lt_true a b)) by lra
                 | rewrite (proj2 (lt_false a b)) by lra ]
         end.

Lemma square_inside_centre :
  pointInPolygon2D (Some (Vector2.mk (1 - 1) (1 - 1))) (poly2 squarePicker) = true.
Proof.
  unfold pointInPolygon2D. rewrite square_pairs. cbn [fold_left crossingAt].
  unfold crossing. cbn. js_compare. reflexivity.
Qed.

(** Scenario, inside: the ray through [(1, 1, 0)] is a hit at distance 5. *)
Lemma scenario_inside :
  raycast squarePicker (rayDown 1 1) [] =
  [mkIntersection squarePicker 5 (mk 1 1 0) 0%Z (Vector2.mk 0 0)].
Proof.
  destruct (rayDown_meets 1 1) as (Hm & Eat & Ed).
  rewrite (raycast_hit squarePicker (rayDown 1 1) [] 5 Hm); rewrite Eat, ?Ed.
  - reflexivity.
  - cbn. lra.
  - eexists. split; [apply square_project|]. left.
    apply pointInPolygon2D_inside. exact square_inside_centre.
Qed.

(** Scenario, near the rim: [(1, -0.05, 0)] is outside the square but
    within the buffer 0.1 of the edge from [(0, 0, 0)] to [(2, 0, 0)]. *)
Lemma scenario_near_edge :
  pointInPolygon2D (project2 (toLocal squarePicker) (mk 1 (- (5 / 100)) 0))
                   (poly2 squarePicker) = false /\
  raycast squarePicker (rayDown 1 (- (5 / 100))) [] =
  [mkIntersection squarePicker 5 (mk 1 (- (5 / 100)) 0) 0%Z (Vector2.mk 0 0)].
Proof.
  split.
  - rewrite square_project. unfold pointInPolygon2D. rewrite square_pairs.
    cbn [fold_left crossingAt]. unfold crossing. cbn. js_compare. reflexivity.
  - destruct (rayDown_meets 1 (- (5 / 100))) as (Hm & Eat & Ed).
    rewrite (raycast_hit squarePicker (rayDown 1 (- (5 / 100))) [] 5 Hm); rewrite Eat, ?Ed.
    + reflexivity.
    + cbn. lra.
    + eexists. split; [apply square_project|]. right.
      destruct squarePicker_fields as (_ & _ & _ & Eb). rewrite Eb.
      exists (Vector2.mk (-1) 1), (Vector2.mk 1 1), (Vector2.mk 0 1).
      split; [rewrite square_pairs; right; left; reflexivity|]. split.
      * exists (1 / 2). split; [lra|].
        unfold Vector2.add, Vector2.multiplyScalar, Vector2.subVectors; cbn.
        apply vec2_eq; cbn; field.
      * unfold dist2, Vector2.length, Vector2.subVectors; cbn.
        replace ((1 - 1 - 0) * (1 - 1 - 0) + (1 - - (5 / 100) - 1) * (1 - - (5 / 100) - 1))
          with ((5 / 100) * (5 / 100)) by field.
        rewrite sqrt_square; lra.
Qed.

(** Scenario, outside: [(1, -1, 0)] is neither inside nor within the
    buffer of the boundary, and the ray through it reports nothing. *)
Lemma scenario_outside :
  ~ accepted squarePicker (mk 1 (-1) 0) /\
  raycast squarePicker (rayDown 1 (-1)) [] = [].
Proof.
  assert (Hrej : ~ accepted squarePicker (mk 1 (-1) 0)).
  { unfold accepted. rewrite square_project.
    destruct squarePicker_fields as (_ & _ & _ & Eb). rewrite Eb.
    intros (p2 & [= <-] & [Hin|(pi & pj & q & Hin & (s & Hs & ->) & Hd)]).
    - apply pointInPolygon2D_inside in Hin.
      revert Hin. unfold pointInPolygon2D. rewrite square_pairs.
      cbn [fold_left crossingAt]. unfold crossing. cbn. js_compare. discriminate.
    - assert (Hy : Vector2.y pi <= 1 /\ Vector2.y pj <= 1).
      { rewrite square_pairs in Hin. cbn in Hin.
        destruct Hin as [E|[E|[E|[E|[]]]]]; injection E as <- <-; cbn; lra. }
      revert Hd. unfold dist2, Vector2.length, Vector2.subVectors, Vector2.add,
        Vector2.multiplyScalar; cbn.
      set (dx := 1 - 1 - _). set (dy := 1 - -1 - _).
      assert (Hdy : 1 <= dy) by (unfold dy; nra).
      intros Hd. assert (Hsq : 1 <= sqrt (dx * dx + dy * dy)); [|lra].
      rewrite <- sqrt_1. apply sqrt_le_1_alt. nra. }
  split; [exact Hrej|].
  destruct (rayDown_meets 1 (-1)) as (Hm & Eat & _).
  apply (raycast_miss squarePicker (rayDown 1 (-1)) [] 5 Hm). now rewrite Eat.
Qed.
(** The claim of C1 fails on a ray that lies in the plane of the square
    and starts at its centre: the ray is parallel to the plane, and it
    is reported as a hit at distance 0. *)
Lemma raycast_coplanar_ray_reported :
  dot (Plane.normal (plane squarePicker)) (Ray.direction (Raycaster.ray rayAlong)) = 0 /\
  raycast squarePicker rayAlong [] =
  [mkIntersection squarePicker 0 (mk 1 1 0) 0%Z (Vector2.mk 0 0)].
Proof.
  destruct squarePicker_fields as (Epl & _).
  assert (Hpar : dot (Plane.normal (plane squarePicker))
                     (Ray.direction (Raycaster.ray rayAlong)) = 0).
  { rewrite Epl. unfold dot; cbn. ring. }
  split; [exact Hpar|].
  assert (Eat : Ray.at_ (Raycaster.ray rayAlong) 0 = mk 1 1 0).
  { unfold Ray.at_, rayAlong, add, multiplyScalar; cbn. apply vec3_eq; cbn; ring. }
  assert (Ed : distanceTo (Ray.origin (Raycaster.ray rayAlong))
                 (Ray.at_ (Raycaster.ray rayAlong) 0) = 0).
  { rewrite distance_along_ray by lra. ring. }
  assert (Hm : meets (Raycaster.ray rayAlong) (plane squarePicker) 0).
  { right. split; [|reflexivity]. split; [exact Hpar|].
    rewrite Epl. unfold Plane.distanceToPoint, dot; cbn. ring. }
  rewrite (raycast_hit squarePicker rayAlong [] 0 Hm); rewrite ?Ed, ?Eat.
  - reflexivity.
  - cbn. lra.
  - eexists. split; [apply square_project|]. left.
    apply pointInPolygon2D_inside. exact square_inside_centre.
Qed.
End Scenario.

(** * Picker registry *)

Lemma pickerById_step_qualifies tp eb acc id t :
  qualifies t = true ->
  exists s, spline t = Some s /\ (3 <= List.length s)%nat /\
    pickerById_step tp eb acc (id, t) =
    acc ++ [setToothId (new_ToothPicker (num t) (List.map (toVector3 tp) s) eb) id (num t)].
Proof.
  unfold qualifies, pickerById_step.
  intros [Hp Hs]%andb_true_iff. rewrite Hp. cbn [negb].
  destruct (spline t) as [s|]; [|discriminate].
  exists s. apply Nat.leb_le in Hs.
  split; [reflexivity|]. split; [exact Hs|].
  destruct (Nat.ltb_spec (List.length s) 3) as [Hlt|_]; [lia|reflexivity].
Qed.

Lemma pickerById_step_skips tp eb acc id t :
  qualifies t = false -> pickerById_step tp eb acc (id, t) = acc.
Proof.
  unfold qualifies, pickerById_step. intros H.
  destruct (prep t =? 1)%Z; cbn [negb andb] in *; [|reflexivity].
  destruct (spline t) as [s|]; [|reflexivity].
  apply Nat.leb_gt in H.
  destruct (Nat.ltb_spec (List.length s) 3) as [_|Hge]; [reflexivity|lia].
Qed.

Lemma pickersById_ids tp eb entries acc :
  List.map (fun p => toothId (userData p))
    (fold_left (pickerById_step tp eb) entries acc) =
  List.map (fun p => toothId (userData p)) acc ++
  List.map (fun e => Some (fst e)) (List.filter (fun e => qualifies (snd e)) entries).
Proof.
  revert acc. induction entries as [|[id t] r IH]; intros acc; cbn [fold_left List.filter].
  - now rewrite app_nil_r.
  - rewrite IH. cbn [snd]. destruct (qualifies t) eqn:Hq.
    + destruct (pickerById_step_qualifies tp eb acc id t Hq) as (s & _ & _ & ->).
      rewrite List.map_app. cbn. now rewrite <- app_assoc.
    + now rewrite pickerById_step_skips.
Qed.

Lemma pickersById_poly tp eb entries acc :
  Forall (fun p => (3 <= List.length (poly2 p))%nat) acc ->
  Forall (fun p => (3 <= List.length (poly2 p))%nat)
    (fold_left (pickerById_step tp eb) entries acc).
Proof.
  revert acc. induction entries as [|[id t] r IH]; intros acc Hacc; cbn [fold_left].
  - exact Hacc.
  - apply IH. destruct (qualifies t) eqn:Hq.
    + destruct (pickerById_step_qualifies tp eb acc id t Hq) as (s & _ & Hlen & ->).
      apply Forall_app. split; [exact Hacc|].
      constructor; [|constructor]. cbn. now rewrite !List.length_map.
    + now rewrite pickerById_step_skips.
Qed.

(** C2.  The registry holds, in document order, one region per entry
    with [prep = 1] and a loop of at least three points, tagged with the
    entry's identifier; all other entries leave no trace, and every
    region's polygon has at least three vertices. *)
Theorem buildToothPickersById_one_per_defective_tooth json tp eb :
  List.map (fun p => toothId (userData p)) (buildToothPickersById json tp eb) =
    List.map (fun e => Some (fst e))
      (List.filter (fun e => qualifies (snd e)) (entriesOf json))
  /\ Forall (fun p => (3 <= List.length (poly2 p))%nat)
       (buildToothPickersById json tp eb).
Proof.
  unfold buildToothPickersById. fold (entriesOf json). split.
  - now rewrite pickersById_ids.
  - apply pickersById_poly. constructor.
Qed.

(** A two-point loop yields no region. *)
Lemma two_point_loop_no_region tp eb : buildToothPickersById twoPointDoc tp eb = [].
Proof. reflexivity. Qed.

(** * Degenerate loops in the registry *)

Section Registry.
Local Open Scope R_scope.

Lemma pickersById_eq tp eb entries acc :
  fold_left (pickerById_step tp eb) entries acc =
  acc ++ List.map (pickerOf tp eb) (List.filter (fun e => qualifies (snd e)) entries).
Proof.
  revert acc. induction entries as [|[id t] r IH]; intros acc; cbn [fold_left List.filter].
  - now rewrite app_nil_r.
  - rewrite IH. cbn [snd]. destruct (qualifies t) eqn:Hq.
    + destruct (pickerById_step_qualifies tp eb acc id t Hq) as (s & Hs & _ & ->).
      rewrite <- app_assoc. cbn [List.map app]. unfold pickerOf at 2. cbn [fst snd].
      now rewrite Hs.
    + now rewrite pickerById_step_skips.
Qed.

Lemma buildToothPickersById_eq json tp eb :
  buildToothPickersById json tp eb =
  List.map (pickerOf tp eb) (List.filter (fun e => qualifies (snd e)) (entriesOf json)).
Proof. unfold buildToothPickersById. fold (entriesOf json). now rewrite pickersById_eq. Qed.

Lemma degenerate_picker_normal num pts eb :
  Newell.n (Newell.run pts) = Vector3.zero ->
  Plane.normal (plane (new_ToothPicker num pts eb)) = Vector3.zero.
Proof. intros H. unfold new_ToothPicker. cbn. now apply newellPlane_degenerate. Qed.

Lemma picker_normal num pts eb :
  Plane.normal (plane (new_ToothPicker num pts eb)) = Newell.normal (newellPlane pts).
Proof. reflexivity. Qed.

(** C6, as amended.  A defective tooth whose loop has at least three
    points, all on one line, does not make the registry fail, and its
    loop is not treated defensively: region construction is not
    skipped.  The registry holds a region tagged with the tooth's
    identifier; the normal of the region's plane is the vector that the
    plane fitter returned for the loop, whatever it is, and the region's
    polygon has one vertex for each point of the loop. *)
Theorem collinear_loop_region_built json id t s eb :
  In (id, t) (entriesOf json) ->
  prep t = 1%Z -> spline t = Some s -> (3 <= List.length s)%nat -> collinear s ->
  exists picker,
    In picker (buildToothPickersById json None eb) /\
    toothId (userData picker) = Some id /\
    Plane.normal (plane picker)
      = Newell.normal (newellPlane (List.map (toVector3 None) s)) /\
    List.length (poly2 picker) = List.length s.
Proof.
  intros Hin Hp Hs Hlen _.
  exists (pickerOf None eb (id, t)). split; [|split; [reflexivity|]].
  - rewrite buildToothPickersById_eq. apply List.in_map, List.filter_In. split; [exact Hin|].
    unfold qualifies. cbn [snd]. rewrite Hp, Hs, Z.eqb_refl. cbn [andb]. now apply Nat.leb_le.
  - unfold pickerOf. cbn [snd fst]. rewrite Hs. cbn [plane poly2 setToothId].
    split; [apply picker_normal|].
    unfold new_ToothPicker. cbn [poly2]. now rewrite !List.length_map.
Qed.

Lemma collinearLoop_collinear : collinear collinearLoop.
Proof.
  exists (Vector3.mk 0 0 0), (Vector3.mk 1 0 0), [0; 1; 2]. apply collinearLoop_on_line.
Qed.

Lemma collinear_loop_region_built_witness :
  In ("11"%string, mkToothCenter 1 11 (1, 0, 0) (Some collinearLoop)) (entriesOf collinearDoc) /\
  (3 <= List.length collinearLoop)%nat /\ collinear collinearLoop /\
  exists picker,
    In picker (buildToothPickersById collinearDoc None 1) /\
    toothId (userData picker) = Some "11"%string /\
    Plane.normal (plane picker)
      = Newell.normal (newellPlane (List.map (toVector3 None) collinearLoop)) /\
    List.length (poly2 picker) = List.length collinearLoop.
Proof.
  assert (Hin : In ("11"%string, mkToothCenter 1 11 (1, 0, 0) (Some collinearLoop))
                   (entriesOf collinearDoc)) by (left; reflexivity).
  assert (Hlen : (3 <= List.length collinearLoop)%nat) by (cbn; lia).
  split; [exact Hin|]. split; [exact Hlen|]. split; [exact collinearLoop_collinear|].
  exact (collinear_loop_region_built collinearDoc "11"
           (mkToothCenter 1 11 (1, 0, 0) (Some collinearLoop)) collinearLoop 1
           Hin eq_refl eq_refl Hlen collinearLoop_collinear).
Defined.

(** The claim of C6 fails on [collinearDoc]: the loop of tooth "11" is
    three points of a line, yet the registry is not empty; it holds one
    region, tagged "11", with the zero vector as plane normal. *)
Lemma collinear_loop_region_not_skipped :
  collinear collinearLoop /\
  buildToothPickersById collinearDoc None 1 <> [] /\
  List.map (fun p => toothId (userData p)) (buildToothPickersById collinearDoc None 1)
    = [Some "11"%string] /\
  List.map (fun p => Plane.normal (plane p)) (buildToothPickersById collinearDoc None 1)
    = [Vector3.zero].
Proof.
  split; [exact collinearLoop_collinear|].
  rewrite buildToothPickersById_eq. cbn [entriesOf collinearDoc centers List.filter snd].
  assert (Hq : qualifies (mkToothCenter 1 11 (1, 0, 0) (Some collinearLoop)) = true)
    by reflexivity.
  rewrite Hq. cbn [List.map]. split; [discriminate|]. split; [reflexivity|].
  f_equal. unfold pickerOf. cbn [snd fst spline plane setToothId].
  apply degenerate_picker_normal. rewrite collinearLoop_on_line. apply newell_collinear.
Qed.
End Registry.

(** * Sleeve geometry builder *)

(** C8.  A spline with fewer than three points yields a null geometry
    and the component renders nothing. *)
Theorem sleeve_degenerate_spline spline wall height opacity hovered :
  (List.length spline < 3)%nat ->
  fst (Sleeve.memo spline wall height) = None /\
  Sleeve.HollowSleeveOnSpline spline wall height opacity hovered = None.
Proof.
  intros H. unfold Sleeve.HollowSleeveOnSpline, Sleeve.memo.
  rewrite List.length_map.
  destruct (Nat.ltb_spec (List.length spline) 3) as [_|Hge]; [|lia].
  split; reflexivity.
Qed.

Lemma sleeve_degenerate_spline_witness :
  (List.length [(0, 0, 0); (1, 0, 0)]%R < 3)%nat /\
  (fst (Sleeve.memo [(0, 0, 0); (1, 0, 0)]%R (8 / 10) 3) = None /\
   Sleeve.HollowSleeveOnSpline [(0, 0, 0); (1, 0, 0)]%R (8 / 10) 3 (7 / 10) false = None).
Proof.
  split; [cbn; lia|].
  apply (sleeve_degenerate_spline [(0, 0, 0); (1, 0, 0)]%R). cbn; lia.
Defined.

(** * Ordering the outer loop *)

Section OuterLoop.
Local Open Scope R_scope.
Context {A : Type} (key : A -> R).

Lemma insert_by_perm (cmp : A -> A -> R) x l : Permutation (Sleeve.insert_by cmp x l) (x :: l).
Proof.
  induction l as [|y r IH]; cbn; [reflexivity|].
  destruct (JS.lt (cmp y x) 0); [|reflexivity].
  rewrite IH. apply perm_swap.
Qed.

Lemma sort_by_perm (cmp : A -> A -> R) l : Permutation (Sleeve.sort_by cmp l) l.
Proof.
  induction l as [|x r IH]; cbn; [reflexivity|].
  change (Permutation (Sleeve.insert_by cmp x (Sleeve.sort_by cmp r)) (x :: r)).
  rewrite insert_by_perm. now constructor.
Qed.

Lemma insert_by_sorted x l :
  StronglySorted (fun a b => key a <= key b) l ->
  StronglySorted (fun a b => key a <= key b)
    (Sleeve.insert_by (fun a b => key a - key b) x l).
Proof.
  induction 1 as [|y r Hs IH Hall]; cbn.
  - repeat constructor.
  - destruct (JS.lt (key y - key x) 0) eqn:Hlt.
    + apply lt_true in Hlt. constructor; [exact IH|].
      rewrite (List.Forall_forall (fun b => key y <= key b)). intros b Hb.
      apply (Permutation_in _ (insert_by_perm _ x r)) in Hb. destruct Hb as [<-|Hb]; [lra|].
      rewrite (List.Forall_forall (fun b => key y <= key b)) in Hall. now apply Hall.
    + apply lt_false in Hlt. constructor; [now constructor|].
      constructor; [lra|].
      rewrite (List.Forall_forall (fun b => key y <= key b)) in Hall.
      rewrite (List.Forall_forall (fun b => key x <= key b)). intros b Hb.
      specialize (Hall b Hb). lra.
Qed.

Lemma sort_by_sorted l :
  StronglySorted (fun a b => key a <= key b) (Sleeve.sort_by (fun a b => key a - key b) l).
Proof.
  induction l as [|x r IH]; cbn; [constructor|].
  now apply insert_by_sorted.
Qed.
End OuterLoop.

Section OuterLoopAngles.
Local Open Scope R_scope.

End OuterLoopAngles.

(** * Inner loop of the sleeve *)

Section SleeveInner.
Local Open Scope R_scope.
Import Vector2.

(** The scale the code applies to the offset of an outer point that is
    not the centroid itself *)
Lemma innerPoint_scale c2 wall p :
  dist2 p c2 <> 0 ->
  Sleeve.innerPoint c2 wall p =
  add c2 (multiplyScalar (subVectors p c2) (Rmax 0 (1 - wall / dist2 p c2))).
Proof.
  unfold Sleeve.innerPoint, dist2. cbn zeta. intros NE. now rewrite or_default_nonzero.
Qed.

(** An outer point at the centroid stays there. *)
Lemma innerPoint_centre c2 wall p :
  dist2 p c2 = 0 -> p = c2 /\ Sleeve.innerPoint c2 wall p = c2.
Proof.
  unfold Sleeve.innerPoint, dist2. cbn zeta. intros E.
  apply length2_zero in E. rewrite E. unfold subVectors in E.
  apply (f_equal x) in E as Ex. apply (f_equal y) in E as Ey. cbn in Ex, Ey.
  split; apply vec2_eq; cbn; lra.
Qed.

Lemma innerPoint_on_segment c2 wall p :
  0 <= wall -> on_segment c2 p (Sleeve.innerPoint c2 wall p).
Proof.
  intros Hw. unfold Sleeve.innerPoint. cbn zeta.
  set (len := JS.or_default _ _).
  assert (Hlen : 0 < len).
  { unfold len, JS.or_default. destruct (Req_dec_T _ 0) as [E|NE]; [lra|].
    pose proof (sqrt_pos (x (subVectors p c2) * x (subVectors p c2)
                          + y (subVectors p c2) * y (subVectors p c2))) as Hp.
    unfold length in *. lra. }
  exists (Rmax 0 (1 - wall / len)). split; [|reflexivity].
  split; [apply Rmax_l|]. apply Rmax_lub; [lra|].
  assert (0 <= wall / len); [|lra].
  apply Rmult_le_pos; [exact Hw|]. left. now apply Rinv_0_lt_compat.
Qed.

Lemma allFinite_map {A B : Type} (f : A -> B) (l : list A) :
  Sleeve.allFinite (List.map (fun a => Some (f a)) l) = Some (List.map f l).
Proof. induction l as [|a r IH]; cbn; [reflexivity|]. now rewrite IH. Qed.

Lemma allFinite_none {A B : Type} (l : list A) :
  l <> [] -> Sleeve.allFinite (List.map (fun _ => @None B) l) = None.
Proof. destruct l; [contradiction|reflexivity]. Qed.

(** The sleeve builds the frame that [buildBasis] builds for the fitted
    plane. *)
Lemma sleeve_frame pts3 wall :
  let np := newellPlane pts3 in
  let b := buildBasis (Newell.normal np) (Newell.origin np) in
  Sleeve.buildLoops pts3 wall =
  (match Sleeve.allFinite (List.map (project2 (Basis.toLocal b)) pts3) with
   | Some pts2 => Some (Sleeve.planarLoops wall pts2)
   | None => None
   end, Basis.toWorld b).
Proof.
  cbn zeta. unfold Sleeve.buildLoops, buildBasis, newellPlane.
  cbn [Newell.normal Newell.origin Basis.toLocal Basis.toWorld].
  now rewrite normalize_idempotent.
Qed.

(** A loop with a non-zero Newell accumulator has finite loops, built
    from the local coordinates of its points. *)
Lemma sleeve_loops_finite pts3 wall :
  Newell.n (Newell.run pts3) <> Vector3.zero ->
  let np := newellPlane pts3 in
  let b := buildBasis (Newell.normal np) (Newell.origin np) in
  fst (Sleeve.buildLoops pts3 wall) =
  Some (Sleeve.planarLoops wall
          (List.map (fun p => let lp := affineImage (Basis.toLocal b) p in
                              mk (Vector3.x lp) (Vector3.y lp)) pts3)).
Proof.
  intros Hn. cbn zeta. rewrite sleeve_frame. cbn [fst].
  pose proof (newellPlane_unit pts3 Hn) as Hu.
  set (b := buildBasis _ _).
  assert (E : List.map (project2 (Basis.toLocal b)) pts3 =
              List.map (fun p => Some (let lp := affineImage (Basis.toLocal b) p in
                                       mk (Vector3.x lp) (Vector3.y lp))) pts3).
  { apply List.map_ext. intros p. unfold project2.
    destruct (buildBasis_toLocal _ (Newell.origin (newellPlane pts3)) p Hu) as (Hl & _).
    fold b in Hl. now rewrite Hl. }
  rewrite E. now rewrite (allFinite_map (fun p => let lp := affineImage (Basis.toLocal b) p in
                                                 mk (Vector3.x lp) (Vector3.y lp))).
Qed.

(** A loop with a zero accumulator has none: its projected points are
    not finite. *)
Lemma sleeve_loops_degenerate pts3 wall :
  Newell.n (Newell.run pts3) = Vector3.zero -> pts3 <> [] ->
  fst (Sleeve.buildLoops pts3 wall) = None.
Proof.
  intros Hn Hne. rewrite sleeve_frame. cbn [fst].
  rewrite (newellPlane_degenerate pts3 Hn).
  assert (E : List.map (project2 (Basis.toLocal
                 (buildBasis Vector3.zero (Newell.origin (newellPlane pts3))))) pts3 =
              List.map (fun _ => None) pts3).
  { apply List.map_ext. intros p. unfold project2. now rewrite buildBasis_degenerate. }
  rewrite E. now rewrite allFinite_none.
Qed.

(** C7.  For a wall thickness [wall >= 0] and a spline whose projected
    points are finite, the inner loop has one point per point of the
    angularly sorted outer loop.  For an outer point [p] at distance
    [dist > 0] from the 2D centroid [c2], the inner point is
    [c2 + (p - c2) * max(0, 1 - wall / dist)]; an outer point at the
    centroid is kept.  Every inner point lies on the segment from the
    centroid to its outer point. *)
Theorem sleeve_inner_loop pts3 wall l :
  0 <= wall ->
  fst (Sleeve.buildLoops pts3 wall) = Some l ->
  List.length (Sleeve.inner l) = List.length (Sleeve.outer l) /\
  forall i p, nth_error (Sleeve.outer l) i = Some p ->
    exists q, nth_error (Sleeve.inner l) i = Some q /\
      (dist2 p (Sleeve.c2 l) <> 0 ->
       q = add (Sleeve.c2 l)
               (multiplyScalar (subVectors p (Sleeve.c2 l))
                  (Rmax 0 (1 - wall / dist2 p (Sleeve.c2 l))))) /\
      (dist2 p (Sleeve.c2 l) = 0 -> q = Sleeve.c2 l) /\
      on_segment (Sleeve.c2 l) p q.
Proof.
  intros Hw Hl. unfold Sleeve.buildLoops in Hl. cbn [fst] in Hl.
  destruct (Sleeve.allFinite _) as [pts2|]; [|discriminate].
  injection Hl as <-. unfold Sleeve.planarLoops.
  cbn [Sleeve.inner Sleeve.outer Sleeve.c2].
  split; [apply List.length_map|].
  intros i p Hp. eexists. split; [apply List.map_nth_error, Hp|].
  split; [apply innerPoint_scale|].
  split; [apply innerPoint_centre|now apply innerPoint_on_segment].
Qed.

Lemma sleeve_inner_loop_witness :
  0 <= 8 / 10 /\
  exists l, fst (Sleeve.buildLoops triangleLoop (8 / 10)) = Some l /\
   (List.length (Sleeve.inner l) = List.length (Sleeve.outer l) /\
    forall i p, nth_error (Sleeve.outer l) i = Some p ->
      exists q, nth_error (Sleeve.inner l) i = Some q /\
        (dist2 p (Sleeve.c2 l) <> 0 ->
         q = add (Sleeve.c2 l)
                 (multiplyScalar (subVectors p (Sleeve.c2 l))
                    (Rmax 0 (1 - 8 / 10 / dist2 p (Sleeve.c2 l))))) /\
        (dist2 p (Sleeve.c2 l) = 0 -> q = Sleeve.c2 l) /\
        on_segment (Sleeve.c2 l) p q).
Proof.
  assert (H : 0 <= 8 / 10) by lra.
  assert (Hn : Newell.n (Newell.run triangleLoop) <> Vector3.zero).
  { rewrite triangle_accumulator. intros E. apply (f_equal Vector3.z) in E. cbn in E. lra. }
  split; [exact H|]. eexists. split; [exact (sleeve_loops_finite triangleLoop (8 / 10) Hn)|].
  exact (sleeve_inner_loop triangleLoop (8 / 10) _ H
           (sleeve_loops_finite triangleLoop (8 / 10) Hn)).
Defined.

(** The hole of the extruded shape is the inner loop, reversed; the
    shape is missing exactly when the loops are. *)
Lemma sleeve_memo_shape spline wall height g m :
  Sleeve.memo spline wall height = (Some g, m) ->
  let pts3 := List.map (fun '(x, y, z) => Vector3.mk x y z) spline in
  (3 <= List.length spline)%nat /\
  Sleeve.shape g =
    match fst (Sleeve.buildLoops pts3 wall) with
    | Some l => Some (Sleeve.mkShape (Sleeve.outer l) [List.rev (Sleeve.inner l)])
    | None => None
    end /\
  Sleeve.depth g = height /\ m = snd (Sleeve.buildLoops pts3 wall).
Proof.
  unfold Sleeve.memo. rewrite List.length_map.
  destruct (Nat.ltb_spec (List.length spline) 3) as [Hlt|Hge]; [discriminate|].
  destruct (Sleeve.buildLoops _ wall) as [l tw]. intros [= <- <-]. cbn.
  repeat split; [exact Hge].
Qed.
End SleeveInner.

(** * Editing display numbers *)

Section Editing.
Import Heap Viewer.

Lemma changeNumUpdater_edit (h : gmap addr obj) d lower tb entries id n a t :
  h !! d = Some (Doc lower (Some tb)) ->
  h !! tb = Some (Table entries) ->
  lookup_id id entries = Some a ->
  h !! a = Some (Tooth t) ->
  exists d' tb' h',
    changeNumUpdater id n h (Some d) = (h', Some d') /\
    (d' ∉ dom h) /\ (tb' ∉ dom h) /\ d' <> tb' /\
    h' !! d' = Some (Doc lower (Some tb')) /\
    h' !! tb' = Some (Table entries) /\
    h' !! a = Some (setNum n (Tooth t)) /\
    (forall b, b <> a -> b ∈ dom h -> h' !! b = h !! b).
Proof.
  intros Hd Htb Hid Ha. unfold changeNumUpdater, alloc. rewrite Hd, Htb, Hid.
  set (tb' := fresh (dom h)).
  set (h1 := <[tb' := Table entries]> h).
  set (d' := fresh (dom h1)).
  assert (Ftb : tb' ∉ dom h) by apply is_fresh.
  assert (Fd1 : d' ∉ dom h1) by apply is_fresh.
  assert (Fd : d' ∉ dom h).
  { intros Hin. apply Fd1. unfold h1. rewrite dom_insert_L. set_solver. }
  assert (Ne : d' <> tb').
  { intros E. apply Fd1. unfold h1. rewrite dom_insert_L, E. set_solver. }
  assert (Na_tb : tb' <> a).
  { intros E. apply Ftb. rewrite E. eapply elem_of_dom_2, Ha. }
  assert (Na_d : d' <> a).
  { intros E. apply Fd. rewrite E. eapply elem_of_dom_2, Ha. }
  exists d', tb', (alter (setNum n) a (<[d' := Doc lower (Some tb')]> h1)).
  split; [reflexivity|]. repeat split; try assumption.
  - rewrite lookup_alter_ne by congruence. apply lookup_insert_eq.
  - rewrite lookup_alter_ne by congruence. rewrite lookup_insert_ne by exact Ne.
    apply lookup_insert_eq.
  - rewrite lookup_alter_eq, lookup_insert_ne by exact Na_d.
    unfold h1. rewrite lookup_insert_ne by exact Na_tb. now rewrite Ha.
  - intros b Hb Hin. rewrite lookup_alter_ne by congruence.
    rewrite lookup_insert_ne by (intros E; apply Fd; now rewrite E).
    unfold h1. apply lookup_insert_ne. intros E; apply Ftb; now rewrite E.
Qed.

Lemma toothOf_inv (h : gmap addr obj) d id a t :
  toothOf h d id = Some (a, t) ->
  exists lower tb entries,
    h !! d = Some (Doc lower (Some tb)) /\ h !! tb = Some (Table entries) /\
    lookup_id id entries = Some a /\ h !! a = Some (Tooth t).
Proof.
  unfold toothOf, readTooth.
  destruct (h !! d) as [[lower [tb|]| |]|] eqn:Hd; try discriminate.
  destruct (h !! tb) as [[| entries |]|] eqn:Htb; try discriminate.
  destruct (lookup_id id entries) as [a'|] eqn:Hid; try discriminate.
  destruct (h !! a') as [[| | t']|] eqn:Ha; try discriminate.
  intros [= <- <-]. exists lower, tb, entries. auto.
Qed.

Lemma toothOf_intro (h : gmap addr obj) d id a t lower tb entries :
  h !! d = Some (Doc lower (Some tb)) -> h !! tb = Some (Table entries) ->
  lookup_id id entries = Some a -> h !! a = Some (Tooth t) ->
  toothOf h d id = Some (a, t).
Proof.
  intros Hd Htb Hid Ha. unfold toothOf, readTooth. now rewrite Hd, Htb, Hid, Ha.
Qed.

(** What an edit does to the store: the new document and its table are
    new objects, but the table holds the old references, and the record
    of the edited tooth is overwritten where it is.  Hence the document
    the edit started from shows the new number too. *)
Lemma changeNumUpdater_shares_records (h : gmap addr obj) d id n a t :
  toothOf h d id = Some (a, t) ->
  exists d' h',
    changeNumUpdater id n h (Some d) = (h', Some d') /\
    d' <> d /\
    toothOf h' d' id = Some (a, mkToothCenter (prep t) n (center t) (spline t)) /\
    toothOf h' d id = Some (a, mkToothCenter (prep t) n (center t) (spline t)).
Proof.
  intros Ht. destruct (toothOf_inv _ _ _ _ _ Ht) as (lower & tb & entries & Hd & Htb & Hid & Ha).
  destruct (changeNumUpdater_edit h d lower tb entries id n a t Hd Htb Hid Ha)
    as (d' & tb' & h' & E & Fd & Ftb & Ne & Hd' & Htb' & Ha' & Hother).
  exists d', h'. split; [exact E|].
  assert (Da : d <> a) by (intros Eq; rewrite Eq, Ha in Hd; discriminate).
  assert (Ta : tb <> a) by (intros Eq; rewrite Eq, Ha in Htb; discriminate).
  split; [intros Eq; apply Fd; rewrite Eq; eapply elem_of_dom_2, Hd|].
  split.
  - apply (toothOf_intro h' d' id a _ lower tb' entries); assumption.
  - apply (toothOf_intro h' d id a _ lower tb entries); try assumption.
    + rewrite Hother; [exact Hd|exact Da|eapply elem_of_dom_2, Hd].
    + rewrite Hother; [exact Htb|exact Ta|eapply elem_of_dom_2, Htb].
Qed.

(** The records of the other teeth are left as they were. *)
Lemma changeNumUpdater_siblings (h : gmap addr obj) d id n a t k b tk :
  toothOf h d id = Some (a, t) -> toothOf h d k = Some (b, tk) -> b <> a ->
  exists d' h',
    changeNumUpdater id n h (Some d) = (h', Some d') /\
    toothOf h' d' k = Some (b, tk) /\ toothOf h' d k = Some (b, tk).
Proof.
  intros Ht Hk Hne.
  destruct (toothOf_inv _ _ _ _ _ Ht) as (lower & tb & entries & Hd & Htb & Hid & Ha).
  destruct (toothOf_inv _ _ _ _ _ Hk) as (lower' & tb2 & entries' & Hd2 & Htb2 & Hidk & Hb).
  rewrite Hd in Hd2. injection Hd2 as <- <-. rewrite Htb in Htb2. injection Htb2 as <-.
  destruct (changeNumUpdater_edit h d lower tb entries id n a t Hd Htb Hid Ha)
    as (d' & tb' & h' & E & Fd & Ftb & Ne & Hd' & Htb' & Ha' & Hother).
  exists d', h'. split; [exact E|].
  assert (Da : d <> a) by (intros Eq; rewrite Eq, Ha in Hd; discriminate).
  assert (Ta : tb <> a) by (intros Eq; rewrite Eq, Ha in Htb; discriminate).
  assert (Hb' : h' !! b = Some (Tooth tk)).
  { rewrite Hother; [exact Hb|exact Hne|eapply elem_of_dom_2, Hb]. }
  split.
  - apply (toothOf_intro h' d' k b _ lower tb' entries); assumption.
  - apply (toothOf_intro h' d k b _ lower tb entries); try assumption.
    + rewrite Hother; [exact Hd|exact Da|eapply elem_of_dom_2, Hd].
    + rewrite Hother; [exact Htb|exact Ta|eapply elem_of_dom_2, Htb].
Qed.

Lemma changeNumA_unfold id n s :
  changeNumA id n s =
  mkPage (fst (changeNumUpdater id n (heap s) (mesh1Local s)))
         (snd (changeNumUpdater id n (heap s) (mesh1Local s))) (mesh2Local s).
Proof. unfold changeNumA. now destruct (changeNumUpdater _ _ _ _). Qed.

Lemma page0_toothA : toothOf heap0 1%positive "a" = Some (3%positive, toothA).
Proof. reflexivity. Qed.

Lemma page0_toothB : toothOf heap0 1%positive "b" = Some (4%positive, toothB).
Proof. reflexivity. Qed.

(** C5 on [page0].  After the edit the state variable holds a new
    document object, but that object and the document the page started
    from name the same record (address 3) for tooth "a", and the number
    read through the old document has changed with it: the record was
    overwritten in place.  The record of tooth "b" is untouched. *)
Theorem changeNumA_mutates_original_record :
  toothOf (heap page0) 1%positive "a" = Some (3%positive, toothA) /\
  exists d',
    mesh1Local (changeNumA "a" 9 page0) = Some d' /\ d' <> 1%positive /\
    toothOf (heap (changeNumA "a" 9 page0)) d' "a"
      = Some (3%positive, toothA9) /\
    toothOf (heap (changeNumA "a" 9 page0)) 1%positive "a"
      = Some (3%positive, toothA9) /\
    toothOf (heap (changeNumA "a" 9 page0)) 1%positive "b" = Some (4%positive, toothB).
Proof.
  split; [exact page0_toothA|].
  destruct (changeNumUpdater_shares_records heap0 1%positive "a" 9 _ _ page0_toothA)
    as (d' & h' & E & Hne & Hnew & Hold).
  destruct (changeNumUpdater_siblings heap0 1%positive "a" 9 _ _ "b" _ _
              page0_toothA page0_toothB ltac:(discriminate))
    as (d2 & h2 & E2 & _ & Hsib).
  rewrite E in E2. injection E2 as <- <-.
  rewrite changeNumA_unfold. change (heap page0) with heap0.
  change (mesh1Local page0) with (Some 1%positive). rewrite E. cbn [heap mesh1Local fst snd].
  exists d'. repeat split; assumption.
Qed.
End Editing.

(** * Committing a display-number edit *)

Section Blur.
Import Heap Viewer.

Section Builtins.
Local Open Scope R_scope.
Variable trim : string -> string.
Variable Number : string -> option R.

Lemma setError_lookup id msg a :
  errors (setError id msg a) !! id = Some (Some msg) /\ drafts (setError id msg a) = drafts a.
Proof. unfold setError; cbn. split; [apply lookup_insert_eq|reflexivity]. Qed.

(** C9.  On blur of a selected tooth's field: a draft that is blank, or
    that [Number] does not turn into a finite number, or whose number is
    below 1 or above 16, sets the field's error message and leaves the
    drafts, the store and the documents as they were; a draft whose
    number lies in 1..16 and differs from the current one is committed,
    and the record of that tooth in the new document carries the new
    number. *)
Theorem handleBlur_validates id currentNum a page :
  let raw := match drafts a !! id with Some r => r | None => ""%string end in
  let s' := handleBlur trim Number changeNumA id true currentNum (a, page) in
  ((trim raw = ""%string \/ Number raw = None \/
    (exists n, Number raw = Some n /\ (n < 1 \/ 16 < n))) ->
     errors (fst s') !! id =
       Some (Some (if String.eqb (trim raw) "" then "Required (1–16)"
                   else "Must be 1–16")%string) /\
     drafts (fst s') = drafts a /\ snd s' = page)
  /\
  (forall n d ad t,
     trim raw <> ""%string -> Number raw = Some n -> 1 <= n <= 16 -> n <> currentNum ->
     mesh1Local page = Some d -> toothOf (heap page) d id = Some (ad, t) ->
     fst s' = a /\
     exists d', mesh1Local (snd s') = Some d' /\
       toothOf (heap (snd s')) d' id
         = Some (ad, mkToothCenter (prep t) n (center t) (spline t))).
Proof.
  cbn zeta. unfold handleBlur. cbn [negb].
  set (raw := match drafts a !! id with Some r => r | None => ""%string end).
  split.
  - intros Hrej. destruct (String.eqb_spec (trim raw) "") as [E|NE].
    + cbn [fst snd]. destruct (setError_lookup id "Required (1–16)" a) as [H1 H2].
      split; [exact H1|]. split; [exact H2|reflexivity].
    + destruct Hrej as [E|[E|(n & E & Hn)]]; [contradiction| |]; rewrite E.
      * cbn [fst snd]. destruct (setError_lookup id "Must be 1–16" a) as [H1 H2].
        split; [exact H1|]. split; [exact H2|reflexivity].
      * assert (Hb : JS.lt n 1 || JS.gt n 16 = true).
        { apply orb_true_iff. destruct Hn; [left; now apply lt_true|right; now apply gt_true]. }
        rewrite Hb. cbn [fst snd].
        destruct (setError_lookup id "Must be 1–16" a) as [H1 H2].
        split; [exact H1|]. split; [exact H2|reflexivity].
  - intros n d ad t NE E Hn Hcur Hd Ht.
    destruct (String.eqb_spec (trim raw) "") as [E0|_]; [contradiction|].
    rewrite E.
    assert (Hb : JS.lt n 1 || JS.gt n 16 = false).
    { apply orb_false_iff. split; [apply lt_false|apply gt_false]; lra. }
    rewrite Hb. destruct (Req_dec_T n currentNum) as [Eq|_]; [contradiction|].
    cbn [fst snd]. split; [reflexivity|].
    destruct (changeNumUpdater_shares_records (heap page) d id n ad t Ht)
      as (d' & h' & Eu & _ & Hnew & _).
    rewrite changeNumA_unfold, Hd, Eu. cbn [fst snd heap mesh1Local].
    exists d'. split; [reflexivity|exact Hnew].
Qed.
End Builtins.

Lemma typed_17 : drafts (typed "17") !! "a"%string = Some "17"%string.
Proof. unfold typed, handleChange. cbn [orb String.eqb digitsOnly]. apply lookup_insert_eq. Qed.

Lemma typed_9 : drafts (typed "9") !! "a"%string = Some "9"%string.
Proof. unfold typed, handleChange. apply lookup_insert_eq. Qed.

Lemma handleBlur_validates_witness :
  (errors (fst (handleBlur trimAscii NumberOfDigits changeNumA "a" true 3
                  (typed "17", page0))) !! "a"%string
     = Some (Some "Must be 1–16"%string) /\
   drafts (fst (handleBlur trimAscii NumberOfDigits changeNumA "a" true 3
                  (typed "17", page0))) = drafts (typed "17") /\
   snd (handleBlur trimAscii NumberOfDigits changeNumA "a" true 3 (typed "17", page0))
     = page0)
  /\
  (fst (handleBlur trimAscii NumberOfDigits changeNumA "a" true 3 (typed "9", page0))
     = typed "9" /\
   exists d',
     mesh1Local (snd (handleBlur trimAscii NumberOfDigits changeNumA "a" true 3
                        (typed "9", page0))) = Some d' /\
     toothOf (heap (snd (handleBlur trimAscii NumberOfDigits changeNumA "a" true 3
                           (typed "9", page0)))) d' "a"
       = Some (3%positive, toothA9)).
Proof.
  pose proof (handleBlur_validates trimAscii NumberOfDigits "a" 3 (typed "17") page0) as H17.
  pose proof (handleBlur_validates trimAscii NumberOfDigits "a" 3 (typed "9") page0) as H9.
  cbn zeta in H17, H9. rewrite typed_17 in H17. rewrite typed_9 in H9.
  split.
  - refine (proj1 H17 _). right; right. exists 17%R. split; [reflexivity|right; lra].
  - refine (proj2 H9 9%R 1%positive 3%positive toothA _ _ _ _ _ _);
      [discriminate|reflexivity|lra|lra|reflexivity|reflexivity].
Defined.
End Blur.

(** * Distances in the picker's plane *)

Section BoundaryDistance.
Local Open Scope R_scope.
Import Vector2.

Lemma on_segment_point a q : on_segment a a q -> q = a.
Proof.
  intros (s & _ & ->). apply vec2_eq; unfold add, multiplyScalar, subVectors; cbn; ring.
Qed.

(** X1.  [pointToSegmentDistance2D p a b] is the distance from [p] to the
    nearest point of the segment from [a] to [b]: no point of the segment
    is closer, and some point of it is exactly that far.  For a segment
    of length zero, where the code replaces the squared length by
    [1e-8], it is the distance from [p] to [a]. *)
Theorem pointToSegmentDistance2D_nearest_point p a b :
  (forall q, on_segment a b q -> pointToSegmentDistance2D p a b <= dist2 p q) /\
  (exists q, on_segment a b q /\ dist2 p q = pointToSegmentDistance2D p a b) /\
  pointToSegmentDistance2D p a a = dist2 p a.
Proof.
  split; [intros q; apply pointToSegmentDistance2D_least|].
  split; [apply pointToSegmentDistance2D_attained|].
  destruct (pointToSegmentDistance2D_attained p a a) as (q & Hq & E).
  apply on_segment_point in Hq. subst q. now symmetry.
Qed.

Lemma min_step_finite p acc i j :
  exists r, min_step (Some p) acc (Some i, Some j) = Some r /\
    r <= pointToSegmentDistance2D p j i /\
    (forall m, acc = Some m -> r <= m) /\
    (acc = Some r \/ r = pointToSegmentDistance2D p j i).
Proof.
  unfold min_step, segmentDistanceAt.
  set (e := pointToSegmentDistance2D p j i).
  destruct acc as [m|].
  - destruct (JS.lt e m) eqn:Hlt.
    + apply lt_true in Hlt. exists e. split; [reflexivity|]. split; [lra|].
      split; [intros m' [= <-]; lra|now right].
    + apply lt_false in Hlt. exists m. split; [reflexivity|]. split; [exact Hlt|].
      split; [intros m' [= <-]; lra|now left].
  - exists e. split; [reflexivity|]. split; [lra|]. split; [discriminate|now right].
Qed.

Lemma min_fold_finite p (l : list (Vector2.t * Vector2.t)) acc :
  match fold_left (min_step (Some p))
          (List.map (fun ij => (Some (fst ij), Some (snd ij))) l) acc with
  | None => acc = None /\ l = []
  | Some d =>
    (forall i j, In (i, j) l -> d <= pointToSegmentDistance2D p j i) /\
    (forall m, acc = Some m -> d <= m) /\
    (acc = Some d \/ exists i j, In (i, j) l /\ d = pointToSegmentDistance2D p j i)
  end.
Proof.
  revert acc. induction l as [|[i j] r IH]; intros acc; cbn [List.map fold_left fst snd].
  - destruct acc as [m|]; [|auto]. split; [intros ? ? []|].
    split; [intros m' [= <-]; lra|now left].
  - destruct (min_step_finite p acc i j) as (s & Es & Hle & Hacc & Hsrc).
    specialize (IH (Some s)). rewrite Es.
    destruct (fold_left _ _ (Some s)) as [d|]; [|destruct IH; discriminate].
    destruct IH as (Hall & Hs & Hd).
    specialize (Hs s eq_refl). split; [|split].
    + intros i' j' [[= <- <-]|Hin]; [lra|now apply Hall].
    + intros m Hm. specialize (Hacc m Hm). lra.
    + destruct Hd as [[= <-]|(i' & j' & Hin & E)].
      * destruct Hsrc as [->|E]; [now left|].
        right. exists i, j. split; [now left|exact E].
      * right. exists i', j'. split; [now right|exact E].
Qed.

(** X2.  For a finite query point and a polygon of finite vertices,
    [distanceToPolygon2D] is the distance from the point to the
    polygon's boundary: no point of any edge is closer, and some point
    of some edge is exactly that far.  For a polygon without vertices
    the result is [Infinity]. *)
Theorem distanceToPolygon2D_boundary_distance p v poly :
  distanceToPolygon2D (Some p) [] = None /\
  exists d, distanceToPolygon2D (Some p) (List.map Some (v :: poly)) = Some d /\
    (forall i j q, In (i, j) (loop_pairs (v :: poly)) -> on_segment j i q -> d <= dist2 p q) /\
    (exists i j q, In (i, j) (loop_pairs (v :: poly)) /\ on_segment j i q /\ dist2 p q = d).
Proof.
  split; [reflexivity|].
  unfold distanceToPolygon2D. rewrite loop_pairs_map.
  pose proof (min_fold_finite p (loop_pairs (v :: poly)) None) as H.
  destruct (fold_left _ _ _) as [d|].
  - destruct H as (Hall & _ & Hsrc). exists d. split; [reflexivity|]. split.
    + intros i j q Hin Hq. apply Rle_trans with (pointToSegmentDistance2D p j i).
      * now apply Hall.
      * now apply pointToSegmentDistance2D_least.
    + destruct Hsrc as [E|(i & j & Hin & E)]; [discriminate|].
      destruct (pointToSegmentDistance2D_attained p j i) as (q & Hq & Eq).
      exists i, j, q. split; [exact Hin|]. split; [exact Hq|]. now rewrite E.
  - destruct H as [_ E]. apply (f_equal (@List.length _)) in E.
    rewrite loop_pairs_length in E. discriminate.
Qed.

(** X3.  On an axis-aligned rectangle the ray-crossing test is the
    half-open box test: a point is inside exactly when
    [x0 <= x < x1] and [y0 <= y < y1], so the left and bottom edges
    belong to the rectangle and the right and top edges do not. *)
Theorem pointInPolygon2D_rectangle x0 y0 x1 y1 p :
  x0 < x1 -> y0 < y1 ->
  (pointInPolygon2D (Some p)
     (List.map Some [mk x0 y0; mk x1 y0; mk x1 y1; mk x0 y1]) = true
   <-> x0 <= x p < x1 /\ y0 <= y p < y1).
Proof.
  intros Hx Hy. unfold pointInPolygon2D. cbn. unfold crossing, JS.bool_neq, JS.gt; cbn.
  assert (E0 : (x0 - x0) * (y p - y0) / (y1 - y0) + x0 = x0) by (field; lra).
  assert (E1 : (x1 - x1) * (y p - y1) / (y0 - y1) + x1 = x1) by (field; lra).
  rewrite E0, E1.
  destruct (JS.lt (y p) y0) eqn:A; destruct (JS.lt (y p) y1) eqn:B;
  destruct (JS.lt (x p) x0) eqn:C; destruct (JS.lt (x p) x1) eqn:D; cbn;
  try apply lt_true in A; try apply lt_false in A;
  try apply lt_true in B; try apply lt_false in B;
  try apply lt_true in C; try apply lt_false in C;
  try apply lt_true in D; try apply lt_false in D;
  split; try discriminate; try lra; intros; try reflexivity; try lra.
Qed.

Lemma pointInPolygon2D_rectangle_witness :
  0 < 2 /\ 0 < 1 /\
  (pointInPolygon2D (Some (mk 0 0)) (List.map Some [mk 0 0; mk 2 0; mk 2 1; mk 0 1]) = true
   <-> 0 <= x (mk 0 0) < 2 /\ 0 <= y (mk 0 0) < 1).
Proof.
  assert (Hx : 0 < 2) by lra. assert (Hy : 0 < 1) by lra.
  split; [exact Hx|]. split; [exact Hy|].
  exact (pointInPolygon2D_rectangle 0 0 2 1 (mk 0 0) Hx Hy).
Defined.
End BoundaryDistance.
(** * Local coordinates of the picker's frame *)

Section LocalCoordinates.
Local Open Scope R_scope.
Import Vector3.



Lemma buildBasis_frame normal origin :
  length normal = 1 ->
  let b := buildBasis normal origin in
  Basis.toWorld b = Matrix4.setPosition (Matrix4.makeBasis (Basis.u b) (Basis.v b) normal) origin /\
  lengthSq (Basis.u b) = 1 /\ lengthSq (Basis.v b) = 1 /\ lengthSq normal = 1 /\
  dot normal (Basis.u b) = 0 /\ dot normal (Basis.v b) = 0 /\ dot (Basis.u b) (Basis.v b) = 0.
Proof.
  intros Hn b.
  destruct (buildBasis_orthonormal normal origin Hn) as (En & Hu & Hv & Hnu & Hnv & Huv & _).
  fold b in En, Hu, Hv, Hnu, Hnv, Huv. rewrite En in Hnu, Hnv.
  split.
  - rewrite <- En. reflexivity.
  - repeat split; try assumption; now apply lengthSq_of_unit.
Qed.






End LocalCoordinates.
(** * The frame of a unit normal *)

Section RightHandedFrame.
Local Open Scope R_scope.

(** X8.  For a unit normal, [buildBasis] returns a right-handed
    orthonormal frame whose third axis is the normal: the three axes
    have unit length and are orthogonal to each other, [v] is the cross
    product of [n] and [u], and [toWorld] is a rotation (determinant 1)
    followed by the translation that takes the local origin to the
    frame's origin. *)
Theorem buildBasis_right_handed_frame normal origin :
  Vector3.length normal = 1 ->
  let b := buildBasis normal origin in
  Basis.n b = normal /\
  Vector3.length (Basis.u b) = 1 /\ Vector3.length (Basis.v b) = 1 /\
  Vector3.dot (Basis.n b) (Basis.u b) = 0 /\ Vector3.dot (Basis.n b) (Basis.v b) = 0 /\
  Vector3.dot (Basis.u b) (Basis.v b) = 0 /\
  Basis.v b = Vector3.crossVectors (Basis.n b) (Basis.u b) /\
  Matrix4.det (Basis.toWorld b) = 1 /\
  applyMatrix4 Vector3.zero (Basis.toWorld b) = Some origin /\
  applyMatrix4 origin (Basis.toLocal b) = Some Vector3.zero.
Proof.
  intros Hn b.
  destruct (buildBasis_orthonormal normal origin Hn)
    as (En & Hu & Hv & Hnu & Hnv & Huv & Ev & Hdet).
  fold b in En, Hu, Hv, Hnu, Hnv, Huv, Ev, Hdet.
  repeat (split; [assumption|]).
  destruct (buildBasis_toLocal normal origin Vector3.zero Hn) as (_ & Hw & _ & Hback).
  fold b in Hw, Hback.
  assert (E0 : affineImage (Basis.toWorld b) Vector3.zero = origin).
  { destruct (buildBasis_frame normal origin Hn) as (Etw & _). fold b in Etw.
    rewrite Etw. unfold affineImage, Vector3.zero. apply vec3_eq; cbn; ring. }
  rewrite E0 in Hw, Hback. split; [exact Hw|].
  destruct (buildBasis_toLocal normal origin origin Hn) as (Hl & _). fold b in Hl.
  now rewrite Hl, Hback.
Qed.

Lemma buildBasis_right_handed_frame_witness :
  Vector3.length (Vector3.mk 0 0 1) = 1 /\
  Matrix4.det (Basis.toWorld (buildBasis (Vector3.mk 0 0 1) (Vector3.mk 1 2 3))) = 1 /\
  applyMatrix4 Vector3.zero (Basis.toWorld (buildBasis (Vector3.mk 0 0 1) (Vector3.mk 1 2 3)))
  = Some (Vector3.mk 1 2 3).
Proof.
  assert (H : Vector3.length (Vector3.mk 0 0 1) = 1).
  { apply unit_of_lengthSq. unfold Vector3.lengthSq; cbn. ring. }
  pose proof (buildBasis_right_handed_frame (Vector3.mk 0 0 1) (Vector3.mk 1 2 3) H) as F.
  cbn zeta in F. destruct F as (_ & _ & _ & _ & _ & _ & _ & Hdet & H0 & _).
  split; [exact H|]. split; [exact Hdet|exact H0].
Defined.
End RightHandedFrame.
(** * The unkeyed registry and loop ordering *)

Section UnkeyedRegistry.
Local Open Scope R_scope.

Lemma registries_step tp eb arr pickers id t :
  Forall2 tagged arr pickers ->
  Forall2 tagged (picker_step tp eb arr t) (pickerById_step tp eb pickers (id, t)).
Proof.
  intros H. unfold picker_step, pickerById_step.
  destruct (negb (prep t =? 1)%Z); [exact H|].
  destruct (spline t) as [s|]; [|exact H].
  destruct (List.length s <? 3)%nat; [exact H|].
  apply Forall2_app; [exact H|]. constructor; [|constructor].
  split; [exists id; reflexivity|reflexivity].
Qed.

Lemma registries_fold tp eb entries arr pickers :
  Forall2 tagged arr pickers ->
  Forall2 tagged (fold_left (picker_step tp eb) (List.map snd entries) arr)
                 (fold_left (pickerById_step tp eb) entries pickers).
Proof.
  revert arr pickers. induction entries as [|[id t] r IH]; intros arr pickers H; [exact H|].
  cbn [List.map fold_left snd]. apply IH. now apply registries_step.
Qed.

(** X9.  On a document that has a [centers] table, [buildToothPickers]
    returns the regions of [buildToothPickersById], one for one and in
    the same order, without the identifier tags.  On a document without
    the table it raises, where [buildToothPickersById] returns no
    region. *)
Theorem buildToothPickers_regions_of_keyed_registry json tp eb :
  match centers json with
  | Some _ =>
    exists arr, buildToothPickers json tp eb = Some arr /\
      Forall2 tagged arr (buildToothPickersById json tp eb)
  | None =>
    buildToothPickers json tp eb = None /\ buildToothPickersById json tp eb = []
  end.
Proof.
  unfold buildToothPickers, buildToothPickersById.
  destruct (centers json) as [c|]; [|split; reflexivity].
  eexists. split; [reflexivity|]. apply registries_fold. constructor.
Qed.

Lemma sort_by_key_sorted_permutation {A : Type} (ang : A -> R) (l : list A) :
  let sorted := List.map fst (Sleeve.sort_by (fun a b : A * R => snd a - snd b)
                                (List.map (fun p => (p, ang p)) l)) in
  Permutation sorted l /\ StronglySorted (fun p q => ang p <= ang q) sorted.
Proof.
  cbn zeta.
  set (tg := List.map (fun p => (p, ang p)) l).
  pose proof (sort_by_perm (fun a b : A * R => snd a - snd b) tg) as Hperm.
  pose proof (sort_by_sorted (fun o : A * R => snd o) tg) as Hsorted.
  assert (Htag : Forall (fun o => snd o = ang (fst o))
                   (Sleeve.sort_by (fun a b : A * R => snd a - snd b) tg)).
  { apply List.Forall_forall. intros o Ho. apply (Permutation_in _ Hperm) in Ho.
    unfold tg in Ho. apply List.in_map_iff in Ho. destruct Ho as (p & <- & _). reflexivity. }
  split.
  - rewrite Hperm. unfold tg. rewrite List.map_map. cbn. now rewrite List.map_id.
  - clear Hperm. induction Hsorted as [|o r Hs IH Hall]; cbn; [constructor|].
    inversion Htag as [|? ? Ho Hr]; subst.
    constructor; [now apply IH|].
    apply List.Forall_forall. intros q Hq. apply List.in_map_iff in Hq.
    destruct Hq as (o' & <- & Hin).
    rewrite List.Forall_forall in Hall, Hr. specialize (Hall o' Hin). specialize (Hr o' Hin).
    lra.
Qed.

(** X10.  [sortLoop] returns the points it was given, each as often as it
    occurs, in non-decreasing order of their angle around the centroid
    in the x-y plane. *)
Theorem sortLoop_sorted_permutation points :
  let c := Vector3.multiplyScalar (fold_left Vector3.add points Vector3.zero)
                                  (1 / INR (List.length points)) in
  Permutation (sortLoop points) points /\
  StronglySorted
    (fun p q => Sleeve.atan2 (Vector3.y p - Vector3.y c) (Vector3.x p - Vector3.x c)
                <= Sleeve.atan2 (Vector3.y q - Vector3.y c) (Vector3.x q - Vector3.x c))
    (sortLoop points).
Proof.
  intros c. unfold sortLoop. fold c.
  apply (sort_by_key_sorted_permutation
           (fun p => Sleeve.atan2 (Vector3.y p - Vector3.y c) (Vector3.x p - Vector3.x c))).
Qed.
End UnkeyedRegistry.
(** * The sleeve and the picker of one loop *)

Section SleeveAndPicker.
Local Open Scope R_scope.








Lemma length2_scale (v : Vector2.t) (s : R) :
  Vector2.length (Vector2.multiplyScalar v s) = Rabs s * Vector2.length v.
Proof.
  unfold Vector2.length, Vector2.multiplyScalar. cbn [Vector2.x Vector2.y].
  replace (Vector2.x v * s * (Vector2.x v * s) + Vector2.y v * s * (Vector2.y v * s))
    with (Rsqr s * (Vector2.x v * Vector2.x v + Vector2.y v * Vector2.y v))
    by (unfold Rsqr; ring).
  rewrite sqrt_mult_alt by apply Rle_0_sqr. now rewrite sqrt_Rsqr_abs.
Qed.

(** X12.  The inner point of an outer point [p] is set back from [p]
    towards the centroid by the wall thickness, or by the whole
    distance to the centroid where that is smaller; so it is at
    distance [max(0, dist - wall)] from the centroid. *)
Theorem sleeve_wall_thickness c2 wall p :
  0 <= wall ->
  dist2 p (Sleeve.innerPoint c2 wall p) = Rmin wall (dist2 p c2) /\
  dist2 (Sleeve.innerPoint c2 wall p) c2 = Rmax 0 (dist2 p c2 - wall).
Proof.
  intros Hw.
  assert (Hd0 : 0 <= dist2 p c2) by apply sqrt_pos.
  destruct (Req_dec_T (dist2 p c2) 0) as [E|NE].
  - destruct (innerPoint_centre c2 wall p E) as [Hp Hq]. rewrite Hq. subst p.
    rewrite E, Rmin_right by exact Hw. rewrite Rmax_left by lra. split; reflexivity.
  - rewrite (innerPoint_scale c2 wall p NE).
    set (d := dist2 p c2) in *.
    set (s := Rmax 0 (1 - wall / d)).
    assert (Hd : 0 < d) by lra.
    assert (Hq : 0 <= wall / d).
    { apply Rmult_le_pos; [exact Hw|]. left. now apply Rinv_0_lt_compat. }
    assert (Hs : 0 <= s <= 1).
    { unfold s. split; [apply Rmax_l|]. apply Rmax_lub; lra. }
    assert (E1 : Vector2.subVectors p
                   (Vector2.add c2 (Vector2.multiplyScalar (Vector2.subVectors p c2) s))
                 = Vector2.multiplyScalar (Vector2.subVectors p c2) (1 - s)).
    { apply vec2_eq; unfold Vector2.subVectors, Vector2.add, Vector2.multiplyScalar; cbn; ring. }
    assert (E2 : Vector2.subVectors
                   (Vector2.add c2 (Vector2.multiplyScalar (Vector2.subVectors p c2) s)) c2
                 = Vector2.multiplyScalar (Vector2.subVectors p c2) s).
    { apply vec2_eq; unfold Vector2.subVectors, Vector2.add, Vector2.multiplyScalar; cbn; ring. }
    unfold dist2. rewrite E1, E2, !length2_scale.
    fold (dist2 p c2). fold d. rewrite !Rabs_pos_eq by lra.
    assert (Ewd : wall / d * d = wall) by (field; lra).
    unfold s. destruct (Rle_dec (1 - wall / d) 0) as [Hle|Hgt].
    + rewrite Rmax_left by exact Hle.
      assert (d <= wall) by nra.
      rewrite Rmin_right by assumption. rewrite Rmax_left by lra. split; ring.
    + rewrite Rmax_right by lra.
      assert (wall <= d) by nra.
      rewrite Rmin_left by assumption. rewrite Rmax_right by lra. split; nra.
Qed.

Lemma sleeve_wall_thickness_witness :
  0 <= 8 / 10 /\
  dist2 (Vector2.mk 3 4) (Sleeve.innerPoint (Vector2.mk 0 0) (8 / 10) (Vector2.mk 3 4))
    = Rmin (8 / 10) (dist2 (Vector2.mk 3 4) (Vector2.mk 0 0)) /\
  dist2 (Sleeve.innerPoint (Vector2.mk 0 0) (8 / 10) (Vector2.mk 3 4)) (Vector2.mk 0 0)
    = Rmax 0 (dist2 (Vector2.mk 3 4) (Vector2.mk 0 0) - 8 / 10).
Proof.
  assert (H : 0 <= 8 / 10) by lra.
  split; [exact H|].
  exact (sleeve_wall_thickness (Vector2.mk 0 0) (8 / 10) (Vector2.mk 3 4) H).
Defined.
End SleeveAndPicker.
(** * Markup of the review page *)

Section ReviewMarkup.
Local Open Scope R_scope.
Import Vector3.





Lemma distanceTo_add p v : distanceTo p (add p v) = length v.
Proof.
  unfold distanceTo, distanceToSquared, length, lengthSq, add. cbn. f_equal. ring.
Qed.

Lemma length_scale v s : length (multiplyScalar v s) = Rabs s * length v.
Proof.
  unfold length, lengthSq, multiplyScalar. cbn [x y z].
  replace (x v * s * (x v * s) + y v * s * (y v * s) + z v * s * (z v * s))
    with (Rsqr s * (x v * x v + y v * y v + z v * z v)) by (unfold Rsqr; ring).
  rewrite sqrt_mult_alt by apply Rle_0_sqr. now rewrite sqrt_Rsqr_abs.
Qed.


Lemma filter_map_swap {A B : Type} (f : A -> B) (p : B -> bool) (l : list A) :
  List.filter p (List.map f l) = List.map f (List.filter (fun a => p (f a)) l).
Proof.
  induction l as [|a r IH]; [reflexivity|]. cbn [List.map List.filter].
  destruct (p (f a)); cbn [List.map]; now rewrite IH.
Qed.

Lemma sleeve_rendered spline wall height opacity hovered :
  (3 <= List.length spline)%nat ->
  exists el, Sleeve.HollowSleeveOnSpline spline wall height opacity hovered = Some el.
Proof.
  intros H. unfold Sleeve.HollowSleeveOnSpline, Sleeve.memo. rewrite List.length_map.
  destruct (Nat.ltb_spec (List.length spline) 3) as [Hlt|_]; [lia|].
  destruct (Sleeve.buildLoops _ wall) as [l tw]. eexists. reflexivity.
Qed.

(** X14.  [MarkupForSelection] renders nothing when the document or its
    table is missing or when nothing is selected.  Otherwise it renders
    one group per selected identifier that names a flagged tooth with a
    loop of at least three points, in the order of the selection, keyed
    [prefix:id]; every group holds a sleeve that is rendered, and the
    other selected identifiers are passed over. *)
Theorem MarkupForSelection_groups mesh ids prefix hoveredKey sleeveColor splineColor
    wall height splineWidth :
  let rendered := Review.MarkupForSelection mesh ids prefix hoveredKey sleeveColor
                    splineColor wall height splineWidth in
  (rendered = None <->
   mesh = None \/ (exists m, mesh = Some m /\ centers m = None) \/ ids = []) /\
  (forall m c groups, mesh = Some m -> centers m = Some c -> rendered = Some groups ->
   List.map Review.key groups =
     List.map (fun id => (prefix ++ ":" ++ id)%string)
       (List.filter (fun id => match center_at id c with
                               | Some t => qualifies t
                               | None => false
                               end) ids) /\
   Forall (fun g => exists el, Review.sleeve g = Some el) groups).
Proof.
  cbn zeta. unfold Review.MarkupForSelection. split.
  - destruct mesh as [m|]; [|split; auto].
    destruct (centers m) as [c|] eqn:Ec.
    + destruct ids as [|id r]; [split; auto|]. split; [discriminate|].
      intros [H|[(m' & [= <-] & H)|H]]; [discriminate|congruence|discriminate].
    + split; [|reflexivity]. intros _. right; left. exists m. auto.
  - intros m c groups -> Ec. rewrite Ec.
    destruct ids as [|id0 r] eqn:Eids; [discriminate|]. rewrite <- Eids. clear Eids.
    intros [= <-]. rewrite filter_map_swap, !List.map_map.
    assert (Ek : forall id, Review.keeps (id, center_at id c)
                            = match center_at id c with
                              | Some t => qualifies t
                              | None => false
                              end).
    { intros id. unfold Review.keeps, qualifies. cbn [snd]. now destruct (center_at id c). }
    rewrite (List.filter_ext _ _ Ek). split; [reflexivity|].
    apply List.Forall_forall. intros g Hg. apply List.in_map_iff in Hg.
    destruct Hg as (id & <- & Hin). cbn [Review.sleeve snd].
    apply List.filter_In in Hin. destruct Hin as [_ Hk].
    apply sleeve_rendered. unfold Review.splineOf.
    destruct (center_at id c) as [t|]; [|discriminate].
    unfold qualifies in Hk. apply andb_true_iff in Hk. destruct Hk as [_ Hk].
    destruct (spline t) as [s|]; [|discriminate]. now apply Nat.leb_le.
Qed.
End ReviewMarkup.
(** * Selection of teeth on the viewer page *)

Section Selection.
Local Open Scope R_scope.
Import ViewerPage.

Lemma includes_In id prev : includes id prev = true <-> In id prev.
Proof.
  unfold includes. rewrite existsb_exists. split.
  - intros (x & Hx & E). apply String.eqb_eq in E. now subst.
  - intros H. exists id. split; [exact H|apply String.eqb_refl].
Qed.

Lemma includes_not_In id prev : includes id prev = false <-> ~ In id prev.
Proof.
  rewrite <- includes_In. destruct (includes id prev); split; congruence.
Qed.

Lemma In_without id x prev :
  In x (List.filter (fun y => negb (String.eqb y id)) prev) <-> In x prev /\ x <> id.
Proof.
  rewrite List.filter_In, negb_true_iff, String.eqb_neq. reflexivity.
Qed.

Lemma without_absent id prev :
  ~ In id prev -> List.filter (fun y => negb (String.eqb y id)) prev = prev.
Proof.
  induction prev as [|a r IH]; [reflexivity|]. intros H. cbn [List.filter].
  destruct (String.eqb_spec a id) as [->|_]; cbn [negb].
  - exfalso. apply H. now left.
  - f_equal. apply IH. intros Hin. apply H. now right.
Qed.

Lemma toggle_In id prev x :
  In x (toggle id prev) <-> (x = id /\ ~ In id prev) \/ (x <> id /\ In x prev).
Proof.
  unfold toggle. destruct (includes id prev) eqn:Hinc.
  - apply includes_In in Hinc. rewrite In_without. tauto.
  - apply includes_not_In in Hinc. rewrite List.in_app_iff. cbn. split.
    + intros [H|[<-|[]]]; [|now left]. right. split; [|exact H]. now intros ->.
    + intros [[-> _]|[_ H]]; [right; now left|now left].
Qed.

Lemma toggle_NoDup id prev : List.NoDup prev -> List.NoDup (toggle id prev).
Proof.
  unfold toggle. destruct (includes id prev) eqn:Hinc.
  - apply List.NoDup_filter.
  - apply includes_not_In in Hinc. intros Hnd.
    apply (Permutation_NoDup (Permutation_cons_append prev id)). now constructor.
Qed.

(** X15.  Toggling an identifier flips its membership in the selection
    and leaves the membership of every other identifier as it was; a
    selection without repetitions stays without repetitions. *)
Theorem toggle_flips_membership id prev :
  (In id (toggle id prev) <-> ~ In id prev) /\
  (forall x, x <> id -> (In x (toggle id prev) <-> In x prev)) /\
  (List.NoDup prev -> List.NoDup (toggle id prev)).
Proof.
  split; [|split].
  - rewrite toggle_In. split.
    + intros [[_ H]|[H _]]; [exact H|congruence].
    + intros H. left. now split.
  - intros x Hx. rewrite toggle_In. split.
    + intros [[H _]|[_ H]]; [contradiction|exact H].
    + intros H. right. now split.
  - apply toggle_NoDup.
Qed.

(** X16.  Toggling an identifier that is not selected and toggling it
    again restores the selection, order included.  Toggling a selected
    identifier twice keeps the others in their order and moves it to
    the end. *)
Theorem toggle_twice id prev :
  (~ In id prev -> toggle id (toggle id prev) = prev) /\
  (In id prev ->
   toggle id (toggle id prev)
   = List.filter (fun x => negb (String.eqb x id)) prev ++ [id]).
Proof.
  split; intros H.
  - unfold toggle at 2. rewrite (proj2 (includes_not_In id prev) H).
    unfold toggle. rewrite (proj2 (includes_In id (prev ++ [id]))).
    + rewrite List.filter_app, (without_absent id prev H). cbn [List.filter].
      rewrite String.eqb_refl. cbn [negb]. apply app_nil_r.
    + apply List.in_app_iff. right. now left.
  - unfold toggle at 2. rewrite (proj2 (includes_In id prev) H).
    unfold toggle. rewrite (proj2 (includes_not_In id _)); [reflexivity|].
    rewrite In_without. intros [_ Hne]. now apply Hne.
Qed.
End Selection.
(** * The tooth list and the derived numbers *)

Section ToothList.
Local Open Scope R_scope.
Import ViewerPage.

Lemma filter_all {A : Type} (l : list A) : List.filter (fun _ => true) l = l.
Proof. induction l as [|a r IH]; [reflexivity|]. cbn. now rewrite IH. Qed.

(** What the comparator of the tooth list decides *)
Lemma compareTeeth_lt a b :
  compareTeeth a b < 0 <->
  (prep (snd b) < prep (snd a))%Z \/
  (prep (snd a) = prep (snd b) /\ num (snd a) < num (snd b)).
Proof.
  unfold compareTeeth, JS.or_default.
  destruct (Req_dec_T (IZR (prep (snd b)) - IZR (prep (snd a))) 0) as [E|NE].
  - assert (Ep : prep (snd a) = prep (snd b)) by (apply eq_IZR; lra).
    split.
    + intros H. right. split; [exact Ep|lra].
    + intros [H|[_ H]]; [lia|lra].
  - split.
    + intros H. left. apply lt_IZR. lra.
    + intros [H|[Ep _]].
      * apply IZR_lt in H. lra.
      * rewrite Ep in NE. lra.
Qed.

Lemma listedBefore_trans a b c : listedBefore a b -> listedBefore b c -> listedBefore a c.
Proof.
  unfold listedBefore. intros [H1|[E1 H1]] [H2|[E2 H2]].
  - left. lia.
  - left. lia.
  - left. lia.
  - right. split; [lia|lra].
Qed.

Lemma listedBefore_total a b : ~ compareTeeth a b < 0 -> listedBefore b a.
Proof.
  rewrite compareTeeth_lt. unfold listedBefore. intros H.
  destruct (Z.lt_trichotomy (prep (snd a)) (prep (snd b))) as [Hlt|[Heq|Hgt]].
  - left. exact Hlt.
  - right. split; [now symmetry|]. destruct (Rle_dec (num (snd b)) (num (snd a))); [assumption|].
    exfalso. apply H. right. split; [exact Heq|lra].
  - exfalso. apply H. left. exact Hgt.
Qed.

Lemma insert_teeth_sorted x l :
  StronglySorted listedBefore l ->
  StronglySorted listedBefore (Sleeve.insert_by compareTeeth x l).
Proof.
  induction 1 as [|y r Hs IH Hall]; cbn [Sleeve.insert_by].
  - repeat constructor.
  - destruct (JS.lt (compareTeeth y x) 0) eqn:Hlt.
    + apply lt_true in Hlt. constructor; [exact IH|].
      apply List.Forall_forall. intros b Hb.
      apply (Permutation_in _ (insert_by_perm compareTeeth x r)) in Hb.
      destruct Hb as [<-|Hb].
      * apply compareTeeth_lt in Hlt. destruct Hlt as [H|[E H]]; [now left|right].
        split; [exact E|lra].
      * rewrite List.Forall_forall in Hall. now apply Hall.
    + apply lt_false in Hlt.
      assert (Hxy : listedBefore x y) by (apply listedBefore_total; lra).
      constructor; [now constructor|]. constructor; [exact Hxy|].
      apply List.Forall_forall. intros b Hb. rewrite List.Forall_forall in Hall.
      apply (listedBefore_trans x y b Hxy). now apply Hall.
Qed.

(** X17.  The tooth list shows every entry of the document once, the
    flagged teeth (higher [prep]) first and, among teeth with the same
    flag, in non-decreasing order of their display numbers. *)
Theorem teeth_sorted_permutation mesh :
  Permutation (teeth mesh) (entriesOf mesh) /\ StronglySorted listedBefore (teeth mesh).
Proof.
  unfold teeth. rewrite filter_all. split; [apply sort_by_perm|].
  induction (entriesOf mesh) as [|x r IH]; [constructor|].
  cbn. now apply insert_teeth_sorted.
Qed.

Lemma activeNums_fold c ids acc :
  fold_left (fun nums id => match center_at id c with
                            | Some t => nums ++ [num t]
                            | None => nums
                            end) ids acc
  = acc ++ List.flat_map (fun id => match center_at id c with
                                    | Some t => [num t]
                                    | None => []
                                    end) ids.
Proof.
  revert acc. induction ids as [|id r IH]; intros acc; cbn [fold_left List.flat_map].
  - now rewrite app_nil_r.
  - rewrite IH. destruct (center_at id c) as [t|]; [|reflexivity].
    now rewrite <- app_assoc.
Qed.

(** X18.  [activeNumsFromIds] lists, in the order of the selection, the
    display number of every selected identifier that the document
    holds; identifiers it does not hold are passed over, and without a
    document or a table the list is empty.  When every selected
    identifier is held, the list has one number per identifier. *)
Theorem activeNumsFromIds_selected_numbers mesh ids :
  activeNumsFromIds mesh ids
  = List.flat_map (fun id => match center_at id (entriesOf mesh) with
                             | Some t => [num t]
                             | None => []
                             end) ids
  /\ (Forall (fun id => center_at id (entriesOf mesh) <> None) ids ->
      List.map Some (activeNumsFromIds mesh ids)
      = List.map (fun id => option_map num (center_at id (entriesOf mesh))) ids).
Proof.
  assert (E : activeNumsFromIds mesh ids
              = List.flat_map (fun id => match center_at id (entriesOf mesh) with
                                         | Some t => [num t]
                                         | None => []
                                         end) ids).
  { unfold activeNumsFromIds, entriesOf.
    destruct mesh as [m|]; [destruct (centers m) as [c|]|].
    - now rewrite activeNums_fold.
    - induction ids as [|id r IH]; [reflexivity|exact IH].
    - induction ids as [|id r IH]; [reflexivity|exact IH]. }
  split; [exact E|]. rewrite E. clear E.
  induction 1 as [|id r Hid _ IH]; [reflexivity|].
  cbn [List.flat_map List.map]. destruct (center_at id (entriesOf mesh)) as [t|]; [|congruence].
  cbn [app List.map option_map]. now rewrite IH.
Qed.
End ToothList.
(** * Clicks on the mesh *)

Section MeshClicks.
Local Open Scope R_scope.

Lemma raycast_appends this rc ints : raycast this rc ints = ints ++ raycast this rc [].
Proof.
  unfold raycast.
  destruct (Ray.intersectPlane _ _) as [hit|]; [|now rewrite app_nil_r].
  destruct (JS.lt _ _ || JS.gt _ _); [now rewrite app_nil_r|].
  destruct (negb _); [now rewrite app_nil_r|reflexivity].
Qed.

Lemma raycast_single this rc :
  raycast this rc [] = [] \/ exists h, raycast this rc [] = [h] /\ object h = this.
Proof.
  unfold raycast.
  destruct (Ray.intersectPlane _ _) as [hit|]; [|now left].
  destruct (JS.lt _ _ || JS.gt _ _); [now left|].
  destruct (negb _); [now left|]. right. eexists. split; reflexivity.
Qed.

Lemma raycast_all rc objects acc :
  fold_left (fun intersects o => raycast o rc intersects) objects acc
  = acc ++ List.flat_map (fun o => raycast o rc []) objects.
Proof.
  revert acc. induction objects as [|o r IH]; intros acc; cbn [fold_left List.flat_map].
  - now rewrite app_nil_r.
  - rewrite IH, (raycast_appends o rc acc). now rewrite <- app_assoc.
Qed.

Lemma hit_of_object rc objects h :
  In h (List.flat_map (fun o => raycast o rc []) objects) <->
  exists o, In o objects /\ raycast o rc [] = [h].
Proof.
  rewrite List.in_flat_map. split.
  - intros (o & Ho & Hh). exists o. split; [exact Ho|].
    destruct (raycast_single o rc) as [E|(h' & E & _)]; rewrite E in Hh.
    + destruct Hh.
    + destruct Hh as [<-|[]]. exact E.
  - intros (o & Ho & E). exists o. split; [exact Ho|]. rewrite E. now left.
Qed.

(** three.js [intersectObjects] returns the hits of all objects, each
    object contributing at most one, in non-decreasing order of
    distance from the ray origin: the first hit is a nearest one. *)
Lemma intersectObjects_nearest_first rc objects :
  (forall h, In h (ViewerPage.intersectObjects rc objects) <->
             exists o, In o objects /\ raycast o rc [] = [h]) /\
  (forall o h, raycast o rc [] = [h] -> object h = o) /\
  StronglySorted (fun a b => distance a <= distance b)
    (ViewerPage.intersectObjects rc objects) /\
  (forall h rest, ViewerPage.intersectObjects rc objects = h :: rest ->
     forall h', In h' (ViewerPage.intersectObjects rc objects) -> distance h <= distance h').
Proof.
  unfold ViewerPage.intersectObjects. rewrite raycast_all. cbn [app].
  set (hits := List.flat_map (fun o => raycast o rc []) objects).
  pose proof (sort_by_perm (fun a b => distance a - distance b) hits) as Hperm.
  pose proof (sort_by_sorted distance hits) as Hsorted.
  split; [|split; [|split]].
  - intros h. rewrite <- hit_of_object. fold hits. split.
    + apply Permutation_in. exact Hperm.
    + apply Permutation_in. now symmetry.
  - intros o h E. destruct (raycast_single o rc) as [E'|(h' & E' & Ho)]; rewrite E' in E.
    + discriminate.
    + now injection E as <-.
  - exact Hsorted.
  - intros h rest E h' Hin. rewrite E in Hsorted, Hin.
    inversion Hsorted as [|? ? _ Hall]; subst.
    destruct Hin as [<-|Hin]; [lra|].
    rewrite List.Forall_forall in Hall. now apply Hall.
Qed.

Lemma registry_picker_entry json tp eb o :
  In o (buildToothPickersById json tp eb) ->
  exists id t, toothId (userData o) = Some id /\ In (id, t) (entriesOf json) /\
               qualifies t = true.
Proof.
  intros Ho.
  assert (Hin : In (toothId (userData o))
                  (List.map (fun p => toothId (userData p)) (buildToothPickersById json tp eb))).
  { apply List.in_map_iff. exists o. auto. }
  unfold buildToothPickersById in Hin. fold (entriesOf json) in Hin.
  rewrite pickersById_ids in Hin. cbn [List.map app] in Hin.
  apply List.in_map_iff in Hin. destruct Hin as ([id t] & E & Hf).
  apply List.filter_In in Hf. destruct Hf as [Hin Hq]. cbn [fst snd] in *.
  exists id, t. auto.
Qed.
Lemma intersectObjects_hits rc objects :
  let hits := List.flat_map (fun o => raycast o rc []) objects in
  Permutation (ViewerPage.intersectObjects rc objects) hits /\
  StronglySorted (fun a b => distance a <= distance b)
    (ViewerPage.intersectObjects rc objects).
Proof.
  cbn zeta. unfold ViewerPage.intersectObjects. rewrite raycast_all. cbn [app].
  split; [apply sort_by_perm|apply (sort_by_sorted distance)].
Qed.

(** X19.  A click on the mesh, with the pickers of a document in place:
    when the ray hits no region the selection is unchanged; otherwise
    the click toggles the identifier of a region whose hit is nearest
    to the ray origin, and that identifier names a flagged tooth of the
    document with a loop of at least three points (only the empty
    identifier is ignored).  Without a mounted picker group nothing
    changes. *)
Theorem handleMeshClick_toggles_nearest_region json ray near far prev :
  let pickers := buildToothPickersById json None 1 in
  let rc := Raycaster.mk ray near far in
  let after := ViewerPage.handleMeshClick (Some pickers) ray near far prev in
  ((forall o, In o pickers -> raycast o rc [] = []) -> after = prev) /\
  ((exists o, In o pickers /\ raycast o rc [] <> []) ->
   exists o h id t,
     In o pickers /\ raycast o rc [] = [h] /\
     (forall o' h', In o' pickers -> raycast o' rc [] = [h'] -> distance h <= distance h') /\
     toothId (userData o) = Some id /\ In (id, t) (entriesOf json) /\ qualifies t = true /\
     after = (if String.eqb id "" then prev else ViewerPage.toggle id prev)) /\
  ViewerPage.handleMeshClick None ray near far prev = prev.
Proof.
  cbn zeta. set (pickers := buildToothPickersById json None 1).
  set (rc := Raycaster.mk ray near far).
  destruct (intersectObjects_hits rc pickers) as [Hperm Hsorted]. cbn zeta in Hperm.
  unfold ViewerPage.handleMeshClick. fold rc.
  split; [|split; [|reflexivity]].
  - intros Hnone.
    destruct (ViewerPage.intersectObjects rc pickers) as [|h rest]; [reflexivity|].
    exfalso. assert (Hin : In h (h :: rest)) by now left.
    apply (Permutation_in _ Hperm), hit_of_object in Hin.
    destruct Hin as (o & Ho & E). rewrite (Hnone o Ho) in E. discriminate.
  - intros (o0 & Ho0 & Hhit0).
    destruct (ViewerPage.intersectObjects rc pickers) as [|h rest].
    { exfalso. destruct (raycast_single o0 rc) as [E|(h0 & E & _)]; [contradiction|].
      assert (Hin : In h0 (List.flat_map (fun o => raycast o rc []) pickers)).
      { apply hit_of_object. exists o0. auto. }
      apply (Permutation_in _ (Permutation_sym Hperm)) in Hin. destruct Hin. }
    assert (Hin : In h (h :: rest)) by now left.
    apply (Permutation_in _ Hperm), hit_of_object in Hin.
    destruct Hin as (o & Ho & E).
    assert (Eobj : object h = o).
    { destruct (raycast_single o rc) as [E'|(h' & E' & Hobj)]; rewrite E' in E.
      - discriminate.
      - now injection E as <-. }
    destruct (registry_picker_entry json None 1 o Ho) as (id & t & Hid & Hent & Hq).
    exists o, h, id, t. split; [exact Ho|]. split; [exact E|]. split.
    { intros o' h' Ho' E'.
      assert (Hin' : In h' (h :: rest)).
      { apply (Permutation_in _ (Permutation_sym Hperm)), hit_of_object.
        exists o'. auto. }
      inversion Hsorted as [|? ? _ Hall]; subst.
      destruct Hin' as [<-|Hin']; [lra|].
      rewrite List.Forall_forall in Hall. now apply Hall. }
    rewrite Eobj, Hid. auto.
Qed.

Lemma handleMeshClick_cases pickers ray near far prev :
  ViewerPage.handleMeshClick (Some pickers) ray near far prev = prev \/
  exists o id, In o pickers /\ toothId (userData o) = Some id /\
    ViewerPage.handleMeshClick (Some pickers) ray near far prev
    = ViewerPage.toggle id prev.
Proof.
  unfold ViewerPage.handleMeshClick.
  set (rc := Raycaster.mk ray near far).
  destruct (intersectObjects_hits rc pickers) as [Hperm _]. cbn zeta in Hperm.
  destruct (ViewerPage.intersectObjects rc pickers) as [|h rest]; [now left|].
  assert (Hin : In h (h :: rest)) by now left.
  apply (Permutation_in _ Hperm), hit_of_object in Hin.
  destruct Hin as (o & Ho & E).
  assert (Eobj : object h = o).
  { destruct (raycast_single o rc) as [E'|(h' & E' & Hobj)]; rewrite E' in E.
    - discriminate.
    - now injection E as <-. }
  rewrite Eobj. destruct (toothId (userData o)) as [id|] eqn:Hid; [|now left].
  destruct (String.eqb id ""); [now left|]. right. exists o, id. auto.
Qed.

Lemma rowClick_keeps mesh id t prev :
  In (id, t) (ViewerPage.entriesOf mesh) ->
  selectionOk mesh prev -> selectionOk mesh (ViewerPage.rowClick id t prev).
Proof.
  intros Hent [Hnd Hall]. unfold ViewerPage.rowClick.
  destruct (Z.eqb_spec (prep t) 1) as [Hp|_]; [|now split].
  split; [now apply toggle_NoDup|].
  intros x Hx. apply toggle_In in Hx. destruct Hx as [[-> _]|[_ Hx]].
  - exists t. auto.
  - now apply Hall.
Qed.

(** X20.  The selection of a mesh only ever holds identifiers of
    flagged teeth of its document, each at most once: this holds of the
    empty selection the page starts with, and every handler that
    changes the selection (a row's button, a marker, a click on the
    mesh, hiding the mesh) keeps it. *)
Theorem selection_names_flagged_teeth mesh :
  selectionOk mesh [] /\
  forall prev next, selectionOk mesh prev -> selects mesh prev next -> selectionOk mesh next.
Proof.
  assert (H0 : selectionOk mesh []).
  { split; [constructor|intros id []]. }
  split; [exact H0|].
  intros prev next Hok [id t Hin|id t Hin|mounted ray near far|].
  - apply rowClick_keeps; [|exact Hok].
    unfold ViewerPage.teeth in Hin. rewrite filter_all in Hin.
    now apply (Permutation_in _ (sort_by_perm _ _)) in Hin.
  - now apply rowClick_keeps.
  - destruct mounted; [|exact Hok].
    destruct (handleMeshClick_cases (ViewerPage.pickerChildren mesh) ray near far prev)
      as [->|(o & id & Ho & Hid & ->)]; [exact Hok|].
    destruct mesh as [m|]; [|destruct Ho]. cbn [ViewerPage.pickerChildren] in Ho.
    destruct (registry_picker_entry m None 1 o Ho) as (id' & t & Hid' & Hent & Hq).
    rewrite Hid in Hid'. injection Hid' as <-.
    destruct Hok as [Hnd Hall]. split; [now apply toggle_NoDup|].
    intros x Hx. apply toggle_In in Hx. destruct Hx as [[-> _]|[_ Hx]]; [|now apply Hall].
    exists t. split; [exact Hent|].
    unfold qualifies in Hq. apply andb_true_iff in Hq. destruct Hq as [Hp _].
    now apply Z.eqb_eq.
  - exact H0.
Qed.
End MeshClicks.
(** * Typing and committing a display number *)

Section TypedDrafts.
Local Open Scope R_scope.
Import Viewer.

Lemma digitsOnly_allDigits s : digitsOnly s = true -> allDigits s = true.
Proof. destruct s; [discriminate|exact (fun H => H)]. Qed.

Lemma digitsOnly_nonempty s : digitsOnly s = true -> s <> ""%string.
Proof. destruct s; [discriminate|discriminate]. Qed.

(** X21.  [handleChange] lets a new value into a field only when it is
    empty or consists of decimal digits, and then clears the field's
    error; any other value leaves drafts and errors as they were.  The
    other fields are never touched, and if every draft consisted of
    digits before, every draft does afterwards. *)
Theorem handleChange_filters_input id val a :
  (val = ""%string \/ digitsOnly val = true ->
   drafts (handleChange id val a) !! id = Some val /\
   errors (handleChange id val a) !! id = Some None) /\
  (val <> ""%string -> digitsOnly val = false -> handleChange id val a = a) /\
  (forall k, k <> id ->
   drafts (handleChange id val a) !! k = drafts a !! k /\
   errors (handleChange id val a) !! k = errors a !! k) /\
  ((forall k s, drafts a !! k = Some s -> allDigits s = true) ->
   forall k s, drafts (handleChange id val a) !! k = Some s -> allDigits s = true).
Proof.
  unfold handleChange.
  destruct (String.eqb_spec val "") as [E|NE]; cbn [orb].
  - subst val. split; [|split; [|split]].
    + intros _. cbn. split; apply lookup_insert_eq.
    + intros H. contradiction.
    + intros k Hk. cbn. split; apply lookup_insert_ne; congruence.
    + intros Hall k s. cbn. destruct (decide (k = id)) as [->|Hk].
      * rewrite lookup_insert_eq. now intros [= <-].
      * rewrite lookup_insert_ne by congruence. apply Hall.
  - destruct (digitsOnly val) eqn:Hd.
    + split; [|split; [|split]].
      * intros _. cbn. split; apply lookup_insert_eq.
      * discriminate.
      * intros k Hk. cbn. split; apply lookup_insert_ne; congruence.
      * intros Hall k s. cbn. destruct (decide (k = id)) as [->|Hk].
        -- rewrite lookup_insert_eq. intros [= <-]. now apply digitsOnly_allDigits.
        -- rewrite lookup_insert_ne by congruence. apply Hall.
    + split; [|split; [|split]].
      * intros [H|H]; [contradiction|discriminate].
      * reflexivity.
      * intros k _. split; reflexivity.
      * intros Hall. exact Hall.
Qed.

Variable trim : string -> string.
Variable Number : string -> option R.
Variable onChangeNumForId : string -> R -> Page -> Page.

(** What the development needs of the two built-ins on the drafts that
    [handleChange] lets through: trimming the empty string gives the
    empty string and trimming digits does not; [Number] reads a string
    of digits whose value is at most 16 exactly, and a larger one as a
    number above 16 or as a value that is not finite. *)
Hypothesis trim_empty : trim "" = ""%string.
Hypothesis trim_digits : forall s, digitsOnly s = true -> trim s <> ""%string.
Hypothesis Number_small : forall s,
  digitsOnly s = true -> (digitsValue 0 s <= 16)%Z -> Number s = Some (IZR (digitsValue 0 s)).
Hypothesis Number_large : forall s,
  digitsOnly s = true -> (16 < digitsValue 0 s)%Z ->
  Number s = None \/ exists n, Number s = Some n /\ 16 < n.

(** X22.  Typing a value into the field of a selected tooth and leaving
    the field: an empty field is reported as required; digits whose
    value is 0 or above 16 are reported as out of range; in both cases
    nothing is committed.  Digits with a value from 1 to 16 leave the
    field without an error, and the value is committed through
    [onChangeNumForId] unless it is the tooth's current number. *)
Theorem typed_number_committed_iff_in_range id val currentNum a page :
  let s' := handleBlur trim Number onChangeNumForId id true currentNum
              (handleChange id val a, page) in
  (val = ""%string ->
   errors (fst s') !! id = Some (Some "Required (1–16)"%string) /\ snd s' = page) /\
  (digitsOnly val = true ->
   ((digitsValue 0 val < 1 \/ 16 < digitsValue 0 val)%Z ->
    errors (fst s') !! id = Some (Some "Must be 1–16"%string) /\ snd s' = page) /\
   ((1 <= digitsValue 0 val <= 16)%Z ->
    errors (fst s') !! id = Some None /\ drafts (fst s') !! id = Some val /\
    snd s' = if Req_dec_T (IZR (digitsValue 0 val)) currentNum then page
             else onChangeNumForId id (IZR (digitsValue 0 val)) page)).
Proof.
  cbn zeta. unfold handleBlur. cbn [negb]. split.
  - intros ->. unfold handleChange. cbn [String.eqb orb drafts].
    rewrite lookup_insert_eq, trim_empty. cbn [String.eqb fst snd].
    split; [|reflexivity]. unfold setError. cbn. apply lookup_insert_eq.
  - intros Hd.
    assert (Hc : handleChange id val a
                 = mkAccordion (<[id := val]> (drafts a)) (<[id := None]> (errors a))).
    { unfold handleChange. rewrite Hd. now rewrite orb_true_r. }
    rewrite Hc. cbn [drafts]. rewrite lookup_insert_eq.
    destruct (String.eqb_spec (trim val) "") as [E|_]; [now apply trim_digits in E|].
    split.
    + intros [Hlo|Hhi].
      * rewrite (Number_small val Hd) by lia.
        assert (Hlt : JS.lt (IZR (digitsValue 0 val)) 1 = true).
        { apply lt_true. apply IZR_lt in Hlo. exact Hlo. }
        rewrite Hlt. cbn [orb fst snd]. split; [|reflexivity].
        unfold setError. cbn. apply lookup_insert_eq.
      * destruct (Number_large val Hd Hhi) as [->|(n & -> & Hn)].
        -- cbn [fst snd]. split; [|reflexivity]. unfold setError. cbn. apply lookup_insert_eq.
        -- assert (Hgt : JS.gt n 16 = true) by now apply gt_true.
           rewrite Hgt, orb_true_r. cbn [fst snd]. split; [|reflexivity].
           unfold setError. cbn. apply lookup_insert_eq.
    + intros [Hlo Hhi]. rewrite (Number_small val Hd) by lia.
      apply IZR_le in Hlo, Hhi.
      assert (Hb : JS.lt (IZR (digitsValue 0 val)) 1 || JS.gt (IZR (digitsValue 0 val)) 16
                   = false).
      { apply orb_false_iff. split; [apply lt_false|apply gt_false]; lra. }
      rewrite Hb.
      destruct (Req_dec_T (IZR (digitsValue 0 val)) currentNum) as [E|NE];
        cbn [fst snd errors drafts];
        (split; [apply lookup_insert_eq|]); (split; [apply lookup_insert_eq|reflexivity]).
Qed.
End TypedDrafts.
(** * The built-ins on digit strings *)

Section DigitStrings.
Local Open Scope R_scope.
Import Viewer.

Lemma digit_not_space c : isDigit c = true -> isSpace c = false.
Proof.
  unfold isDigit, isSpace. intros [H1 H2]%andb_true_iff.
  apply Nat.leb_le in H1, H2. apply orb_false_iff. split.
  - apply Nat.eqb_neq. lia.
  - apply andb_false_iff. right. apply Nat.leb_gt. lia.
Qed.

Lemma trimStart_digits s : allDigits s = true -> trimStart s = s.
Proof.
  destruct s as [|c r]; [reflexivity|]. cbn [allDigits trimStart].
  intros [Hc _]%andb_true_iff. now rewrite (digit_not_space c Hc).
Qed.

Lemma revOnto_digits acc s :
  allDigits acc = true -> allDigits s = true -> allDigits (revOnto acc s) = true.
Proof.
  revert acc. induction s as [|c r IH]; intros acc Hacc Hs; [exact Hacc|].
  cbn [allDigits] in Hs. apply andb_true_iff in Hs. destruct Hs as [Hc Hr].
  cbn [revOnto]. apply IH; [|exact Hr]. cbn [allDigits]. now rewrite Hc, Hacc.
Qed.

Lemma revOnto_nonempty acc s :
  acc <> ""%string \/ s <> ""%string -> revOnto acc s <> ""%string.
Proof.
  revert acc. induction s as [|c r IH]; intros acc H; cbn [revOnto].
  - destruct H as [H|H]; [exact H|contradiction].
  - apply IH. left. discriminate.
Qed.

Lemma trimAscii_digits s : digitsOnly s = true -> trimAscii s <> ""%string.
Proof.
  intros Hd. pose proof (digitsOnly_allDigits s Hd) as Ha.
  pose proof (digitsOnly_nonempty s Hd) as Hne.
  unfold trimAscii. rewrite (trimStart_digits s Ha).
  rewrite (trimStart_digits (revOnto "" s)) by now apply revOnto_digits.
  apply revOnto_nonempty. right. apply revOnto_nonempty. now right.
Qed.

Lemma NumberOfDigits_small s :
  digitsOnly s = true -> (digitsValue 0 s <= 16)%Z ->
  NumberOfDigits s = Some (IZR (digitsValue 0 s)).
Proof. intros Hd _. unfold NumberOfDigits. now rewrite Hd. Qed.

Lemma NumberOfDigits_large s :
  digitsOnly s = true -> (16 < digitsValue 0 s)%Z ->
  NumberOfDigits s = None \/ exists n, NumberOfDigits s = Some n /\ 16 < n.
Proof.
  intros Hd Hv. right. exists (IZR (digitsValue 0 s)). unfold NumberOfDigits. rewrite Hd.
  split; [reflexivity|]. now apply IZR_lt.
Qed.

Lemma typed_number_committed_iff_in_range_witness :
  trimAscii "" = ""%string /\
  (forall s, digitsOnly s = true -> trimAscii s <> ""%string) /\
  errors (fst (handleBlur trimAscii NumberOfDigits changeNumA "a" true 3
                 (handleChange "a" "17" (mkAccordion ∅ ∅), page0))) !! "a"%string
  = Some (Some "Must be 1–16"%string) /\
  snd (handleBlur trimAscii NumberOfDigits changeNumA "a" true 3
         (handleChange "a" "9" (mkAccordion ∅ ∅), page0))
  = changeNumA "a" 9 page0.
Proof.
  pose proof (typed_number_committed_iff_in_range trimAscii NumberOfDigits changeNumA
                eq_refl trimAscii_digits NumberOfDigits_small NumberOfDigits_large
                "a" "17" 3 (mkAccordion ∅ ∅) page0) as H17.
  pose proof (typed_number_committed_iff_in_range trimAscii NumberOfDigits changeNumA
                eq_refl trimAscii_digits NumberOfDigits_small NumberOfDigits_large
                "a" "9" 3 (mkAccordion ∅ ∅) page0) as H9.
  cbn zeta in H17, H9.
  split; [reflexivity|]. split; [exact trimAscii_digits|]. split.
  - refine (proj1 (proj1 (proj2 H17 eq_refl) _)). right. now vm_compute.
  - refine (eq_trans (proj2 (proj2 (proj2 (proj2 H9 eq_refl) _))) _).
    + split; now vm_compute.
    + change (digitsValue 0 "9") with 9%Z.
      destruct (Req_dec_T 9 3) as [E|_]; [lra|reflexivity].
Defined.
End DigitStrings.
(** * Fitting the camera *)

Section CameraFit.
Local Open Scope R_scope.

Lemma isEmpty_false b :
  Box3.isEmpty b = false <->
  Vector3.x (Box3.min b) <= Vector3.x (Box3.max b) /\
  Vector3.y (Box3.min b) <= Vector3.y (Box3.max b) /\
  Vector3.z (Box3.min b) <= Vector3.z (Box3.max b).
Proof.
  unfold Box3.isEmpty. rewrite !orb_false_iff, !lt_false. tauto.
Qed.

Lemma encloses_refl a : encloses a a.
Proof. unfold encloses. repeat split; lra. Qed.

Lemma encloses_trans a b c : encloses a b -> encloses b c -> encloses a c.
Proof. unfold encloses. intros (?&?&?&?&?&?) (?&?&?&?&?&?). repeat split; lra. Qed.

Lemma union_encloses a b : encloses (Box3.union a b) a /\ encloses (Box3.union a b) b.
Proof.
  unfold encloses, Box3.union; cbn.
  repeat split; try apply Rmin_l; try apply Rmin_r; try apply Rmax_l; try apply Rmax_r.
Qed.

Lemma union_nonempty a b :
  Box3.isEmpty a = false -> Box3.isEmpty (Box3.union a b) = false.
Proof.
  rewrite !isEmpty_false. intros (Hx & Hy & Hz). unfold Box3.union; cbn.
  repeat split.
  - apply Rle_trans with (Vector3.x (Box3.min a)); [apply Rmin_l|].
    apply Rle_trans with (Vector3.x (Box3.max a)); [exact Hx|apply Rmax_l].
  - apply Rle_trans with (Vector3.y (Box3.min a)); [apply Rmin_l|].
    apply Rle_trans with (Vector3.y (Box3.max a)); [exact Hy|apply Rmax_l].
  - apply Rle_trans with (Vector3.z (Box3.min a)); [apply Rmin_l|].
    apply Rle_trans with (Vector3.z (Box3.max a)); [exact Hz|apply Rmax_l].
Qed.

Lemma accumulate_counted box r :
  Fit.accumulate box r =
  match counted r with
  | None => box
  | Some tmp => match box with None => Some tmp | Some b => Some (Box3.union b tmp) end
  end.
Proof.
  unfold Fit.accumulate, counted. destruct r as [[tmp|]|]; try reflexivity.
  now destruct (Box3.isEmpty tmp).
Qed.

Lemma accumulate_all targets acc :
  (forall b, acc = Some b -> Box3.isEmpty b = false) ->
  match fold_left Fit.accumulate targets acc with
  | None => acc = None /\ Forall (fun r => counted r = None) targets
  | Some box =>
    Box3.isEmpty box = false /\
    (forall b, acc = Some b -> encloses box b) /\
    Forall (fun r => forall b, counted r = Some b -> encloses box b) targets
  end.
Proof.
  revert acc. induction targets as [|r rest IH]; intros acc Hacc; cbn [fold_left].
  - destruct acc as [b|]; [|split; [reflexivity|constructor]].
    split; [now apply Hacc|]. split; [|constructor].
    intros b' [= <-]. apply encloses_refl.
  - rewrite accumulate_counted.
    destruct (counted r) as [tmp|] eqn:Hr.
    + assert (Htmp : Box3.isEmpty tmp = false).
      { unfold counted in Hr. destruct r as [[t|]|]; try discriminate.
        destruct (Box3.isEmpty t) eqn:E; [discriminate|]. now injection Hr as <-. }
      destruct acc as [b|].
      * specialize (IH (Some (Box3.union b tmp))).
        destruct (fold_left _ _ _) as [box|].
        -- destruct IH as (Hne & Henc & Hall).
           { intros b' [= <-]. apply union_nonempty. now apply Hacc. }
           specialize (Henc _ eq_refl). destruct (union_encloses b tmp) as [Hb Ht].
           split; [exact Hne|]. split.
           ++ intros b' [= <-]. now apply (encloses_trans _ _ _ Henc).
           ++ constructor; [|exact Hall]. rewrite Hr. intros b' [= <-].
              now apply (encloses_trans _ _ _ Henc).
        -- destruct IH as [E _]; [|discriminate].
           intros b' [= <-]. apply union_nonempty. now apply Hacc.
      * specialize (IH (Some tmp)).
        destruct (fold_left _ _ _) as [box|].
        -- destruct IH as (Hne & Henc & Hall); [now intros b' [= <-]|].
           split; [exact Hne|]. split; [discriminate|].
           constructor; [|exact Hall]. rewrite Hr. intros b' [= <-]. now apply Henc.
        -- destruct IH as [E _]; [now intros b' [= <-]|discriminate].
    + specialize (IH acc Hacc). destruct (fold_left _ _ _) as [box|].
      * destruct IH as (Hne & Henc & Hall). split; [exact Hne|]. split; [exact Henc|].
        constructor; [rewrite Hr; discriminate|exact Hall].
      * destruct IH as [E Hall]. split; [exact E|]. now constructor.
Qed.

Lemma accumulate_some targets box :
  fold_left Fit.accumulate targets None = Some box ->
  Exists (fun r => counted r <> None) targets.
Proof.
  induction targets as [|r rest IH]; intros E; [discriminate|].
  cbn [fold_left] in E. rewrite accumulate_counted in E.
  destruct (counted r) as [tmp|] eqn:Hr.
  - apply Exists_cons_hd. rewrite Hr. discriminate.
  - apply Exists_cons_tl. now apply IH.
Qed.

(** X23.  The box that [FitOnce] fits the camera to is not empty and
    encloses the bounds of every target that is mounted and has
    non-empty bounds; there is no such box exactly when no target
    counts. *)
Theorem FitOnce_box_encloses_targets targets :
  match fold_left Fit.accumulate targets None with
  | None => Forall (fun r => counted r = None) targets
  | Some box =>
    Box3.isEmpty box = false /\
    Forall (fun r => forall b, counted r = Some b -> encloses box b) targets /\
    Exists (fun r => counted r <> None) targets
  end.
Proof.
  pose proof (accumulate_all targets None) as H.
  destruct (fold_left _ _ _) as [box|] eqn:E.
  - destruct H as (Hne & _ & Hall); [discriminate|].
    split; [exact Hne|]. split; [exact Hall|].
    now apply (accumulate_some targets box).
  - destruct H as [_ Hall]; [discriminate|exact Hall].
Qed.
Lemma half_fov_tan fov : 0 < fov < 180 -> 0 < tan (fov * PI / 360).
Proof.
  intros [H0 H1]. pose proof PI_RGT_0 as Hpi. apply tan_gt_0; nra.
Qed.

Lemma diagonal_unit : Vector3.length (Vector3.normalize (Vector3.mk 1 1 1)) = 1.
Proof.
  apply normalize_unit. intros E. apply (f_equal Vector3.x) in E. cbn in E. lra.
Qed.

Lemma distance_along_diagonal center reach :
  0 <= reach ->
  Vector3.distanceTo center
    (Vector3.add center
       (Vector3.multiplyScalar (Vector3.normalize (Vector3.mk 1 1 1)) reach)) = reach.
Proof.
  intros H. rewrite distanceTo_add, length_scale, diagonal_unit, Rabs_pos_eq by exact H. ring.
Qed.

Lemma FitOnce_done targets margin width height s :
  Fit.did s = true -> Fit.FitOnce targets margin width height s = s.
Proof. intros H. unfold Fit.FitOnce. now rewrite H. Qed.

Lemma fitObject_same_address url geometry width height s :
  Fit.didFit s = Some url -> Fit.fitObject url geometry width height s = s.
Proof.
  intros H. unfold Fit.fitObject. destruct geometry as [boundingBox|]; [|reflexivity].
  now rewrite H, String.eqb_refl.
Qed.

(** X24.  With a perspective camera whose field of view lies strictly
    between 0 and 180 degrees, a positive margin and a box of positive
    extent, [FitOnce] puts the camera at the distance
    [dist = maxDim * margin / (2 tan(fov / 2))] from the centre of the
    box and sets the clipping planes to [dist / 100] and [dist * 100],
    so that the centre lies strictly between them.  It then marks the
    fit as done, and no later run changes anything. *)
Theorem FitOnce_places_camera targets margin width height s box :
  Fit.did s = false -> Fit.isPerspective (Fit.camera s) = true ->
  fold_left Fit.accumulate targets None = Some box ->
  0 < Fit.fov (Fit.camera s) < 180 -> 0 < margin ->
  0 < Fit.max3 (Vector3.x (Box3.getSize box)) (Vector3.y (Box3.getSize box))
               (Vector3.z (Box3.getSize box)) ->
  let s' := Fit.FitOnce targets margin width height s in
  let dist := Fit.max3 (Vector3.x (Box3.getSize box)) (Vector3.y (Box3.getSize box))
                       (Vector3.z (Box3.getSize box)) * margin
              / (2 * tan (Fit.fov (Fit.camera s) * PI / 360)) in
  0 < dist /\
  Vector3.distanceTo (Box3.getCenter box) (Fit.position (Fit.camera s')) = dist /\
  Fit.near (Fit.camera s') = dist / 100 /\ Fit.far (Fit.camera s') = dist * 100 /\
  Fit.near (Fit.camera s') < dist < Fit.far (Fit.camera s') /\
  Fit.did s' = true /\
  forall targets' margin' width' height',
    Fit.FitOnce targets' margin' width' height' s' = s'.
Proof.
  intros Hdid Hp Hbox Hfov Hm Hdim. cbn zeta.
  set (dist := _ * margin / (2 * tan _)).
  assert (Hd : 0 < dist).
  { unfold dist. pose proof (half_fov_tan _ Hfov) as Ht.
    apply Rmult_lt_0_compat; [now apply Rmult_lt_0_compat|].
    apply Rinv_0_lt_compat. lra. }
  assert (Es : Fit.FitOnce targets margin width height s
               = Fit.mkState
                   (Fit.mkCamera true (Fit.fov (Fit.camera s)) (width / height)
                      (Vector3.add (Box3.getCenter box)
                         (Vector3.multiplyScalar (Vector3.normalize (Vector3.mk 1 1 1)) dist))
                      (dist / 100) (dist * 100)
                      (match Fit.controlsTarget s with
                       | Some _ => Fit.lookedAt (Fit.camera s)
                       | None => Some (Box3.getCenter box)
                       end))
                   (match Fit.controlsTarget s with
                    | Some _ => Some (Box3.getCenter box)
                    | None => None
                    end) true).
  { unfold Fit.FitOnce. now rewrite Hdid, Hbox, Hp. }
  rewrite Es. cbn [Fit.camera Fit.position Fit.near Fit.far Fit.did].
  split; [exact Hd|]. split; [apply distance_along_diagonal; lra|].
  split; [reflexivity|]. split; [reflexivity|]. split; [lra|]. split; [reflexivity|].
  intros. now apply FitOnce_done.
Qed.

Lemma cubeBox_counts : fold_left Fit.accumulate [Some (Some cubeBox)] None = Some cubeBox.
Proof.
  cbn [fold_left]. rewrite accumulate_counted. unfold counted.
  assert (E : Box3.isEmpty cubeBox = false).
  { apply isEmpty_false. unfold cubeBox; cbn. lra. }
  now rewrite E.
Qed.

Lemma cubeBox_extent :
  Fit.max3 (Vector3.x (Box3.getSize cubeBox)) (Vector3.y (Box3.getSize cubeBox))
           (Vector3.z (Box3.getSize cubeBox)) = 2.
Proof.
  unfold Box3.getSize.
  assert (E : Box3.isEmpty cubeBox = false).
  { apply isEmpty_false. unfold cubeBox; cbn. lra. }
  rewrite E. unfold Fit.max3, cubeBox, Vector3.sub; cbn.
  unfold Rmax. repeat destruct (Rle_dec _ _); lra.
Qed.

Lemma FitOnce_places_camera_witness :
  Fit.did fit0 = false /\ Fit.isPerspective (Fit.camera fit0) = true /\
  fold_left Fit.accumulate [Some (Some cubeBox)] None = Some cubeBox /\
  0 < Fit.fov (Fit.camera fit0) < 180 /\ 0 < 5 / 4 /\
  0 < Fit.max3 (Vector3.x (Box3.getSize cubeBox)) (Vector3.y (Box3.getSize cubeBox))
               (Vector3.z (Box3.getSize cubeBox)) /\
  Fit.near (Fit.camera (Fit.FitOnce [Some (Some cubeBox)] (5 / 4) 800 600 fit0))
  < Fit.max3 (Vector3.x (Box3.getSize cubeBox)) (Vector3.y (Box3.getSize cubeBox))
             (Vector3.z (Box3.getSize cubeBox)) * (5 / 4)
    / (2 * tan (Fit.fov (Fit.camera fit0) * PI / 360))
  < Fit.far (Fit.camera (Fit.FitOnce [Some (Some cubeBox)] (5 / 4) 800 600 fit0)).
Proof.
  assert (Hfov : 0 < Fit.fov (Fit.camera fit0) < 180) by (cbn; lra).
  assert (Hm : 0 < 5 / 4) by lra.
  assert (Hdim : 0 < Fit.max3 (Vector3.x (Box3.getSize cubeBox))
                   (Vector3.y (Box3.getSize cubeBox)) (Vector3.z (Box3.getSize cubeBox))).
  { rewrite cubeBox_extent. lra. }
  split; [reflexivity|]. split; [reflexivity|]. split; [exact cubeBox_counts|].
  split; [exact Hfov|]. split; [exact Hm|]. split; [exact Hdim|].
  exact (proj1 (proj2 (proj2 (proj2 (proj2
           (FitOnce_places_camera [Some (Some cubeBox)] (5 / 4) 800 600 fit0 cubeBox
              eq_refl eq_refl cubeBox_counts Hfov Hm Hdim)))))).
Defined.

(** X25.  For a perspective camera with a field of view strictly
    between 0 and 180 degrees, a viewport of positive width and height
    and a bounding box of positive extent, [STLObject] takes the larger
    of the distances that fit the height and the width, puts the camera
    at 1.2 times that distance from the centre of the box, and sets the
    clipping planes to a hundredth and a hundred times the distance, the
    centre lying strictly between them.  It records the address it has
    fitted, and a later run for the same address changes nothing. *)
Theorem fitObject_places_camera url box width height s :
  Fit.didFit s = None -> Fit.isPerspective (Fit.objCamera s) = true ->
  0 < Fit.fov (Fit.objCamera s) < 180 -> 0 < width -> 0 < height ->
  0 < Fit.max3 (Vector3.x (Box3.getSize box)) (Vector3.y (Box3.getSize box))
               (Vector3.z (Box3.getSize box)) ->
  let s' := Fit.fitObject url (Some (Some (Some box))) width height s in
  let fitHeightDistance :=
    Fit.max3 (Vector3.x (Box3.getSize box)) (Vector3.y (Box3.getSize box))
             (Vector3.z (Box3.getSize box))
    / (2 * tan (Fit.fov (Fit.objCamera s) * PI / 360)) in
  let fitWidthDistance := fitHeightDistance / (width / height) in
  let distance := Rmax fitHeightDistance fitWidthDistance in
  0 < fitHeightDistance <= distance /\ fitWidthDistance <= distance /\
  Vector3.distanceTo (Box3.getCenter box) (Fit.position (Fit.objCamera s'))
    = distance * (12 / 10) /\
  Fit.near (Fit.objCamera s') = distance / 100 /\
  Fit.far (Fit.objCamera s') = distance * 100 /\
  Fit.near (Fit.objCamera s') < distance * (12 / 10) < Fit.far (Fit.objCamera s') /\
  Fit.aspect (Fit.objCamera s') = width / height /\
  Fit.didFit s' = Some url /\
  forall geometry width' height', Fit.fitObject url geometry width' height' s' = s'.
Proof.
  intros Hdid Hp Hfov Hw Hh Hdim. cbn zeta.
  set (fitH := _ / (2 * tan _)).
  set (fitW := fitH / (width / height)).
  assert (HfitH : 0 < fitH).
  { unfold fitH. pose proof (half_fov_tan _ Hfov) as Ht.
    apply Rmult_lt_0_compat; [exact Hdim|]. apply Rinv_0_lt_compat. lra. }
  pose proof (Rmax_l fitH fitW) as Hl. pose proof (Rmax_r fitH fitW) as Hr.
  assert (Es : Fit.fitObject url (Some (Some (Some box))) width height s
               = Fit.mkObjectState
                   (Fit.mkCamera true (Fit.fov (Fit.objCamera s)) (width / height)
                      (Vector3.add (Box3.getCenter box)
                         (Vector3.multiplyScalar (Vector3.normalize (Vector3.mk 1 1 1))
                            (Rmax fitH fitW * (12 / 10))))
                      (Rmax fitH fitW / 100) (Rmax fitH fitW * 100)
                      (match Fit.objControls s with
                       | Some _ => Fit.lookedAt (Fit.objCamera s)
                       | None => Some (Box3.getCenter box)
                       end))
                   (match Fit.objControls s with
                    | Some _ => Some (Box3.getCenter box)
                    | None => None
                    end) (Some url)).
  { unfold Fit.fitObject. now rewrite Hdid, Hp. }
  rewrite Es. cbn [Fit.objCamera Fit.position Fit.near Fit.far Fit.didFit].
  split; [lra|]. split; [exact Hr|]. split; [apply distance_along_diagonal; lra|].
  split; [reflexivity|]. split; [reflexivity|].
  split; [lra|]. split; [reflexivity|]. split; [reflexivity|].
  intros. now apply fitObject_same_address.
Qed.

Lemma fitObject_places_camera_witness :
  Fit.didFit object0 = None /\ Fit.isPerspective (Fit.objCamera object0) = true /\
  0 < Fit.fov (Fit.objCamera object0) < 180 /\ 0 < 800 /\ 0 < 600 /\
  0 < Fit.max3 (Vector3.x (Box3.getSize cubeBox)) (Vector3.y (Box3.getSize cubeBox))
               (Vector3.z (Box3.getSize cubeBox)) /\
  Fit.didFit (Fit.fitObject "a.stl" (Some (Some (Some cubeBox))) 800 600 object0)
  = Some "a.stl"%string.
Proof.
  assert (Hfov : 0 < Fit.fov (Fit.objCamera object0) < 180) by (cbn; lra).
  assert (Hw : 0 < 800) by lra. assert (Hh : 0 < 600) by lra.
  assert (Hdim : 0 < Fit.max3 (Vector3.x (Box3.getSize cubeBox))
                   (Vector3.y (Box3.getSize cubeBox)) (Vector3.z (Box3.getSize cubeBox))).
  { rewrite cubeBox_extent. lra. }
  split; [reflexivity|]. split; [reflexivity|]. split; [exact Hfov|].
  split; [exact Hw|]. split; [exact Hh|]. split; [exact Hdim|].
  pose proof (fitObject_places_camera "a.stl" cubeBox 800 600 object0
                eq_refl eq_refl Hfov Hw Hh Hdim) as F.
  cbn zeta in F. destruct F as (_ & _ & _ & _ & _ & _ & _ & Hdid & _). exact Hdid.
Defined.
End CameraFit.
(** * Renumbering a tooth *)

Section Renumbering.
Local Open Scope R_scope.
Import Heap Viewer.

Lemma readTooth_Some (h : gmap addr obj) b t :
  readTooth h b = Some t <-> h !! b = Some (Tooth t).
Proof.
  unfold readTooth. destruct (h !! b) as [[| |t']|]; split; intros E; try discriminate.
  - now injection E as ->.
  - now injection E as ->.
Qed.

(** What the records behind a document's table read as after an edit *)
Lemma changeNumUpdater_reads (h : gmap addr obj) d lower tb entries id n :
  h !! d = Some (Doc lower (Some tb)) ->
  h !! tb = Some (Table entries) ->
  exists d' tb' h',
    changeNumUpdater id n h (Some d) = (h', Some d') /\
    h' !! d' = Some (Doc lower (Some tb')) /\
    h' !! tb' = Some (Table entries) /\
    forall b,
      match readTooth h b with
      | Some t =>
        exists t', readTooth h' b = Some t' /\ prep t' = prep t /\ center t' = center t /\
                   spline t' = spline t /\ (num t' = num t \/ num t' = n)
      | None => readTooth h' b = None
      end.
Proof.
  intros Hd Htb. unfold changeNumUpdater, alloc. rewrite Hd, Htb.
  set (tb' := fresh (dom h)).
  set (h1 := <[tb' := Table entries]> h).
  set (d' := fresh (dom h1)).
  set (h2 := <[d' := Doc lower (Some tb')]> h1).
  assert (Ftb : tb' ∉ dom h) by apply is_fresh.
  assert (Fd1 : d' ∉ dom h1) by apply is_fresh.
  assert (Fd : d' ∉ dom h).
  { intros Hin. apply Fd1. unfold h1. rewrite dom_insert_L. set_solver. }
  assert (Ne : d' <> tb').
  { intros E. apply Fd1. unfold h1. rewrite dom_insert_L, E. set_solver. }
  assert (H2d : h2 !! d' = Some (Doc lower (Some tb'))) by apply lookup_insert_eq.
  assert (H2tb : h2 !! tb' = Some (Table entries)).
  { unfold h2. rewrite lookup_insert_ne by exact Ne. apply lookup_insert_eq. }
  assert (H2 : forall b t, h !! b = Some (Tooth t) -> h2 !! b = Some (Tooth t)).
  { intros b t Hb. unfold h2, h1.
    rewrite !lookup_insert_ne; [exact Hb| |].
    - intros E. apply Ftb. rewrite E. eapply elem_of_dom_2, Hb.
    - intros E. apply Fd. rewrite E. eapply elem_of_dom_2, Hb. }
  assert (H2n : forall b, readTooth h b = None -> readTooth h2 b = None).
  { intros b Hb. unfold readTooth in *. unfold h2.
    destruct (decide (b = d')) as [->|Nd]; [now rewrite lookup_insert_eq|].
    rewrite lookup_insert_ne by congruence. unfold h1.
    destruct (decide (b = tb')) as [->|Nt]; [now rewrite lookup_insert_eq|].
    rewrite lookup_insert_ne by congruence. exact Hb. }
  exists d', tb'.
  destruct (lookup_id id entries) as [a|].
  - exists (alter (setNum n) a h2). split; [reflexivity|]. split; [|split].
    + destruct (decide (a = d')) as [->|Na].
      * now rewrite lookup_alter_eq, H2d.
      * now rewrite lookup_alter_ne by congruence.
    + destruct (decide (a = tb')) as [->|Na].
      * now rewrite lookup_alter_eq, H2tb.
      * now rewrite lookup_alter_ne by congruence.
    + intros b. destruct (readTooth h b) as [t|] eqn:Hb.
      * apply readTooth_Some in Hb. apply H2 in Hb.
        destruct (decide (a = b)) as [->|Na].
        -- exists (mkToothCenter (prep t) n (center t) (spline t)).
           split; [|cbn; auto].
           apply readTooth_Some. now rewrite lookup_alter_eq, Hb.
        -- exists t. split; [|auto].
           apply readTooth_Some. now rewrite lookup_alter_ne by congruence.
      * apply H2n in Hb. unfold readTooth in *.
        destruct (decide (a = b)) as [->|Na].
        -- rewrite lookup_alter_eq. destruct (h2 !! b) as [[| |t]|]; try reflexivity.
           discriminate.
        -- now rewrite lookup_alter_ne by congruence.
  - exists h2. split; [reflexivity|]. split; [exact H2d|]. split; [exact H2tb|].
    intros b. destruct (readTooth h b) as [t|] eqn:Hb.
    + exists t. split; [|auto]. apply readTooth_Some, H2. now apply readTooth_Some.
    + now apply H2n.
Qed.

Lemma readEntries_renumbered (h h' : gmap addr obj) n entries :
  (forall b,
     match readTooth h b with
     | Some t =>
       exists t', readTooth h' b = Some t' /\ prep t' = prep t /\ center t' = center t /\
                  spline t' = spline t /\ (num t' = num t \/ num t' = n)
     | None => readTooth h' b = None
     end) ->
  Forall2 (renumbered n) (readEntries h entries) (readEntries h' entries).
Proof.
  intros H. induction entries as [|[k a] r IH]; [constructor|].
  cbn [readEntries]. specialize (H a).
  destruct (readTooth h a) as [t|].
  - destruct H as (t' & -> & Hp & Hc & Hs & Hn). constructor; [|exact IH].
    unfold renumbered. cbn [fst snd]. auto.
  - rewrite H. exact IH.
Qed.

Lemma pickers_renumbered n tp eb es es' acc acc' :
  Forall2 (renumbered n) es es' -> Forall2 sameRegion acc acc' ->
  Forall2 sameRegion (fold_left (pickerById_step tp eb) es acc)
                     (fold_left (pickerById_step tp eb) es' acc').
Proof.
  intros H. revert acc acc'.
  induction H as [|[id t] [id' t'] r r' He _ IH]; intros acc acc' Hacc; [exact Hacc|].
  cbn [fold_left]. apply IH.
  destruct He as (Eid & Ep & _ & Es & _). cbn [fst snd] in *. subst id'.
  unfold pickerById_step. rewrite Ep, Es.
  destruct (negb (prep t =? 1)%Z); [exact Hacc|].
  destruct (spline t) as [s|]; [|exact Hacc].
  destruct (List.length s <? 3)%nat; [exact Hacc|].
  apply Forall2_app; [exact Hacc|]. constructor; [|constructor].
  unfold sameRegion, setToothId, new_ToothPicker. cbn. auto 10.
Qed.

(** X26.  Renumbering a tooth leaves the pickable regions where they
    are.  The document that [changeNumA] or [changeNumB] stores has the
    same [is_lower] flag and the same identifiers in the same order,
    every tooth keeps its flag, centre and loop, and the pickers built
    from it have the same planes, polygons, frames and identifier tags
    as the pickers built before the edit; a selection that names
    flagged teeth of the old document names flagged teeth of the new
    one. *)
Theorem changeNum_keeps_regions (h : gmap addr obj) d id n m tp eb :
  readDoc h d = Some m ->
  exists h' d' m',
    changeNumUpdater id n h (Some d) = (h', Some d') /\
    readDoc h' d' = Some m' /\ is_lower m' = is_lower m /\
    Forall2 (renumbered n) (entriesOf m) (entriesOf m') /\
    Forall2 sameRegion (buildToothPickersById m tp eb) (buildToothPickersById m' tp eb) /\
    forall ids, selectionOk (Some m) ids -> selectionOk (Some m') ids.
Proof.
  unfold readDoc. destruct (h !! d) as [[lower [tb|]| |]|] eqn:Hd; try discriminate.
  - destruct (h !! tb) as [[|entries|]|] eqn:Htb; try discriminate.
    intros [= <-].
    destruct (changeNumUpdater_reads h d lower tb entries id n Hd Htb)
      as (d' & tb' & h' & E & Hd' & Htb' & Hread).
    exists h', d', (mkMeshJSON lower (Some (readEntries h' entries))).
    pose proof (readEntries_renumbered h h' n entries Hread) as Hren.
    split; [exact E|]. split; [now rewrite Hd', Htb'|]. split; [reflexivity|].
    split; [exact Hren|]. split.
    + unfold buildToothPickersById. cbn [centers].
      apply (pickers_renumbered n); [exact Hren|constructor].
    + intros ids [Hnd Hall]. split; [exact Hnd|]. intros x Hx.
      destruct (Hall x Hx) as (t & Hin & Hp). cbn [ViewerPage.entriesOf centers] in *.
      clear -Hren Hin Hp. induction Hren as [|e e' r r' He _ IH]; [destruct Hin|].
      destruct Hin as [->|Hin].
      * destruct e' as [x' t']. destruct He as (Ex & Ep & _). cbn [fst snd] in *. subst x'.
        exists t'. split; [now left|congruence].
      * destruct (IH Hin) as (t' & Hin' & Hp'). exists t'. split; [now right|exact Hp'].
  - intros [= <-]. exists h, d, (mkMeshJSON lower None).
    split; [unfold changeNumUpdater; now rewrite Hd|].
    split; [now rewrite Hd|]. split; [reflexivity|].
    split; [constructor|]. split; [constructor|]. auto.
Qed.

Lemma changeNum_keeps_regions_witness :
  exists m, readDoc heap0 1%positive = Some m /\
    exists h' d' m',
      changeNumUpdater "a" 9 heap0 (Some 1%positive) = (h', Some d') /\
      readDoc h' d' = Some m' /\ is_lower m' = is_lower m /\
      Forall2 (renumbered 9) (entriesOf m) (entriesOf m') /\
      Forall2 sameRegion (buildToothPickersById m None 1) (buildToothPickersById m' None 1) /\
      forall ids, selectionOk (Some m) ids -> selectionOk (Some m') ids.
Proof.
  eexists. split; [reflexivity|].
  exact (changeNum_keeps_regions heap0 1%positive "a" 9 _ None 1 eq_refl).
Defined.
End Renumbering.

(** * Reading a number back after an edit *)

Section ReadBack.
Local Open Scope R_scope.
Import Heap Viewer.

Lemma center_at_readEntries (h : gmap addr obj) entries id a t :
  Forall (fun e => exists t, readTooth h (snd e) = Some t) entries ->
  lookup_id id entries = Some a -> readTooth h a = Some t ->
  center_at id (readEntries h entries) = Some t.
Proof.
  intros Hwf. induction Hwf as [|[k b] r (tb & Hb) _ IH]; [discriminate|].
  cbn [lookup_id readEntries snd] in *. intros Hid Ha.
  destruct (String.eqb_spec k id) as [->|Hne].
  - injection Hid as ->. rewrite Ha. cbn [center_at]. now rewrite String.eqb_refl.
  - rewrite Hb. cbn [center_at].
    destruct (String.eqb_spec k id) as [E|_]; [contradiction|]. now apply IH.
Qed.

(** X28.  In a well-formed document, after [changeNumA] or [changeNumB]
    has set the number of a tooth, the document it stores reads that
    number for the tooth, with the tooth's flag, centre and loop as
    they were, and [activeNumsFromIds] reports the new number for
    it. *)
Theorem changeNum_then_read_number (h : gmap addr obj) d id n a t :
  wellFormedDoc h d -> toothOf h d id = Some (a, t) ->
  exists h' d' m',
    changeNumUpdater id n h (Some d) = (h', Some d') /\
    readDoc h' d' = Some m' /\
    center_at id (entriesOf m') = Some (mkToothCenter (prep t) n (center t) (spline t)) /\
    ViewerPage.activeNumsFromIds (Some m') [id] = [n].
Proof.
  intros (lower & tb & entries & Hd & Htb & Hwf) Ht.
  destruct (toothOf_inv _ _ _ _ _ Ht) as (lower' & tb2 & entries' & Hd2 & Htb2 & Hid & Ha).
  rewrite Hd in Hd2. injection Hd2 as <- <-. rewrite Htb in Htb2. injection Htb2 as <-.
  destruct (changeNumUpdater_edit h d lower tb entries id n a t Hd Htb Hid Ha)
    as (d' & tb' & h' & E & Fd & Ftb & Ne & Hd' & Htb' & Ha' & Hother).
  exists h', d', (mkMeshJSON lower (Some (readEntries h' entries))).
  split; [exact E|]. split; [unfold readDoc; now rewrite Hd', Htb'|].
  assert (Hwf' : Forall (fun e => exists t, readTooth h' (snd e) = Some t) entries).
  { apply List.Forall_forall. intros e He. rewrite List.Forall_forall in Hwf.
    destruct (Hwf e He) as (te & Hte). unfold readTooth in *.
    destruct (decide (snd e = a)) as [->|Hne].
    - rewrite Ha'. cbn. eauto.
    - destruct (h !! snd e) as [o|] eqn:Ho; [|discriminate].
      rewrite (Hother (snd e) Hne (elem_of_dom_2 _ _ _ Ho)), Ho. eauto. }
  assert (Hc : center_at id (readEntries h' entries)
               = Some (mkToothCenter (prep t) n (center t) (spline t))).
  { apply (center_at_readEntries h' entries id a); [exact Hwf'|exact Hid|].
    unfold readTooth. now rewrite Ha'. }
  split; [exact Hc|].
  unfold ViewerPage.activeNumsFromIds. cbn [centers fold_left].
  cbn [entriesOf centers] in Hc. now rewrite Hc.
Qed.

Lemma heap0_wellFormed : wellFormedDoc heap0 1%positive.
Proof.
  exists false, 2%positive, [("a"%string, 3%positive); ("b"%string, 4%positive)].
  split; [reflexivity|]. split; [reflexivity|].
  repeat constructor; cbn [snd]; eexists; reflexivity.
Qed.

Lemma changeNum_then_read_number_witness :
  wellFormedDoc heap0 1%positive /\
  toothOf heap0 1%positive "a" = Some (3%positive, toothA) /\
  exists h' d' m',
    changeNumUpdater "a" 9 heap0 (Some 1%positive) = (h', Some d') /\
    readDoc h' d' = Some m' /\
    center_at "a" (entriesOf m') = Some toothA9 /\
    ViewerPage.activeNumsFromIds (Some m') ["a"%string] = [9].
Proof.
  split; [exact heap0_wellFormed|]. split; [exact page0_toothA|].
  exact (changeNum_then_read_number heap0 1%positive "a" 9 3%positive toothA
           heap0_wellFormed page0_toothA).
Defined.
End ReadBack.
